(** * Supervisor of the impress application server ([impress.js])

    A shallow embedding of the supervising process: the module-level
    variables, the variables closed over by the main asynchronous function,
    and that part of the Node.js runtime the script talks to (worker
    threads, timers, promises, the [metautil] pool, the console).  Every
    listener of the script is a function on [State]; the event loop is the
    function [step], which runs the listener an [Event] selects.

    The main function is followed from the creation of the logger on; the
    reading of the configuration comes before and only decides whether that
    point is reached, and of [validateConfig] the loading of a schema and
    its check are taken as given answers.  The pool and the logger are
    objects of other packages: the script's calls to them are effects, and
    what their asynchronous methods answer comes back as the outcome of a
    promise.  Of the pool the state keeps its items and which of them are
    captured, which is what decides whether [pool.release] throws. *)

From Stdlib Require Import ZArith Lia DecimalString.
From stdpp Require Import base list strings gmap.

Open Scope string_scope.

(** ** Values *)

(** A [Worker] object, named by its creation order: the [n]-th call of
    [new Worker] yields handle [n]. *)
Abbreviation Handle := nat (only parsing).
(** A [MessagePort] carried by a message. *)
Abbreviation Port := nat (only parsing).
(** A promise the script awaits, named by creation order. *)
Abbreviation Promise := nat (only parsing).
(** The object returned by [setTimeout]. *)
Abbreviation Timer := nat (only parsing).

(** [config.server], as far as the script reads it.  The schemas of
    [schemas/config] make [workers.pool] a non-negative integer when it is
    present. *)
Record Config := mkConfig {
  balancer : bool;
  ports : list Z;
  workers_pool : option nat;
  workers_wait : option Z;
  timeouts_start : Z
}.

(** The inter-thread messages: an object with a [type] field and, by type,
    the fields the handlers of [ITC] read: [name]; [port]; [name], [port]
    and [exclusive].  [MOther] is a message whose type is not a key of
    [ITC] (the keys [ITC] inherits from [Object.prototype] are left out). *)
Inductive Msg :=
| MEvent (name : string)
| MTask (payload : nat) (port : option Port)
| MInvoke (name : string) (port : Port) (exclusive : bool) (payload : nat)
| MOther (type : string).

(** An error object: [err.stack] and [err.message] may be missing. *)
Record Err := mkErr { stack : option string; message : option string }.

(** What the script does to the outside, in order: the calls of
    [console.error], [console.warn], [logger.close], [new Worker],
    [pool.add], [pool.release], [pool.capture], [pool.next],
    [worker.postMessage], [port.postMessage({ error })], [setTimeout],
    [clearTimeout] and [process.exit]. *)
Inductive Effect :=
| ConsoleError (s : string)
| ConsoleWarn (s : string)
| LoggerClose (p : Promise)
| NewWorker (id : nat) (worker : Handle)
| PoolAdd (worker : Handle)
| PoolRelease (worker : Handle)
| PoolCapture (p : Promise)
| PoolNext (p : Promise)
| PostMessage (worker : Handle) (msg : Msg) (transferList : list Port)
| PortPostError (port : Port) (reason : string)
| SetTimeout (t : Timer) (id : nat) (delay : Z)
| ClearTimeout (t : Timer)
| ProcessExit (code : Z).

(** The rest of an asynchronous function suspended at an [await]. *)
Inductive Cont :=
| KExit
| KStop
| KInvoke (msg : Msg).

(** How an awaited promise settles.  A pool promise is fulfilled with a
    worker or with [null]. *)
Inductive Outcome :=
| Fulfilled (v : option Handle)
| Rejected (e : Err).

(** What the event loop delivers: the two steps of the main function (the
    logger is there; [validateConfig] has returned and the synchronous tail
    runs), an [uncaughtException], [warning] or [unhandledRejection] of the
    process (or an [error] of the logger), a call of [stop] by a signal or
    by Ctrl-C, the [exit], [online] and [message] events of a worker, the
    expiry of a timer, and the settling of a promise. *)
Inductive Event :=
| EvLoggerCreated
| EvBoot (cfg : Config)
| EvError (type : string) (e : Err)
| EvStop
| EvExit (worker : Handle) (code : Z)
| EvOnline (worker : Handle)
| EvMessage (worker : Handle) (msg : Msg)
| EvTimeout (t : Timer)
| EvSettle (p : Promise) (o : Outcome).

(** ** State *)

(** [workers] lists the slot of every worker created, in order of creation:
    worker [w] carries the listeners registered by [start (workers !! w)].
    [poolItems] are the workers given to [pool.add] and [captured] those
    of them the pool holds as captured: a worker is captured from the
    moment a promise of [pool.capture()] is fulfilled with it until
    [pool.release] takes it back.  [timers] are the pending timers with
    the slot their callback closes over; [awaiting] the
    suspended functions by the promise they wait for; [exited] the exit
    code once [process.exit] has been called. *)
Record State := mkState {
  (* module level *)
  PATH : string;
  logger : bool;
  finalization : bool;
  initialization : bool;
  (* locals of the main function *)
  count : nat;
  schedulerId : nat;
  timeoutStart : Z;
  startTimer : option Timer;
  active : Z;
  starting : Z;
  scheduler : option Handle;
  threads : list (option Handle);
  (* the pool, the runtime and the trace of effects *)
  poolItems : list Handle;
  captured : list Handle;
  workers : list nat;
  timers : gmap Timer nat;
  nextTimer : Timer;
  awaiting : gmap Promise Cont;
  nextPromise : Promise;
  exited : option Z;
  log : list Effect
}.

Definition set_logger (v : bool) (st : State) : State :=
  {| PATH := PATH st; logger := v; finalization := finalization st;
     initialization := initialization st; count := count st;
     schedulerId := schedulerId st; timeoutStart := timeoutStart st;
     startTimer := startTimer st; active := active st;
     starting := starting st; scheduler := scheduler st;
     threads := threads st; poolItems := poolItems st;
     captured := captured st; workers := workers st;
     timers := timers st; nextTimer := nextTimer st; awaiting := awaiting st;
     nextPromise := nextPromise st; exited := exited st; log := log st |}.

Definition set_finalization (v : bool) (st : State) : State :=
  {| PATH := PATH st; logger := logger st; finalization := v;
     initialization := initialization st; count := count st;
     schedulerId := schedulerId st; timeoutStart := timeoutStart st;
     startTimer := startTimer st; active := active st;
     starting := starting st; scheduler := scheduler st;
     threads := threads st; poolItems := poolItems st;
     captured := captured st; workers := workers st;
     timers := timers st; nextTimer := nextTimer st; awaiting := awaiting st;
     nextPromise := nextPromise st; exited := exited st; log := log st |}.

Definition set_initialization (v : bool) (st : State) : State :=
  {| PATH := PATH st; logger := logger st; finalization := finalization st;
     initialization := v; count := count st; schedulerId := schedulerId st;
     timeoutStart := timeoutStart st; startTimer := startTimer st;
     active := active st; starting := starting st; scheduler := scheduler st;
     threads := threads st; poolItems := poolItems st;
     captured := captured st; workers := workers st;
     timers := timers st; nextTimer := nextTimer st; awaiting := awaiting st;
     nextPromise := nextPromise st; exited := exited st; log := log st |}.

Definition set_startTimer (v : option Timer) (st : State) : State :=
  {| PATH := PATH st; logger := logger st; finalization := finalization st;
     initialization := initialization st; count := count st;
     schedulerId := schedulerId st; timeoutStart := timeoutStart st;
     startTimer := v; active := active st; starting := starting st;
     scheduler := scheduler st; threads := threads st;
     poolItems := poolItems st;
     captured := captured st; workers := workers st; timers := timers st;
     nextTimer := nextTimer st; awaiting := awaiting st;
     nextPromise := nextPromise st; exited := exited st; log := log st |}.

Definition set_active (v : Z) (st : State) : State :=
  {| PATH := PATH st; logger := logger st; finalization := finalization st;
     initialization := initialization st; count := count st;
     schedulerId := schedulerId st; timeoutStart := timeoutStart st;
     startTimer := startTimer st; active := v; starting := starting st;
     scheduler := scheduler st; threads := threads st;
     poolItems := poolItems st;
     captured := captured st; workers := workers st; timers := timers st;
     nextTimer := nextTimer st; awaiting := awaiting st;
     nextPromise := nextPromise st; exited := exited st; log := log st |}.

Definition set_starting (v : Z) (st : State) : State :=
  {| PATH := PATH st; logger := logger st; finalization := finalization st;
     initialization := initialization st; count := count st;
     schedulerId := schedulerId st; timeoutStart := timeoutStart st;
     startTimer := startTimer st; active := active st; starting := v;
     scheduler := scheduler st; threads := threads st;
     poolItems := poolItems st;
     captured := captured st; workers := workers st; timers := timers st;
     nextTimer := nextTimer st; awaiting := awaiting st;
     nextPromise := nextPromise st; exited := exited st; log := log st |}.

Definition set_scheduler (v : option Handle) (st : State) : State :=
  {| PATH := PATH st; logger := logger st; finalization := finalization st;
     initialization := initialization st; count := count st;
     schedulerId := schedulerId st; timeoutStart := timeoutStart st;
     startTimer := startTimer st; active := active st;
     starting := starting st; scheduler := v; threads := threads st;
     poolItems := poolItems st;
     captured := captured st; workers := workers st; timers := timers st;
     nextTimer := nextTimer st; awaiting := awaiting st;
     nextPromise := nextPromise st; exited := exited st; log := log st |}.

Definition set_threads (v : list (option Handle)) (st : State) : State :=
  {| PATH := PATH st; logger := logger st; finalization := finalization st;
     initialization := initialization st; count := count st;
     schedulerId := schedulerId st; timeoutStart := timeoutStart st;
     startTimer := startTimer st; active := active st;
     starting := starting st; scheduler := scheduler st; threads := v;
     poolItems := poolItems st;
     captured := captured st; workers := workers st; timers := timers st;
     nextTimer := nextTimer st; awaiting := awaiting st;
     nextPromise := nextPromise st; exited := exited st; log := log st |}.

Definition set_poolItems (v : list Handle) (st : State) : State :=
  {| PATH := PATH st; logger := logger st; finalization := finalization st;
     initialization := initialization st; count := count st;
     schedulerId := schedulerId st; timeoutStart := timeoutStart st;
     startTimer := startTimer st; active := active st;
     starting := starting st; scheduler := scheduler st;
     threads := threads st; poolItems := v; captured := captured st;
     workers := workers st;
     timers := timers st; nextTimer := nextTimer st; awaiting := awaiting st;
     nextPromise := nextPromise st; exited := exited st; log := log st |}.

Definition set_captured (v : list Handle) (st : State) : State :=
  {| PATH := PATH st; logger := logger st; finalization := finalization st;
     initialization := initialization st; count := count st;
     schedulerId := schedulerId st; timeoutStart := timeoutStart st;
     startTimer := startTimer st; active := active st;
     starting := starting st; scheduler := scheduler st;
     threads := threads st; poolItems := poolItems st; captured := v;
     workers := workers st; timers := timers st; nextTimer := nextTimer st;
     awaiting := awaiting st; nextPromise := nextPromise st;
     exited := exited st; log := log st |}.

Definition set_workers (v : list nat) (st : State) : State :=
  {| PATH := PATH st; logger := logger st; finalization := finalization st;
     initialization := initialization st; count := count st;
     schedulerId := schedulerId st; timeoutStart := timeoutStart st;
     startTimer := startTimer st; active := active st;
     starting := starting st; scheduler := scheduler st;
     threads := threads st; poolItems := poolItems st;
     captured := captured st; workers := v;
     timers := timers st; nextTimer := nextTimer st; awaiting := awaiting st;
     nextPromise := nextPromise st; exited := exited st; log := log st |}.

Definition set_timers (v : gmap Timer nat) (st : State) : State :=
  {| PATH := PATH st; logger := logger st; finalization := finalization st;
     initialization := initialization st; count := count st;
     schedulerId := schedulerId st; timeoutStart := timeoutStart st;
     startTimer := startTimer st; active := active st;
     starting := starting st; scheduler := scheduler st;
     threads := threads st; poolItems := poolItems st;
     captured := captured st; workers := workers st;
     timers := v; nextTimer := nextTimer st; awaiting := awaiting st;
     nextPromise := nextPromise st; exited := exited st; log := log st |}.

Definition set_nextTimer (v : Timer) (st : State) : State :=
  {| PATH := PATH st; logger := logger st; finalization := finalization st;
     initialization := initialization st; count := count st;
     schedulerId := schedulerId st; timeoutStart := timeoutStart st;
     startTimer := startTimer st; active := active st;
     starting := starting st; scheduler := scheduler st;
     threads := threads st; poolItems := poolItems st;
     captured := captured st; workers := workers st;
     timers := timers st; nextTimer := v; awaiting := awaiting st;
     nextPromise := nextPromise st; exited := exited st; log := log st |}.

Definition set_awaiting (v : gmap Promise Cont) (st : State) : State :=
  {| PATH := PATH st; logger := logger st; finalization := finalization st;
     initialization := initialization st; count := count st;
     schedulerId := schedulerId st; timeoutStart := timeoutStart st;
     startTimer := startTimer st; active := active st;
     starting := starting st; scheduler := scheduler st;
     threads := threads st; poolItems := poolItems st;
     captured := captured st; workers := workers st;
     timers := timers st; nextTimer := nextTimer st; awaiting := v;
     nextPromise := nextPromise st; exited := exited st; log := log st |}.

Definition set_nextPromise (v : Promise) (st : State) : State :=
  {| PATH := PATH st; logger := logger st; finalization := finalization st;
     initialization := initialization st; count := count st;
     schedulerId := schedulerId st; timeoutStart := timeoutStart st;
     startTimer := startTimer st; active := active st;
     starting := starting st; scheduler := scheduler st;
     threads := threads st; poolItems := poolItems st;
     captured := captured st; workers := workers st;
     timers := timers st; nextTimer := nextTimer st; awaiting := awaiting st;
     nextPromise := v; exited := exited st; log := log st |}.

Definition set_exited (v : option Z) (st : State) : State :=
  {| PATH := PATH st; logger := logger st; finalization := finalization st;
     initialization := initialization st; count := count st;
     schedulerId := schedulerId st; timeoutStart := timeoutStart st;
     startTimer := startTimer st; active := active st;
     starting := starting st; scheduler := scheduler st;
     threads := threads st; poolItems := poolItems st;
     captured := captured st; workers := workers st;
     timers := timers st; nextTimer := nextTimer st; awaiting := awaiting st;
     nextPromise := nextPromise st; exited := v; log := log st |}.

Definition set_log (v : list Effect) (st : State) : State :=
  {| PATH := PATH st; logger := logger st; finalization := finalization st;
     initialization := initialization st; count := count st;
     schedulerId := schedulerId st; timeoutStart := timeoutStart st;
     startTimer := startTimer st; active := active st;
     starting := starting st; scheduler := scheduler st;
     threads := threads st; poolItems := poolItems st;
     captured := captured st; workers := workers st;
     timers := timers st; nextTimer := nextTimer st; awaiting := awaiting st;
     nextPromise := nextPromise st; exited := exited st; log := v |}.

(** ** Helpers of the runtime *)

(** [a || b] where [a] is an optional string: [undefined] and the empty
    string are falsy. *)
Definition or_default (a : option string) (b : string) : string :=
  match a with
  | Some (String c s) => String c s
  | _ => b
  end.

(** Template-literal rendering of a small non-negative integer. *)
Definition string_of_nat (n : nat) : string := NilZero.string_of_uint (Nat.to_uint n).

(** [metautil.replace(str, substr, newstr)]: every occurrence of [substr],
    scanning from the left, is replaced. *)
Fixpoint replace_loop (fuel : nat) (src substr newstr : string) : string :=
  match fuel with
  | O => src
  | S fuel' =>
      match String.index 0 substr src with
      | None => src
      | Some i =>
          let rest := i + String.length substr in
          String.substring 0 i src +:+ newstr +:+
          replace_loop fuel' (String.substring rest (String.length src - rest) src)
                       substr newstr
      end
  end.

Definition replace (str substr newstr : string) : string :=
  if String.eqb substr "" then str
  else replace_loop (S (String.length str)) str substr newstr.

(** [threads[id] = v] on a JavaScript array: an index past the end extends
    the array with holes. *)
Definition array_set {A} (i : nat) (v : A) (l : list (option A)) : list (option A) :=
  if (i <? length l)%nat then <[i := Some v]> l
  else l ++ replicate (i - length l) None ++ [Some v].

Definition emit (e : Effect) (st : State) : State :=
  set_log (log st ++ [e]) st.

(** [process.exit(code)]: nothing runs afterwards. *)
Definition process_exit (code : Z) (st : State) : State :=
  set_exited (Some code) (emit (ProcessExit code) st).

(** A call that returns a fresh promise. *)
Definition promise (mk : Promise -> Effect) (st : State) : Promise * State :=
  let p := nextPromise st in
  (p, set_nextPromise (S p) (emit (mk p) st)).

(** [await p] with the rest of the function [k]. *)
Definition await (p : Promise) (k : Cont) (st : State) : State :=
  set_awaiting (<[p := k]> (awaiting st)) st.

(** The errors thrown by the runtime and by the pool: of the stack, the
    first line. *)
Definition TypeError (what : string) : Err :=
  mkErr (Some ("TypeError: " +:+ what)) (Some what).

Definition Error (what : string) : Err :=
  mkErr (Some ("Error: " +:+ what)) (Some what).

(** ** The population computed from the configuration *)

Module Population.
Definition serversCount (cfg : Config) : nat :=
  length (ports cfg) + (if balancer cfg then 1 else 0).
Definition schedulerCount : nat := 1.
Definition schedulerId (cfg : Config) : nat := serversCount cfg.
Definition poolSize (cfg : Config) : nat :=
  match workers_pool cfg with
  | Some (S n) => S n
  | _ => 0
  end.
Definition count (cfg : Config) : nat :=
  serversCount cfg + schedulerCount + poolSize cfg.
End Population.

(** ** Module-level functions *)

Definition default_message : string := "Can not start Application server".

(** [exit(message)] *)
Definition exit (message : string) (st : State) : State :=
  let st := emit (ConsoleError (replace message (PATH st) "")) st in
  if logger st then
    let '(p, st) := promise LoggerClose st in
    await p KExit st
  else process_exit 1 st.

(** [logError(type)(err)] *)
Definition logError (type : string) (err : Err) (st : State) : State :=
  let msg := or_default (stack err) (or_default (message err) "no stack trace") in
  let st := emit (ConsoleError (type +:+ " error: " +:+ msg)) st in
  if finalization st then st
  else if initialization st then exit default_message st
  else st.

(** ** The main function: [stop], [start] and the listeners *)

(** The loop of [stop]: [false] when a hole of [threads] made
    [worker.postMessage] throw. *)
Fixpoint post_stop (ws : list (option Handle)) (st : State) : bool * State :=
  match ws with
  | [] => (true, st)
  | Some worker :: ws' =>
      post_stop ws' (emit (PostMessage worker (MEvent "stop") []) st)
  | None :: _ => (false, st)
  end.

(** [stop()]; a throw inside it rejects the promise nobody holds, which the
    process reports as an unhandled rejection. *)
Definition stop (st : State) : State :=
  let st := set_finalization true st in
  if logger st then
    let '(closing, st) := promise LoggerClose st in
    let '(ok, st) := post_stop (threads st) st in
    if ok then await closing KStop st
    else logError "unhandledRejection" (TypeError "worker is undefined") st
  else logError "unhandledRejection" (TypeError "logger is null") st.

(** [start(id)] up to the registration of the listeners; the listeners of
    the new worker are [on_exit id], [on_online id] and [on_message]. *)
Definition start (id : nat) (st : State) : State :=
  let worker : Handle := length (workers st) in
  let st := set_workers (workers st ++ [id]) (emit (NewWorker id worker) st) in
  let st := set_threads (array_set id worker (threads st)) st in
  if (id =? schedulerId st)%nat then set_scheduler (Some worker) st
  else if (schedulerId st <? id)%nat then
    set_poolItems (poolItems st ++ [worker]) (emit (PoolAdd worker) st)
  else st.

(** [worker.on('exit', (code) => ...)] *)
Definition on_exit (id : nat) (code : Z) (st : State) : State :=
  let st := set_active (active st - 1)%Z st in
  if negb (code =? 0)%Z then start id st
  else if (active st =? 0)%Z then process_exit 0 st
  else if (active st <? 0)%Z && (id =? 0)%nat then exit "Application server stopped" st
  else st.

(** The callback given to [setTimeout] by the listener of slot [id]. *)
Definition on_timeout (id : nat) (st : State) : State :=
  if negb (active st =? Z.of_nat (count st))%Z then
    emit (ConsoleWarn ("Worker " +:+ string_of_nat id +:+ " initialization timeout")) st
  else st.

(** [worker.on('online', () => ...)] *)
Definition on_online (id : nat) (st : State) : State :=
  let st := set_starting (starting st + 1)%Z st in
  if (starting st =? Z.of_nat (count st))%Z then
    let t := nextTimer st in
    let st := set_nextTimer (S t) (emit (SetTimeout t id (timeoutStart st)) st) in
    set_startTimer (Some t) (set_timers (<[t := id]> (timers st)) st)
  else st.

(** The pool of [metautil], as far as the script drives it. *)
Module Pool.
(** [pool.release(item)]: the pool throws when [item] is not one of its
    items and when it is an item that is not captured; else the item is
    free again. *)
Definition release (item : Handle) (st : State) : option Err * State :=
  let st := emit (PoolRelease item) st in
  if negb (bool_decide (item ∈ poolItems st)) then
    (Some (Error "Pool: release unexpected item"), st)
  else if negb (bool_decide (item ∈ captured st)) then
    (Some (Error "Pool: release not captured"), st)
  else
    (None, set_captured (filter (fun w => w <> item) (captured st)) st).

(** What the pool has done when a promise of [exclusive ? pool.capture() :
    pool.next()] is settled: [capture()] has marked the worker it is
    fulfilled with, [next()] marks nothing. *)
Definition settled (exclusive : bool) (o : Outcome) (st : State) : State :=
  match o with
  | Fulfilled (Some item) =>
      if exclusive then set_captured (item :: captured st) st else st
  | _ => st
  end.
End Pool.

Module ITC.
(** [ITC.event] *)
Definition event (name : string) (st : State) : State :=
  if negb (String.eqb name "started") then st
  else
    let st := set_active (active st + 1)%Z st in
    match startTimer st with
    | Some t =>
        if (active st =? Z.of_nat (count st))%Z then
          set_startTimer None
            (set_timers (delete t (timers st)) (emit (ClearTimeout t) st))
        else st
    | None => st
    end.

(** [ITC.task]; [scheduler.postMessage] on [null] throws inside the
    listener, an uncaught exception. *)
Definition task (msg : Msg) (port : option Port) (st : State) : State :=
  match scheduler st with
  | Some s => emit (PostMessage s msg (option_list port)) st
  | None => logError "uncaughtException" (TypeError "scheduler is null") st
  end.

(** [ITC.invoke] up to its [await].  A throw of [pool.release] rejects the
    promise of the listener, which nobody holds: an unhandled rejection. *)
Definition invoke (worker : Handle) (msg : Msg)
           (name : string) (exclusive : bool) (st : State) : State :=
  if String.eqb name "done" then
    if exclusive then
      match Pool.release worker st with
      | (Some e, st) => logError "unhandledRejection" e st
      | (None, st) => st
      end
    else st
  else if negb (String.eqb name "request") then st
  else
    let '(promisedThread, st) :=
      promise (if exclusive then PoolCapture else PoolNext) st in
    await promisedThread (KInvoke msg) st.

(** [ITC.invoke] after its [await]: the [catch] turns a rejection into a
    reply on the port and [null]. *)
Definition invoke_resume (msg : Msg) (port : Port) (o : Outcome)
           (st : State) : State :=
  let '(next, st) :=
    match o with
    | Fulfilled v => (v, st)
    | Rejected _ => (None, emit (PortPostError port "No thread available") st)
    end in
  match next with
  | None => st
  | Some next => emit (PostMessage next msg [port]) st
  end.
End ITC.

(** [worker.on('message', (msg) => ...)]: dispatch on [msg.type]. *)
Definition on_message (worker : Handle) (msg : Msg) (st : State) : State :=
  match msg with
  | MEvent name => ITC.event name st
  | MTask _ port => ITC.task msg port st
  | MInvoke name _ exclusive _ => ITC.invoke worker msg name exclusive st
  | MOther _ => st
  end.

(** The synchronous tail of the main function, after [validateConfig]. *)
Definition boot (cfg : Config) (st : State) : State :=
  let st :=
    {| PATH := PATH st; logger := logger st; finalization := finalization st;
       initialization := initialization st;
       count := Population.count cfg;
       schedulerId := Population.schedulerId cfg;
       timeoutStart := timeouts_start cfg;
       startTimer := None; active := 0; starting := 0; scheduler := None;
       threads := replicate (Population.count cfg) None;
       poolItems := []; captured := []; workers := workers st;
       timers := timers st;
       nextTimer := nextTimer st; awaiting := awaiting st;
       nextPromise := nextPromise st; exited := exited st; log := log st |} in
  let st := foldl (fun st id => start id st) st (seq 0 (count st)) in
  set_initialization false st.

(** A settled promise resumes the function that awaits it. *)
Definition resume (k : Cont) (o : Outcome) (st : State) : State :=
  match k with
  | KExit =>
      match o with
      | Fulfilled _ => process_exit 1 st
      | Rejected e => logError "unhandledRejection" e st
      end
  | KStop =>
      match o with
      | Fulfilled _ => st
      | Rejected e => logError "unhandledRejection" e st
      end
  | KInvoke msg =>
      match msg with
      | MInvoke _ port exclusive _ =>
          ITC.invoke_resume msg port o (Pool.settled exclusive o st)
      | _ => st
      end
  end.

(** ** The event loop *)

Definition step (st : State) (ev : Event) : State :=
  match exited st with
  | Some _ => st
  | None =>
      match ev with
      | EvLoggerCreated =>
          if initialization st then set_logger true st else st
      | EvBoot cfg =>
          if initialization st && logger st then boot cfg st else st
      | EvError type e => logError type e st
      | EvStop => if initialization st then st else stop st
      | EvExit worker code =>
          match workers st !! worker with
          | Some id => on_exit id code st
          | None => st
          end
      | EvOnline worker =>
          match workers st !! worker with
          | Some id => on_online id st
          | None => st
          end
      | EvMessage worker msg =>
          match workers st !! worker with
          | Some _ => on_message worker msg st
          | None => st
          end
      | EvTimeout t =>
          match timers st !! t with
          | Some id => on_timeout id (set_timers (delete t (timers st)) st)
          | None => st
          end
      | EvSettle p o =>
          match awaiting st !! p with
          | Some k => resume k o (set_awaiting (delete p (awaiting st)) st)
          | None => st
          end
      end
  end.

Definition run (st : State) (evs : list Event) : State := foldl step st evs.

(** The state when the script has been loaded and the main function has not
    yet awaited the logger. *)
Definition init (cwd : string) : State :=
  {| PATH := cwd; logger := false; finalization := false;
     initialization := true; count := 0; schedulerId := 0; timeoutStart := 0;
     startTimer := None; active := 0; starting := 0; scheduler := None;
     threads := []; poolItems := []; captured := []; workers := [];
     timers := ∅;
     nextTimer := 0; awaiting := ∅; nextPromise := 0; exited := None;
     log := [] |}.

Definition reachable (st : State) : Prop :=
  exists cwd evs, st = run (init cwd) evs.

(** ** Auxiliary definitions of the proofs *)

(** The effects of [start id] when the worker created is [worker]. *)
Definition start_effects (sid worker id : nat) : list Effect :=
  NewWorker id worker ::
  (if (sid <? id)%nat then [PoolAdd worker] else []).

Definition boot_effects (sid base : nat) (ids : list nat) : list Effect :=
  flat_map (fun id => start_effects sid (base + id) id) ids.

(** The state after the first [n] iterations of the loop of [boot]. *)
Definition booting (cfg : Config) (st : State) (n : nat) : State :=
  let base := length (workers st) in
  let sid := Population.schedulerId cfg in
  {| PATH := PATH st; logger := logger st; finalization := finalization st;
     initialization := initialization st;
     count := Population.count cfg;
     schedulerId := sid;
     timeoutStart := timeouts_start cfg;
     startTimer := None; active := 0; starting := 0;
     scheduler := if (sid <? n)%nat then Some (base + sid) else None;
     threads := (Some <$> seq base n) ++ replicate (Population.count cfg - n) None;
     poolItems := seq (base + S sid) (n - S sid); captured := [];
     workers := workers st ++ seq 0 n; timers := timers st;
     nextTimer := nextTimer st; awaiting := awaiting st;
     nextPromise := nextPromise st; exited := exited st;
     log := log st ++ boot_effects sid base (seq 0 n) |}.

(** The identifiers of the workers created by a run of effects, in order. *)
Definition spawned (es : list Effect) : list nat :=
  omap (fun e => match e with NewWorker id _ => Some id | _ => None end) es.

(** The line [logError(type)] prints for [err]. *)
Definition error_line (type : string) (err : Err) : Effect :=
  ConsoleError
    (type +:+ " error: " +:+
     or_default (stack err) (or_default (message err) "no stack trace")).

(** The line [exit()] prints when called without a message. *)
Definition fatal_line (st : State) : Effect :=
  ConsoleError (replace default_message (PATH st) "").

(** [keeps st st']: the step from [st] to [st'] resumed or dropped no
    function suspended in [st], and the promises it made are new. *)
Record keeps (st st' : State) : Prop := mk_keeps {
  keeps_next : nextPromise st <= nextPromise st';
  keeps_awaiting :
    forall p k, p < nextPromise st -> awaiting st !! p = Some k ->
                awaiting st' !! p = Some k
}.

(** Whether one of the events settles the promise [p]. *)
Definition settles (p : Promise) (evs : list Event) : bool :=
  existsb (fun ev => match ev with
                     | EvSettle q _ => (p =? q)%nat
                     | _ => false
                     end) evs.

(** Whether [ev] is the exit of a worker of slot [id]. *)
Definition exit_at (id : nat) (st : State) (ev : Event) : bool :=
  match ev with
  | EvExit w _ => bool_decide (workers st !! w = Some id)
  | _ => false
  end.

(** No worker of slot [id] exits in the course of [evs]. *)
Fixpoint no_exit_at (id : nat) (st : State) (evs : list Event) : bool :=
  match evs with
  | [] => true
  | ev :: evs' => negb (exit_at id st ev) && no_exit_at id (step st ev) evs'
  end.

(** The workers whose exit is among the events [evs], in order.  A worker
    thread exits once: in the runs the process can see, no worker is there
    twice. *)
Definition exits (evs : list Event) : list Handle :=
  omap (fun ev => match ev with EvExit w _ => Some w | _ => None end) evs.

(** [latest st xs]: every worker but those of [xs] is the one [threads]
    holds for its slot. *)
Definition latest (st : State) (xs : list Handle) : Prop :=
  forall w id, workers st !! w = Some id -> w ∉ xs ->
               threads st !! id = Some (Some w).

(** The number of workers a run of effects created for slot [id]. *)
Definition created (id : nat) (es : list Effect) : nat :=
  count_occ Nat.eq_dec (spawned es) id.

(** The text of the warning of the startup deadline armed by slot [id]. *)
Definition timeout_warning (id : nat) : string :=
  "Worker " +:+ string_of_nat id +:+ " initialization timeout".

(** *** The life of the workers

    The script keeps no record of what each worker has done; the record
    below is kept beside the state to say which sequences of events worker
    threads can produce. *)
Record Lives := mkLives {
  onlined : list Handle;
  started : list Handle;
  gone : list Handle
}.

Definition born : Lives := mkLives [] [] [].

(** A worker comes online once, reports [started] once and not after its
    exit, and exits once, after it has reported [started]. *)
Definition allowed (st : State) (lv : Lives) (ev : Event) : bool :=
  match exited st with
  | Some _ => true
  | None =>
      match ev with
      | EvOnline w => bool_decide (w ∉ onlined lv)
      | EvMessage w (MEvent name) =>
          negb (name =? "started")%string
          || bool_decide ((w ∉ started lv) /\ (w ∉ gone lv))
      | EvExit w _ => bool_decide ((w ∈ started lv) /\ (w ∉ gone lv))
      | _ => true
      end
  end.

(** The record after [ev]; events of workers that do not exist, and events
    after the end of the process, are not delivered. *)
Definition record (st : State) (lv : Lives) (ev : Event) : Lives :=
  match exited st with
  | Some _ => lv
  | None =>
      match ev with
      | EvOnline w =>
          match workers st !! w with
          | Some _ => mkLives (w :: onlined lv) (started lv) (gone lv)
          | None => lv
          end
      | EvMessage w (MEvent name) =>
          match workers st !! w with
          | Some _ =>
              if (name =? "started")%string
              then mkLives (onlined lv) (w :: started lv) (gone lv)
              else lv
          | None => lv
          end
      | EvExit w _ =>
          match workers st !! w with
          | Some _ => mkLives (onlined lv) (started lv) (w :: gone lv)
          | None => lv
          end
      | _ => lv
      end
  end.

Fixpoint conforms (st : State) (lv : Lives) (evs : list Event) : bool :=
  match evs with
  | [] => true
  | ev :: evs' =>
      allowed st lv ev && conforms (step st ev) (record st lv ev) evs'
  end.

(** The workers that have reported [started] and have not exited. *)
Definition running (lv : Lives) : list Handle :=
  filter (fun w => w ∉ gone lv) (started lv).

(** How the record and the state agree. *)
Record tracked (st : State) (lv : Lives) : Prop := mk_tracked {
  tracked_active : active st = Z.of_nat (length (running lv));
  tracked_started : NoDup (started lv);
  tracked_exist : forall w, w ∈ started lv -> w < length (workers st);
  tracked_slot :
    forall w id, workers st !! w = Some id -> w ∉ gone lv ->
                 threads st !! id = Some (Some w);
  tracked_starting : starting st = Z.of_nat (length (onlined lv));
  tracked_onlined : NoDup (onlined lv);
  tracked_online_exist : forall w, w ∈ onlined lv -> w < length (workers st)
}.

(** The messages [stop] posts to the workers [ws]. *)
Definition stop_messages (ws : list Handle) : list Effect :=
  (fun w => PostMessage w (MEvent "stop") []) <$> ws.

(** The texts given to [console.warn] by a run of effects, in order. *)
Definition warnings (es : list Effect) : list string :=
  omap (fun e => match e with ConsoleWarn s => Some s | _ => None end) es.

(** An effect that is neither a warning nor a new worker. *)
Definition plain (e : Effect) : Prop :=
  match e with
  | ConsoleWarn _ | NewWorker _ _ => False
  | _ => True
  end.

(** [frame st st']: the step from [st] to [st'] left the variables of the
    main function, the workers and the timers alone, created no worker and
    warned of nothing. *)
Record frame (st st' : State) : Prop := mk_frame {
  frame_PATH : PATH st' = PATH st;
  frame_logger : logger st' = logger st;
  frame_initialization : initialization st' = initialization st;
  frame_finalization :
    initialization st = true -> finalization st' = finalization st;
  frame_count : count st' = count st;
  frame_schedulerId : schedulerId st' = schedulerId st;
  frame_startTimer : startTimer st' = startTimer st;
  frame_active : active st' = active st;
  frame_starting : starting st' = starting st;
  frame_scheduler : scheduler st' = scheduler st;
  frame_threads : threads st' = threads st;
  frame_poolItems : poolItems st' = poolItems st;
  frame_workers : workers st' = workers st;
  frame_timers : timers st' = timers st;
  frame_nextTimer : nextTimer st' = nextTimer st;
  frame_warnings : warnings (log st') = warnings (log st);
  frame_spawned : spawned (log st') = spawned (log st)
}.

(** The invariant of the states the event loop reaches. *)
Record wf (st : State) : Prop := mk_wf {
  wf_pre :
    initialization st = true ->
    workers st = [] /\ finalization st = false /\ timers st = ∅
    /\ startTimer st = None /\ warnings (log st) = [];
  wf_booted :
    initialization st = false ->
    logger st = true /\ length (threads st) = count st
    /\ schedulerId st < count st;
  wf_full : Forall is_Some (threads st);
  wf_slots : forall w id, workers st !! w = Some id -> id < count st;
  wf_pool :
    forall w id, workers st !! w = Some id -> schedulerId st < id ->
                 w ∈ poolItems st;
  wf_idle :
    (starting st < Z.of_nat (count st))%Z ->
    timers st = ∅ /\ startTimer st = None /\ warnings (log st) = [];
  wf_armed :
    forall t id, timers st !! t = Some id ->
                 timers st = {[t := id]} /\ startTimer st = Some t
                 /\ warnings (log st) = [];
  wf_warned : length (warnings (log st)) <= 1
}.

(** ** Sample configurations and runs *)

(** One server port and one pool worker: slot 0 serves, slot 1 schedules,
    slot 2 is in the pool. *)
Definition one_port_one_pool : Config := mkConfig false [8000%Z] (Some 1) None 1000.

(** One server port and no pool: slots 0 and 1. *)
Definition one_port : Config := mkConfig false [8000%Z] None None 1000.

(** No port, no balancer, no pool: the scheduler alone, in slot 0. *)
Definition scheduler_only : Config := mkConfig false [] None None 1000.

(** The state when the main function has returned. *)
Definition up (cfg : Config) : State :=
  run (init "/srv/app") [EvLoggerCreated; EvBoot cfg].

(** A run in which every worker keeps to its life: two workers start,
    that of slot 1 crashes and is replaced, that of slot 0 leaves. *)
Definition orderly_run : list Event :=
  [EvLoggerCreated; EvBoot one_port;
   EvOnline 0; EvOnline 1;
   EvMessage 0 (MEvent "started"); EvMessage 1 (MEvent "started");
   EvExit 1 7; EvOnline 2; EvMessage 2 (MEvent "started");
   EvExit 0 0].

(** All three workers of [one_port_one_pool] have started. *)
Definition all_started : State :=
  run (up one_port_one_pool)
    [EvMessage 0 (MEvent "started"); EvMessage 1 (MEvent "started");
     EvMessage 2 (MEvent "started")].

(** The main function is waiting for the configuration to be validated. *)
Definition starting_up : State := run (init "/srv/app") [EvLoggerCreated].

(** The first of the two workers of [one_port] is online. *)
Definition one_online : State := run (up one_port) [EvOnline 0].

Definition boom : Err := mkErr (Some "Error: boom") (Some "boom").

Definition request7 : Msg := MInvoke "request" 7 true 0.
Definition done7 : Msg := MInvoke "done" 7 true 0.

(** Worker 0 has asked for an exclusive worker and the pool has given it
    worker 2. *)
Definition granted7 : State :=
  run (up one_port_one_pool)
    [EvMessage 0 request7; EvSettle 0 (Fulfilled (Some 2))].

Close Scope string_scope.

(** ** Tactics *)

(** Reduction of the projections of a state built by the setters. *)
Ltac st_simpl :=
  cbn [PATH logger finalization initialization count schedulerId timeoutStart
       startTimer active starting scheduler threads poolItems captured
       workers timers nextTimer awaiting nextPromise exited log
       set_logger set_finalization set_initialization set_startTimer
       set_active set_starting set_scheduler set_threads set_poolItems
       set_captured set_workers set_timers set_nextTimer set_awaiting
       set_nextPromise set_exited set_log emit process_exit promise await
       fst snd].

Tactic Notation "st_simpl" "in" hyp(H) :=
  cbn [PATH logger finalization initialization count schedulerId timeoutStart
       startTimer active starting scheduler threads poolItems captured
       workers timers nextTimer awaiting nextPromise exited log
       set_logger set_finalization set_initialization set_startTimer
       set_active set_starting set_scheduler set_threads set_poolItems
       set_captured set_workers set_timers set_nextTimer set_awaiting
       set_nextPromise set_exited set_log emit process_exit promise await
       fst snd] in H.

(** Normalisation of a state built by the setters from a record. *)
Ltac st_norm :=
  cbv beta iota zeta delta
    [PATH logger finalization initialization count schedulerId timeoutStart
     startTimer active starting scheduler threads poolItems captured
     workers timers nextTimer awaiting nextPromise exited log
     set_logger set_finalization set_initialization set_startTimer
     set_active set_starting set_scheduler set_threads set_poolItems
     set_captured set_workers set_timers set_nextTimer set_awaiting
     set_nextPromise set_exited set_log emit process_exit promise await
     fst snd].

(** Case analysis on the tests of the listeners. *)
Ltac split_tests :=
  repeat match goal with
    | |- context [if negb ?b then _ else _] => destruct b eqn:?; cbn [negb]
    | |- context [if (?a && ?b)%bool then _ else _] =>
        destruct a eqn:?; cbn [andb]
    | |- context [if ?b then _ else _] => destruct b eqn:?
    | |- context [match ?x with Some _ => _ | None => _ end] => destruct x eqn:?
    end.

Ltac tests_to_props :=
  repeat match goal with
    | H : (_ =? _)%Z = true |- _ => apply Z.eqb_eq in H
    | H : (_ =? _)%Z = false |- _ => apply Z.eqb_neq in H
    | H : (_ <? _)%Z = true |- _ => apply Z.ltb_lt in H
    | H : (_ <? _)%Z = false |- _ => apply Z.ltb_ge in H
    | H : (_ =? _)%nat = true |- _ => apply Nat.eqb_eq in H
    | H : (_ =? _)%nat = false |- _ => apply Nat.eqb_neq in H
    | H : (_ <? _)%nat = true |- _ => apply Nat.ltb_lt in H
    | H : (_ <? _)%nat = false |- _ => apply Nat.ltb_ge in H
    end.


(** ** The rest of the main function *)

Open Scope string_scope.

Definition CONFIG_SECTIONS : list string := ["log"; "scale"; "server"; "sessions"].

(** What [schema.check(config[section])] returns, as far as it is read. *)
Record CheckResult := mkCheckResult { valid : bool; errors : list string }.

(** The lines [validateConfig] prints for a section that is not valid. *)
Definition section_lines (section : string) (errs : list string) : list Effect :=
  (fun err => ConsoleError (err +:+ " in application/config/" +:+ section +:+ ".js"))
    <$> errs.

(** The loop of [validateConfig] over the sections left, [ok] being the
    local [valid].  [check section] is the outcome of loading the schema of
    the section and checking the configuration against it: a rejection of
    [loadSchema] ends the loop and rejects the function. *)
Fixpoint validate_loop (check : string -> Err + CheckResult)
         (sections : list string) (ok : bool) (st : State)
  : (Err + bool) * State :=
  match sections with
  | [] => (inr ok, st)
  | section :: rest =>
      match check section with
      | inl e => (inl e, st)
      | inr checkResult =>
          if valid checkResult then validate_loop check rest ok st
          else
            validate_loop check rest false
              (foldl (fun st e => emit e st) st
                     (section_lines section (errors checkResult)))
      end
  end.

(** [validateConfig(config)]: the error it rejects with, if any, and the
    state it leaves.  [exit()] is called and not awaited.  The function is
    followed from its call to its return with no other event in between:
    it reads no variable another listener writes. *)
Definition validateConfig (check : string -> Err + CheckResult) (st : State)
  : option Err * State :=
  match validate_loop check CONFIG_SECTIONS true st with
  | (inl e, st) => (Some e, st)
  | (inr ok, st) => (None, if ok then st else exit default_message st)
  end.

(** The main function from [await validateConfig(config)] to its end, when
    it resumes as soon as [validateConfig] has returned; a rejection goes
    to [.catch(logError('initialization'))]. *)
Definition main_tail (check : string -> Err + CheckResult) (cfg : Config)
           (st : State) : State :=
  match validateConfig check st with
  | (Some e, st) => logError "initialization" e st
  | (None, st) =>
      match exited st with
      | Some _ => st
      | None => boot cfg st
      end
  end.

(** *** Sample answers of the schemas *)

(** The sections [scale] and [server] are not valid. *)
Definition two_fail : string -> Err + CheckResult :=
  fun section =>
    if String.eqb section "scale" then
      inr (mkCheckResult false ["Field 'instance' is required"])
    else if String.eqb section "server" then
      inr (mkCheckResult false ["Field 'ports' is not an array";
                                "Field 'timeouts' is required"])
    else inr (mkCheckResult true []).

(** [scale] is not valid and the schema of [server] does not load. *)
Definition no_schema : string -> Err + CheckResult :=
  fun section =>
    if String.eqb section "scale" then
      inr (mkCheckResult false ["Field 'instance' is required"])
    else if String.eqb section "server" then
      inl (mkErr (Some "Error: ENOENT") (Some "ENOENT"))
    else inr (mkCheckResult true []).

Close Scope string_scope.

(** Whether every schema loads, whether every section is valid, and the
    lines printed for the sections that are not, for the answers [check]. *)
Definition loads (check : string -> Err + CheckResult) (section : string) : bool :=
  match check section with
  | inr _ => true
  | inl _ => false
  end.

Definition passes (check : string -> Err + CheckResult) (section : string) : bool :=
  match check section with
  | inr checkResult => valid checkResult
  | inl _ => false
  end.

Definition report (check : string -> Err + CheckResult) (section : string)
  : list Effect :=
  match check section with
  | inr checkResult =>
      if valid checkResult then []
      else section_lines section (errors checkResult)
  | inl _ => []
  end.

Definition emit_all (es : list Effect) (st : State) : State :=
  foldl (fun st e => emit e st) st es.

(** The sections before the first whose schema does not load, and the error
    of that one. *)
Fixpoint loaded (check : string -> Err + CheckResult) (sections : list string)
  : list string :=
  match sections with
  | [] => []
  | section :: rest =>
      if loads check section then section :: loaded check rest else []
  end.

Fixpoint load_error (check : string -> Err + CheckResult) (sections : list string)
  : option Err :=
  match sections with
  | [] => None
  | section :: rest =>
      match check section with
      | inl e => Some e
      | inr _ => load_error check rest
      end
  end.

(** ** Further definitions of the proofs *)

(** The effects of the functions that only print, post, await or end the
    process. *)
Definition routine (e : Effect) : Prop :=
  match e with
  | ConsoleError _ | LoggerClose _ | PoolRelease _ | PoolCapture _
  | PoolNext _ | PostMessage _ _ _ | PortPostError _ _ | ProcessExit _ => True
  | _ => False
  end.

(** [mild st st']: the step added routine effects to the log, did not
    clear [finalization], and ended the process, if at all, with code 1. *)
Record mild (st st' : State) : Prop := mk_mild {
  mild_log : exists new, log st' = log st ++ new /\ Forall routine new;
  mild_finalization : finalization st = true -> finalization st' = true;
  mild_exited : exited st' = exited st \/ exited st' = Some 1%Z
}.

(** Whether [ev] is the exit of a worker. *)
Definition leaving (ev : Event) : bool :=
  match ev with
  | EvExit _ _ => true
  | _ => false
  end.

(** [calm st]: the shutdown has begun, the process runs, and no call of
    [exit()] waits for the logger. *)
Record calm (st : State) : Prop := mk_calm {
  calm_finalization : finalization st = true;
  calm_initialization : initialization st = false;
  calm_exited : exited st = None;
  calm_awaiting : forall p, awaiting st !! p <> Some KExit
}.

(** The number of calls of [setTimeout] in a run of effects. *)
Definition armed (es : list Effect) : nat :=
  length (omap (fun e => match e with SetTimeout t _ _ => Some t | _ => None end) es).

(** The exit events, with code 0, of the workers [ws] in turn. *)
Definition leave (ws : list Handle) : list Event :=
  (fun w => EvExit w 0%Z) <$> ws.

(** The worker [w] exits with the first code; the worker created in its
    place, which is [next], exits with the second; and so on. *)
Fixpoint crashes (w next : Handle) (codes : list Z) : list Event :=
  match codes with
  | [] => []
  | code :: codes' => EvExit w code :: crashes next (S next) codes'
  end.

(** The record of the lives of the workers after the events [evs]. *)
Fixpoint lives (st : State) (lv : Lives) (evs : list Event) : Lives :=
  match evs with
  | [] => lv
  | ev :: evs' => lives (step st ev) (record st lv ev) evs'
  end.

(** Further invariants of the states the event loop reaches. *)
Record wf_more (st : State) : Prop := mk_wf_more {
  more_scheduler :
    initialization st = false ->
    exists w, scheduler st = Some w
              /\ threads st !! schedulerId st = Some (Some w);
  more_logged : spawned (log st) = workers st;
  more_latest :
    forall id w, threads st !! id = Some (Some w) ->
                 workers st !! w = Some id
                 /\ forall w', workers st !! w' = Some id -> w' <= w;
  more_pool :
    forall w, w ∈ poolItems st ->
              exists id, workers st !! w = Some id /\ schedulerId st < id;
  more_pool_NoDup : NoDup (poolItems st);
  more_armed :
    armed (log st)
    = if initialization st then 0
      else if (starting st <? Z.of_nat (count st))%Z then 0 else 1;
  more_exited :
    forall code, exited st = Some code ->
                 (code = 0%Z /\ active st = 0%Z /\ initialization st = false)
                 \/ code = 1%Z
}.

(** ** What [boot] builds *)

Lemma start_booting cfg st n :
  n < Population.count cfg ->
  start n (booting cfg st n) = booting cfg st (S n).
Proof.
  intros Hn. destruct st as [P lg fin ini c0 s0 t0 sT a0 sg sc th pI cp ws tm nT aw nP ex lo].
  unfold start, booting. st_norm.
  set (base := length ws). set (sid := Population.schedulerId cfg).
  assert (Hw : length (ws ++ seq 0 n) = base + n).
  { rewrite length_app, length_seq. reflexivity. }
  rewrite !Hw.
  assert (Ht : array_set n (base + n)
                 ((Some <$> seq base n) ++ replicate (Population.count cfg - n) None)
               = (Some <$> seq base (S n)) ++ replicate (Population.count cfg - S n) None).
  { unfold array_set.
    rewrite length_app, length_fmap, length_seq, length_replicate.
    destruct (Nat.ltb_spec n (n + (Population.count cfg - n))) as [_|?]; [|lia].
    replace (Population.count cfg - n) with (S (Population.count cfg - S n)) by lia.
    cbn [replicate].
    replace n with (length (Some <$> seq base n) + 0) at 1
      by (rewrite length_fmap, length_seq; lia).
    rewrite insert_app_r, seq_S, fmap_app, <- app_assoc. reflexivity. }
  rewrite Ht. clear Ht Hw.
  unfold boot_effects.
  rewrite !(seq_S n 0), flat_map_app. cbn [flat_map]. rewrite app_nil_r.
  destruct (Nat.eqb_spec n sid) as [Heq|Hne];
    [|destruct (Nat.ltb_spec sid n) as [Hlt|Hge]];
    destruct (Nat.ltb_spec sid (S n)); try lia;
    f_equal; rewrite <- ?app_assoc; try reflexivity.
  all: try (f_equal; lia).
  all: try (do 2 f_equal; unfold start_effects; cbn [Nat.add];
            destruct (Nat.ltb_spec sid n); try lia; reflexivity).
  all: try (replace (S n - S sid) with 0 by lia; replace (n - S sid) with 0 by lia;
            reflexivity).
  all: try (replace (S n - S sid) with (S (n - S sid)) by lia;
            rewrite (seq_S (n - S sid)); do 2 f_equal; lia).
  all: fail.
Qed.

Lemma foldl_start_booting cfg st n :
  n <= Population.count cfg ->
  foldl (fun st id => start id st) (booting cfg st 0) (seq 0 n) = booting cfg st n.
Proof.
  induction n as [|n IH]; intros Hn; [reflexivity|].
  rewrite seq_S, foldl_app; cbn [foldl]. rewrite IH by lia.
  apply start_booting. lia.
Qed.

Lemma boot_booting cfg st :
  boot cfg st = set_initialization false (booting cfg st (Population.count cfg)).
Proof.
  unfold boot. cbn [count].
  rewrite <- (foldl_start_booting cfg st (Population.count cfg)) by lia.
  do 2 f_equal. unfold booting, boot_effects. cbn [seq flat_map].
  rewrite !app_nil_r, Nat.sub_0_r.
  destruct (Population.schedulerId cfg); reflexivity.
Qed.

Lemma spawned_app es1 es2 : spawned (es1 ++ es2) = spawned es1 ++ spawned es2.
Proof. apply omap_app. Qed.

Lemma spawned_boot_effects sid base ids :
  spawned (boot_effects sid base ids) = ids.
Proof.
  unfold boot_effects.
  induction ids as [|id ids IH]; [reflexivity|].
  cbn [flat_map]. rewrite spawned_app, IH.
  unfold start_effects. destruct (sid <? id)%nat; reflexivity.
Qed.

Lemma schedulerId_lt_count cfg : Population.schedulerId cfg < Population.count cfg.
Proof. unfold Population.count, Population.schedulerId, Population.schedulerCount. lia. Qed.

Lemma poolSize_default cfg : Population.poolSize cfg = default 0 (workers_pool cfg).
Proof. unfold Population.poolSize. destruct (workers_pool cfg) as [[|n]|]; reflexivity. Qed.

Lemma NewWorker_in_boot_effects sid base ids id w :
  NewWorker id w ∈ boot_effects sid base ids <->
  id ∈ ids /\ w = base + id.
Proof.
  unfold boot_effects.
  induction ids as [|i ids IH]; cbn [flat_map].
  - split; [intros H; inversion H | intros [H _]; inversion H].
  - rewrite elem_of_app, IH, elem_of_cons. unfold start_effects.
    split.
    + intros [H|[H1 H2]]; [|tauto].
      apply elem_of_cons in H as [H|H]; [inversion H; subst; tauto|].
      destruct (sid <? i)%nat; [|inversion H].
      apply elem_of_cons in H as [H|H]; [discriminate|inversion H].
    + intros [[->|H] ->]; [left; apply elem_of_cons; tauto | tauto].
Qed.

(** C5: [count] is [len(ports) + (balancer ? 1 : 0) + 1 + poolSize] and
    [schedulerId] is [serversCount]; the main function creates the workers
    of the slots [0 .. count-1] in ascending order, each once, so exactly
    one of them is slot [schedulerId], and that worker is the one stored in
    [scheduler]; the workers added to the pool are exactly those of the
    slots above [schedulerId]. *)
Theorem boot_population cfg st :
  let st' := boot cfg st in
  count st' = length (ports cfg) + (if balancer cfg then 1 else 0) + 1
              + default 0 (workers_pool cfg)
  /\ schedulerId st' = Population.serversCount cfg
  /\ exists new,
      log st' = log st ++ new
      /\ spawned new = seq 0 (count st')
      /\ NoDup (spawned new)
      /\ schedulerId st' ∈ spawned new
      /\ (exists w, scheduler st' = Some w
                    /\ NewWorker (schedulerId st') w ∈ new
                    /\ threads st' !! schedulerId st' = Some (Some w))
      /\ (forall w, w ∈ poolItems st' <->
                    exists id, schedulerId st' < id /\ NewWorker id w ∈ new)
      /\ (forall w, PoolAdd w ∈ new <-> w ∈ poolItems st').
Proof.
  intros st'. subst st'. rewrite boot_booting. unfold booting. st_simpl.
  set (base := length (workers st)). set (sid := Population.schedulerId cfg).
  set (c := Population.count cfg).
  assert (Hsid : sid < c) by apply schedulerId_lt_count.
  split; [|split; [reflexivity|]].
  { subst c. unfold Population.count, Population.serversCount,
      Population.schedulerCount. rewrite poolSize_default. reflexivity. }
  exists (boot_effects sid base (seq 0 c)).
  rewrite spawned_boot_effects.
  split; [reflexivity|]. split; [reflexivity|].
  split; [apply NoDup_seq|].
  split; [apply elem_of_seq; lia|].
  split; [|split].
  - exists (base + sid). rewrite (proj2 (Nat.ltb_lt sid c)) by lia.
    split; [reflexivity|]. split.
    + apply NewWorker_in_boot_effects. split; [apply elem_of_seq; lia | reflexivity].
    + rewrite lookup_app_l by (rewrite length_fmap, length_seq; lia).
      rewrite list_lookup_fmap, lookup_seq_lt by lia. reflexivity.
  - intros w. rewrite elem_of_seq. split.
    + intros Hw. exists (w - base). split; [lia|].
      apply NewWorker_in_boot_effects. rewrite elem_of_seq. lia.
    + intros (id & Hid & Hin). apply NewWorker_in_boot_effects in Hin as [Hin ->].
      apply elem_of_seq in Hin. lia.
  - intros w. rewrite elem_of_seq. split.
    + intros Hin. unfold boot_effects in Hin.
      apply list_elem_of_In, in_flat_map in Hin as (id & Hid & Hin).
      apply in_seq in Hid. unfold start_effects in Hin.
      destruct Hin as [Hin|Hin]; [discriminate|].
      destruct (Nat.ltb_spec sid id); [|destruct Hin].
      destruct Hin as [Hin|[]]. inversion Hin. lia.
    + intros Hw. unfold boot_effects.
      apply list_elem_of_In, in_flat_map. exists (w - base).
      split; [apply in_seq; lia|]. unfold start_effects. right.
      rewrite (proj2 (Nat.ltb_lt sid (w - base))) by lia.
      left. f_equal. lia.
Qed.


(** ** The listeners, one event at a time *)

Lemma array_set_lookup {A} i (v : A) l : array_set i v l !! i = Some (Some v).
Proof.
  unfold array_set. destruct (Nat.ltb_spec i (length l)).
  - apply list_lookup_insert_eq. assumption.
  - rewrite lookup_app_r by lia. rewrite lookup_app_r; rewrite length_replicate; [|lia].
    replace (i - length l - (i - length l)) with 0 by lia. reflexivity.
Qed.

Lemma array_set_length {A} i (v : A) l :
  i < length l -> length (array_set i v l) = length l.
Proof.
  intros H. unfold array_set. rewrite (proj2 (Nat.ltb_lt _ _) H). apply length_insert.
Qed.

Lemma array_set_lookup_ne {A} i j (v : A) l :
  i < length l -> i <> j -> array_set i v l !! j = l !! j.
Proof.
  intros H Hne. unfold array_set. rewrite (proj2 (Nat.ltb_lt _ _) H).
  apply list_lookup_insert_ne. assumption.
Qed.

Lemma spawned_snoc es e :
  spawned (es ++ [e]) =
  spawned es ++ match e with NewWorker id _ => [id] | _ => [] end.
Proof. rewrite spawned_app. destruct e; reflexivity. Qed.

(** C3: a worker of slot [id] exits with code [code].  [active] is
    decremented; a non-zero code creates exactly one worker, for slot [id],
    which takes the slot in [threads]; code 0 with [active] down to 0 ends
    the process with code 0; code 0 otherwise creates no worker, and does
    nothing at all unless [active < 0] and [id = 0]. *)
Theorem worker_exit st worker id code :
  exited st = None ->
  workers st !! worker = Some id ->
  let st' := step st (EvExit worker code) in
  active st' = (active st - 1)%Z
  /\ (code <> 0%Z ->
      spawned (log st') = spawned (log st) ++ [id]
      /\ workers st' = workers st ++ [id]
      /\ threads st' !! id = Some (Some (length (workers st)))
      /\ exited st' = None)
  /\ (code = 0%Z -> active st' = 0%Z ->
      exited st' = Some 0%Z
      /\ log st' = log st ++ [ProcessExit 0]
      /\ workers st' = workers st)
  /\ (code = 0%Z -> active st' <> 0%Z ->
      spawned (log st') = spawned (log st)
      /\ workers st' = workers st
      /\ threads st' = threads st
      /\ (~ ((active st' < 0)%Z /\ id = 0) -> st' = set_active (active st - 1) st)).
Proof.
  intros Hex Hw st'. subst st'. unfold step. rewrite Hex, Hw.
  assert (Hact : active (on_exit id code st) = (active st - 1)%Z).
  { unfold on_exit, start, exit. split_tests; reflexivity. }
  split; [exact Hact|]. rewrite Hact. clear Hact. unfold on_exit. st_simpl.
  split; [|split].
  - intros Hc. apply Z.eqb_neq in Hc. rewrite Hc. cbn [negb].
    unfold start. split_tests; st_simpl;
      rewrite ?spawned_snoc, <- ?app_assoc, ?app_nil_r, array_set_lookup; auto.
  - intros -> Ha. cbn [negb Z.eqb]. rewrite Ha. cbn [Z.eqb].
    st_simpl. auto.
  - intros -> Ha. cbn [negb Z.eqb].
    apply Z.eqb_neq in Ha. rewrite Ha.
    unfold exit. split_tests; st_simpl; rewrite ?spawned_snoc, ?app_nil_r;
      tests_to_props; repeat split; auto; intros Hn; exfalso; apply Hn; lia.
Qed.

(** ** Steps that only print, await or end the process *)

Lemma frame_refl st : frame st st.
Proof. split; reflexivity. Qed.

Lemma frame_trans st1 st2 st3 : frame st1 st2 -> frame st2 st3 -> frame st1 st3.
Proof.
  intros F1 F2.
  split;
    lazymatch goal with
    | |- _ = _ => etransitivity; [apply F2 | apply F1]
    | |- _ => idtac
    end.
  intros Hi. rewrite (frame_finalization _ _ F2), (frame_finalization _ _ F1); auto.
  rewrite (frame_initialization _ _ F1). assumption.
Qed.

Lemma warnings_snoc es e :
  warnings (es ++ [e]) =
  warnings es ++ match e with ConsoleWarn s => [s] | _ => [] end.
Proof. unfold warnings. rewrite omap_app. destruct e; reflexivity. Qed.

Lemma frame_emit e st : plain e -> frame st (emit e st).
Proof.
  intros He. split; try reflexivity; st_simpl.
  - rewrite warnings_snoc. destruct e; try destruct He; apply app_nil_r.
  - rewrite spawned_snoc. destruct e; try destruct He; apply app_nil_r.
Qed.

Lemma frame_process_exit code st : frame st (process_exit code st).
Proof.
  split; try reflexivity; st_simpl.
  - rewrite warnings_snoc. apply app_nil_r.
  - rewrite spawned_snoc. apply app_nil_r.
Qed.

Lemma frame_set_awaiting v st : frame st (set_awaiting v st).
Proof. split; reflexivity. Qed.

Lemma frame_set_finalization v st :
  initialization st = false -> frame st (set_finalization v st).
Proof. intros Hi. split; try reflexivity. congruence. Qed.

Lemma frame_promise mk st :
  (forall p, plain (mk p)) -> frame st (promise mk st).2.
Proof.
  intros Hmk. unfold promise. cbn [snd].
  eapply frame_trans; [apply (frame_emit (mk (nextPromise st))), Hmk|].
  split; reflexivity.
Qed.

Lemma frame_exit msg st : frame st (exit msg st).
Proof.
  unfold exit.
  eapply frame_trans; [eapply (frame_emit (ConsoleError _)); exact I|].
  st_simpl. destruct (logger st).
  - eapply frame_trans; [apply (frame_promise LoggerClose); intros; exact I|].
    apply frame_set_awaiting.
  - apply frame_process_exit.
Qed.

Lemma frame_logError type e st : frame st (logError type e st).
Proof.
  unfold logError.
  eapply frame_trans; [eapply (frame_emit (ConsoleError _)); exact I|].
  st_simpl. destruct (finalization st); [apply frame_refl|].
  destruct (initialization st); [apply frame_exit | apply frame_refl].
Qed.

Lemma frame_post_stop ws st : frame st (post_stop ws st).2.
Proof.
  revert st. induction ws as [|[w|] ws IH]; intros st; cbn [post_stop snd].
  - apply frame_refl.
  - eapply frame_trans; [eapply (frame_emit (PostMessage _ _ _)); exact I | apply IH].
  - apply frame_refl.
Qed.

Lemma frame_stop st : initialization st = false -> frame st (stop st).
Proof.
  intros Hi. unfold stop. st_simpl.
  destruct (logger st);
    [|eapply frame_trans;
      [apply (frame_set_finalization true), Hi | apply frame_logError]].
  match goal with
  | |- context [post_stop ?ws ?s] =>
      assert (F1 : frame st s);
      [|pose proof (frame_post_stop ws s) as F2;
        destruct (post_stop ws s) as [ok st2]]
  end.
  { eapply frame_trans; [apply (frame_set_finalization true), Hi|].
    eapply frame_trans; [eapply (frame_emit (LoggerClose _)); exact I|].
    split; reflexivity. }
  cbn [snd] in F2.
  eapply frame_trans; [exact F1|]. eapply frame_trans; [exact F2|].
  destruct ok; [apply frame_set_awaiting | apply frame_logError].
Qed.

Lemma frame_set_captured v st : frame st (set_captured v st).
Proof. split; reflexivity. Qed.

Lemma frame_settled exclusive o st : frame st (Pool.settled exclusive o st).
Proof.
  unfold Pool.settled. destruct o as [[item|]|e]; try apply frame_refl.
  destruct exclusive; [apply frame_set_captured | apply frame_refl].
Qed.

Lemma frame_release item st : frame st (Pool.release item st).2.
Proof.
  unfold Pool.release.
  eapply frame_trans; [eapply (frame_emit (PoolRelease _)); exact I|].
  st_simpl. split_tests; cbn [snd];
    first [apply frame_refl | apply frame_set_captured].
Qed.

Lemma frame_resume k o st : frame st (resume k o st).
Proof.
  destruct k as [| |msg]; cbn [resume].
  - destruct o; [apply frame_process_exit | apply frame_logError].
  - destruct o; [apply frame_refl | apply frame_logError].
  - destruct msg as [| |name port exclusive payload|]; try apply frame_refl.
    apply (frame_trans _ (Pool.settled exclusive o st)); [apply frame_settled|].
    unfold ITC.invoke_resume.
    destruct o as [[next|]|e].
    + apply frame_emit. exact I.
    + apply frame_refl.
    + apply frame_emit. exact I.
Qed.

(** ** The invariant *)

Lemma wf_init cwd : wf (init cwd).
Proof.
  split; cbn; intros; try discriminate; auto; try lia.
  all: try match goal with H : ∅ !! _ = Some _ |- _ => rewrite lookup_empty in H end;
       try discriminate.
  all: match goal with H : [] !! _ = Some _ |- _ => rewrite lookup_nil in H end;
       discriminate.
Qed.

Lemma wf_frame st st' : wf st -> frame st st' -> wf st'.
Proof.
  intros W F.
  pose proof (frame_initialization _ _ F) as Hi.
  split;
    rewrite ?(frame_logger _ _ F), ?(frame_count _ _ F),
      ?(frame_schedulerId _ _ F), ?(frame_startTimer _ _ F),
      ?(frame_starting _ _ F), ?(frame_threads _ _ F),
      ?(frame_poolItems _ _ F), ?(frame_workers _ _ F),
      ?(frame_timers _ _ F), ?(frame_warnings _ _ F), ?Hi;
    try apply W.
  intros Hi'. rewrite (frame_finalization _ _ F Hi'). apply W, Hi'.
Qed.

Lemma wf_set_active v st : wf st -> wf (set_active v st).
Proof. intros []. split; assumption. Qed.

Lemma wf_running st w id :
  wf st -> workers st !! w = Some id -> initialization st = false.
Proof.
  intros W Hw. destruct (initialization st) eqn:Hi; [|reflexivity].
  destruct (wf_pre _ W Hi) as (Hws & _). rewrite Hws, lookup_nil in Hw. discriminate.
Qed.

(** What [start id] changes and what it leaves. *)
Lemma start_fields id st :
  let worker := length (workers st) in
  let st' := start id st in
  workers st' = workers st ++ [id]
  /\ threads st' = array_set id worker (threads st)
  /\ poolItems st' =
       poolItems st ++ (if (schedulerId st <? id)%nat then [worker] else [])
  /\ log st' = log st ++ start_effects (schedulerId st) worker id
  /\ scheduler st' =
       (if (id =? schedulerId st)%nat then Some worker else scheduler st)
  /\ initialization st' = initialization st
  /\ finalization st' = finalization st
  /\ logger st' = logger st
  /\ count st' = count st
  /\ schedulerId st' = schedulerId st
  /\ starting st' = starting st
  /\ active st' = active st
  /\ timers st' = timers st
  /\ startTimer st' = startTimer st
  /\ exited st' = exited st
  /\ awaiting st' = awaiting st
  /\ nextPromise st' = nextPromise st.
Proof.
  unfold start, start_effects. st_simpl.
  destruct (Nat.eqb_spec id (schedulerId st)) as [->|Hne].
  - rewrite Nat.ltb_irrefl. st_simpl. rewrite app_nil_r. repeat split; reflexivity.
  - destruct (schedulerId st <? id)%nat; st_simpl;
      rewrite <- ?app_assoc, ?app_nil_r; repeat split; reflexivity.
Qed.

Lemma warnings_app es1 es2 : warnings (es1 ++ es2) = warnings es1 ++ warnings es2.
Proof. apply omap_app. Qed.

Lemma warnings_start_effects sid w id : warnings (start_effects sid w id) = [].
Proof. unfold start_effects. destruct (sid <? id)%nat; reflexivity. Qed.

Lemma wf_start id st :
  wf st -> initialization st = false -> id < count st -> wf (start id st).
Proof.
  intros W Hi Hid.
  destruct (start_fields id st)
    as (Hws & Hth & Hpi & Hlog & _ & Hini & Hfin & Hlg & Hc & Hs & Hsg & _ & Htm & HsT & _).
  destruct (wf_booted _ W Hi) as (Hlogger & Hlen & Hsid).
  assert (Hwarn : warnings (log (start id st)) = warnings (log st)).
  { rewrite Hlog, warnings_app, warnings_start_effects. apply app_nil_r. }
  split; rewrite ?Hini, ?Hlg, ?Hc, ?Hs, ?Hsg, ?Htm, ?HsT, ?Hwarn, ?Hfin, ?Hth, ?Hws, ?Hpi;
    try apply W.
  - rewrite Hi. discriminate.
  - intros _. rewrite array_set_length by lia. auto.
  - unfold array_set. rewrite (proj2 (Nat.ltb_lt _ _)) by lia.
    apply Forall_insert; [apply W | eexists; reflexivity].
  - intros w id' Hw. apply lookup_app_Some in Hw as [Hw|[_ Hw]].
    + eapply wf_slots; eassumption.
    + apply list_lookup_singleton_Some in Hw as [_ <-]. assumption.
  - intros w id' Hw Hlt. apply elem_of_app.
    apply lookup_app_Some in Hw as [Hw|[Hge Hw]].
    + left. eapply wf_pool; eassumption.
    + apply list_lookup_singleton_Some in Hw as [H0 <-]. right.
      rewrite (proj2 (Nat.ltb_lt _ _) Hlt). apply list_elem_of_singleton. lia.
Qed.

Lemma warnings_boot_effects sid base ids : warnings (boot_effects sid base ids) = [].
Proof.
  unfold boot_effects. induction ids as [|id ids IH]; [reflexivity|].
  cbn [flat_map]. rewrite warnings_app, warnings_start_effects, IH. reflexivity.
Qed.

Lemma wf_boot cfg st :
  wf st -> initialization st = true -> logger st = true -> wf (boot cfg st).
Proof.
  intros W Hi Hl. rewrite boot_booting.
  destruct (wf_pre _ W Hi) as (Hws & Hfin & Htm & HsT & Hwarn).
  pose proof (schedulerId_lt_count cfg) as Hsid.
  unfold booting. rewrite Hws. cbn [length app Nat.add].
  split; st_simpl; rewrite ?Nat.sub_diag; cbn [replicate]; rewrite ?app_nil_r.
  - discriminate.
  - intros _. rewrite length_fmap, length_seq. auto.
  - apply Forall_fmap, Forall_forall. intros; eexists; reflexivity.
  - intros w id Hw. apply lookup_seq in Hw. lia.
  - intros w id Hw Hlt. apply lookup_seq in Hw. apply elem_of_seq. lia.
  - intros _. rewrite warnings_app, warnings_boot_effects, Hwarn. auto.
  - intros t id Ht. rewrite Htm, lookup_empty in Ht. discriminate.
  - rewrite warnings_app, warnings_boot_effects, Hwarn. cbn. lia.
Qed.

Lemma wf_on_exit id code st :
  wf st -> initialization st = false -> id < count st ->
  wf (on_exit id code st).
Proof.
  intros W Hi Hid. apply (wf_set_active (active st - 1)) in W.
  unfold on_exit.
  split_tests;
    first [ assumption
          | apply wf_start; assumption
          | eapply wf_frame;
            [exact W | first [apply frame_process_exit | apply frame_exit]] ].
Qed.

Lemma wf_on_online id st :
  wf st -> initialization st = false -> wf (on_online id st).
Proof.
  intros W Hi. unfold on_online. st_simpl.
  destruct (Z.eqb_spec (starting st + 1) (Z.of_nat (count st))) as [Heq|Hne].
  - destruct (wf_idle _ W) as (Htm & HsT & Hwarn); [lia|].
    split; st_simpl; rewrite ?warnings_snoc, ?app_nil_r, ?Htm; try apply W.
    + rewrite Hi. discriminate.
    + lia.
    + intros t id' Ht. apply lookup_insert_Some in Ht as [[<- <-]|[_ Ht]].
      * auto.
      * rewrite lookup_empty in Ht. discriminate.
  - split; st_simpl; try apply W.
    intros Hlt. apply (wf_idle _ W). lia.
Qed.

Lemma wf_event name st : wf st -> wf (ITC.event name st).
Proof.
  intros W. unfold ITC.event. st_simpl.
  destruct (negb (name =? "started")%string); [assumption|].
  destruct (startTimer st) as [t|] eqn:HsT; [|apply wf_set_active; assumption].
  destruct (active st + 1 =? Z.of_nat (count st))%Z;
    [|apply wf_set_active; assumption].
  assert (Hidle : (starting st < Z.of_nat (count st))%Z -> False).
  { intros Hlt. destruct (wf_idle _ W Hlt) as (_ & H & _). congruence. }
  split; st_simpl; rewrite ?warnings_snoc, ?app_nil_r; try apply W.
  - intros Hi. destruct (wf_pre _ W Hi) as (_ & _ & _ & H & _). congruence.
  - intros Hlt. destruct (Hidle Hlt).
  - intros t' id Ht. apply lookup_delete_Some in Ht as [Hne Ht].
    destruct (wf_armed _ W _ _ Ht) as (_ & H & _). congruence.
Qed.

Lemma wf_timeout t id st :
  wf st -> timers st !! t = Some id ->
  wf (on_timeout id (set_timers (delete t (timers st)) st)).
Proof.
  intros W Ht. destruct (wf_armed _ W _ _ Ht) as (Htm & HsT & Hwarn).
  assert (Hdel : delete t (timers st) = ∅).
  { rewrite Htm. apply delete_singleton_eq. }
  assert (Hidle : (starting st < Z.of_nat (count st))%Z -> False).
  { intros Hlt. destruct (wf_idle _ W Hlt) as (_ & H & _). congruence. }
  unfold on_timeout. st_simpl. rewrite Hdel.
  destruct (negb (active st =? Z.of_nat (count st))%Z);
    split; st_simpl; rewrite ?warnings_snoc, ?Hwarn; try apply W;
    try (intros Hlt; destruct (Hidle Hlt));
    try (intros ? ? H; rewrite lookup_empty in H; discriminate);
    try (intros Hi; destruct (wf_pre _ W Hi) as (_ & _ & _ & H & _); congruence);
    cbn; lia.
Qed.

Lemma frame_task msg port st : frame st (ITC.task msg port st).
Proof.
  unfold ITC.task. destruct (scheduler st).
  - apply frame_emit. exact I.
  - apply frame_logError.
Qed.

Lemma frame_invoke worker msg name exclusive st :
  frame st (ITC.invoke worker msg name exclusive st).
Proof.
  unfold ITC.invoke.
  destruct (name =? "done")%string.
  { destruct exclusive; [|apply frame_refl].
    pose proof (frame_release worker st) as F.
    destruct (Pool.release worker st) as [[e|] st1]; cbn [snd] in F;
      [eapply frame_trans; [exact F | apply frame_logError] | exact F]. }
  destruct (negb (name =? "request")%string); [apply frame_refl|].
  eapply frame_trans;
    [apply (frame_promise (if exclusive then PoolCapture else PoolNext));
     intros; destruct exclusive; exact I|].
  apply frame_set_awaiting.
Qed.

Lemma wf_step st ev : wf st -> wf (step st ev).
Proof.
  intros W. unfold step. destruct (exited st); [assumption|].
  destruct ev as [|cfg|type e| |w code|w|w msg|t|p o].
  - destruct (initialization st) eqn:Hi; [|assumption].
    split; st_simpl; try apply W. rewrite Hi. discriminate.
  - destruct (initialization st) eqn:Hi; [|assumption].
    destruct (logger st) eqn:Hl; [|assumption]. apply wf_boot; assumption.
  - eapply wf_frame; [exact W | apply frame_logError].
  - destruct (initialization st) eqn:Hi; [assumption|].
    eapply wf_frame; [exact W | apply frame_stop, Hi].
  - destruct (workers st !! w) as [id|] eqn:Hw; [|assumption].
    apply wf_on_exit; [assumption| |].
    + eapply wf_running; eassumption.
    + eapply wf_slots; eassumption.
  - destruct (workers st !! w) as [id|] eqn:Hw; [|assumption].
    apply wf_on_online; [assumption|]. eapply wf_running; eassumption.
  - destruct (workers st !! w) as [id|] eqn:Hw; [|assumption].
    destruct msg; cbn [on_message].
    + apply wf_event, W.
    + eapply wf_frame; [exact W | apply frame_task].
    + eapply wf_frame; [exact W | apply frame_invoke].
    + assumption.
  - destruct (timers st !! t) as [id|] eqn:Ht; [|assumption].
    apply wf_timeout; assumption.
  - destruct (awaiting st !! p) as [k|] eqn:Hp; [|assumption].
    eapply wf_frame; [exact W|].
    eapply frame_trans; [apply frame_set_awaiting | apply frame_resume].
Qed.

Lemma run_snoc st evs ev : run st (evs ++ [ev]) = step (run st evs) ev.
Proof. unfold run. rewrite foldl_app. reflexivity. Qed.

Lemma run_app st evs1 evs2 : run st (evs1 ++ evs2) = run (run st evs1) evs2.
Proof. unfold run. apply foldl_app. Qed.

Lemma wf_run st evs : wf st -> wf (run st evs).
Proof.
  revert st. induction evs as [|ev evs IH]; intros st W; [assumption|].
  apply IH, wf_step, W.
Qed.

Lemma wf_reachable st : reachable st -> wf st.
Proof. intros (cwd & evs & ->). apply wf_run, wf_init. Qed.

Lemma reachable_run st evs : reachable st -> reachable (run st evs).
Proof.
  intros (cwd & evs0 & ->). exists cwd, (evs0 ++ evs). rewrite run_app. reflexivity.
Qed.

(** ** Suspended functions stay suspended until their promise settles *)

Lemma keeps_refl st : keeps st st.
Proof. split; auto. Qed.

Lemma keeps_trans st1 st2 st3 : keeps st1 st2 -> keeps st2 st3 -> keeps st1 st3.
Proof.
  intros [N1 A1] [N2 A2]. split; [lia|].
  intros p k Hp Hk. apply A2; [lia|]. apply A1; assumption.
Qed.

Lemma keeps_same st st' :
  awaiting st' = awaiting st -> nextPromise st' = nextPromise st -> keeps st st'.
Proof. intros Ha Hn. split; rewrite ?Ha, ?Hn; auto. Qed.

Lemma keeps_emit e st : keeps st (emit e st).
Proof. apply keeps_same; reflexivity. Qed.

Lemma keeps_process_exit code st : keeps st (process_exit code st).
Proof. apply keeps_same; reflexivity. Qed.

Lemma keeps_promise_await mk k st :
  keeps st (await (promise mk st).1 k (promise mk st).2).
Proof.
  split; st_simpl; [lia|].
  intros p k' Hp Hk. rewrite lookup_insert_ne by lia. assumption.
Qed.

Lemma keeps_exit msg st : keeps st (exit msg st).
Proof.
  unfold exit. eapply keeps_trans; [eapply (keeps_emit (ConsoleError _))|].
  match goal with |- context [if ?b then _ else _] => destruct b end.
  - apply (keeps_promise_await LoggerClose KExit).
  - apply keeps_process_exit.
Qed.

Lemma keeps_logError type e st : keeps st (logError type e st).
Proof.
  unfold logError. eapply keeps_trans; [eapply (keeps_emit (ConsoleError _))|].
  st_simpl. destruct (finalization st); [apply keeps_refl|].
  destruct (initialization st); [apply keeps_exit | apply keeps_refl].
Qed.

Lemma post_stop_awaiting ws st :
  awaiting (post_stop ws st).2 = awaiting st
  /\ nextPromise (post_stop ws st).2 = nextPromise st.
Proof.
  revert st. induction ws as [|[w|] ws IH]; intros st; cbn [post_stop snd]; auto.
  destruct (IH (emit (PostMessage w (MEvent "stop") []) st)) as [-> ->]. auto.
Qed.

Lemma keeps_stop st : keeps st (stop st).
Proof.
  unfold stop. st_simpl.
  destruct (logger st);
    [|eapply keeps_trans; [|apply keeps_logError]; apply keeps_same; reflexivity].
  match goal with
  | |- context [post_stop ?ws ?s] =>
      pose proof (post_stop_awaiting ws s) as [Ha Hn];
      destruct (post_stop ws s) as [ok st2]
  end.
  cbn [snd] in Ha, Hn. st_simpl in Ha. st_simpl in Hn.
  assert (K : keeps st (await (nextPromise st) KStop st2)).
  { split; st_simpl; rewrite ?Ha, ?Hn; [lia|].
    intros p k Hp Hk. rewrite lookup_insert_ne by lia. assumption. }
  destruct ok; [exact K|].
  eapply keeps_trans; [|apply keeps_logError].
  split; rewrite ?Ha, ?Hn; [lia | auto].
Qed.

Lemma keeps_start id st : keeps st (start id st).
Proof.
  destruct (start_fields id st) as (_ & _ & _ & _ & _ & _ & _ & _ & _ & _ & _ & _ & _ & _ & _ & Ha & Hn).
  apply keeps_same; assumption.
Qed.

Lemma keeps_on_exit id code st : keeps st (on_exit id code st).
Proof.
  unfold on_exit.
  eapply keeps_trans; [apply (keeps_same st (set_active (active st - 1) st)); reflexivity|].
  split_tests;
    first [ apply keeps_refl | apply keeps_start | apply keeps_process_exit
          | apply keeps_exit ].
Qed.

Lemma keeps_release item st : keeps st (Pool.release item st).2.
Proof.
  unfold Pool.release. st_simpl.
  split_tests; cbn [snd]; apply keeps_same; reflexivity.
Qed.

Lemma keeps_settled exclusive o st : keeps st (Pool.settled exclusive o st).
Proof.
  unfold Pool.settled. destruct o as [[item|]|e]; try apply keeps_refl.
  destruct exclusive; [apply keeps_same; reflexivity | apply keeps_refl].
Qed.

Lemma keeps_on_message worker msg st : keeps st (on_message worker msg st).
Proof.
  destruct msg as [name|payload port|name port exclusive payload|type];
    cbn [on_message].
  - unfold ITC.event. apply keeps_same; split_tests; reflexivity.
  - unfold ITC.task. destruct (scheduler st);
      [apply keeps_emit | apply keeps_logError].
  - unfold ITC.invoke. destruct (name =? "done")%string.
    { destruct exclusive; [|apply keeps_refl].
      pose proof (keeps_release worker st) as K.
      destruct (Pool.release worker st) as [[e|] st1]; cbn [snd] in K;
        [eapply keeps_trans; [exact K | apply keeps_logError] | exact K]. }
    destruct (negb (name =? "request")%string); [apply keeps_refl|].
    apply (keeps_promise_await (if exclusive then PoolCapture else PoolNext)).
  - apply keeps_refl.
Qed.

Lemma keeps_resume k o st : keeps st (resume k o st).
Proof.
  destruct k as [| |msg]; cbn [resume].
  - destruct o; [apply keeps_process_exit | apply keeps_logError].
  - destruct o; [apply keeps_refl | apply keeps_logError].
  - destruct msg as [| |name port exclusive payload|]; try apply keeps_refl.
    apply (keeps_trans _ (Pool.settled exclusive o st)); [apply keeps_settled|].
    unfold ITC.invoke_resume.
    destruct o as [[next|]|e]; first [apply keeps_emit | apply keeps_refl].
Qed.

Lemma keeps_boot cfg st : keeps st (boot cfg st).
Proof. rewrite boot_booting. apply keeps_same; reflexivity. Qed.

Lemma keeps_step p k st ev :
  p < nextPromise st -> awaiting st !! p = Some k -> settles p [ev] = false ->
  p < nextPromise (step st ev) /\ awaiting (step st ev) !! p = Some k.
Proof.
  intros Hp Hk Hs.
  assert (K : forall st', keeps st st' ->
              p < nextPromise st' /\ awaiting st' !! p = Some k).
  { intros st' [N A]. split; [lia | auto]. }
  unfold step. destruct (exited st); [auto|].
  destruct ev as [|cfg|type e| |w code|w|w msg|t|q o].
  - destruct (initialization st); [|auto]. apply K, keeps_same; reflexivity.
  - destruct (initialization st && logger st); [|auto]. apply K, keeps_boot.
  - apply K, keeps_logError.
  - destruct (initialization st); [auto|]. apply K, keeps_stop.
  - destruct (workers st !! w); [|auto]. apply K, keeps_on_exit.
  - destruct (workers st !! w); [|auto]. apply K, keeps_same;
      unfold on_online; split_tests; reflexivity.
  - destruct (workers st !! w); [|auto]. apply K, keeps_on_message.
  - destruct (timers st !! t); [|auto]. apply K, keeps_same;
      unfold on_timeout; split_tests; reflexivity.
  - cbn in Hs. rewrite orb_false_r in Hs. apply Nat.eqb_neq in Hs.
    destruct (awaiting st !! q) as [k'|] eqn:Hq; [|auto].
    assert (K' : p < nextPromise (set_awaiting (delete q (awaiting st)) st)
                 /\ awaiting (set_awaiting (delete q (awaiting st)) st) !! p = Some k).
    { st_simpl. split; [assumption|]. rewrite lookup_delete_ne by auto. assumption. }
    destruct K' as [Hp' Hk'].
    destruct (keeps_resume k' o (set_awaiting (delete q (awaiting st)) st)) as [N A].
    split; [lia | auto].
Qed.

Lemma settles_cons p ev evs :
  settles p (ev :: evs) = settles p [ev] || settles p evs.
Proof. unfold settles. cbn [existsb]. rewrite orb_false_r. reflexivity. Qed.

Lemma keeps_run p k evs st :
  p < nextPromise st -> awaiting st !! p = Some k -> settles p evs = false ->
  awaiting (run st evs) !! p = Some k.
Proof.
  revert st. induction evs as [|ev evs IH]; intros st Hp Hk Hs; [assumption|].
  rewrite settles_cons in Hs. apply orb_false_iff in Hs as [Hs1 Hs2].
  destruct (keeps_step p k st ev Hp Hk Hs1) as [Hp' Hk'].
  apply (IH (step st ev)); assumption.
Qed.


(** ** Shutdown *)

Lemma post_stop_full ws st :
  post_stop (Some <$> ws) st = (true, set_log (log st ++ stop_messages ws) st).
Proof.
  revert st. induction ws as [|w ws IH]; intros st; cbn [fmap list_fmap post_stop].
  - unfold stop_messages. cbn [fmap list_fmap]. rewrite app_nil_r.
    destruct st; reflexivity.
  - rewrite IH. st_simpl. unfold stop_messages. cbn [fmap list_fmap].
    rewrite <- app_assoc. reflexivity.
Qed.

Lemma Forall_is_Some_fmap {A} (l : list (option A)) :
  Forall is_Some l -> exists k, l = Some <$> k.
Proof.
  induction 1 as [|x l [y ->] _ [k ->]].
  - exists []. reflexivity.
  - exists (y :: k). reflexivity.
Qed.

(** C6: [stop] sets [finalization], starts closing the logger, posts one
    [stop] event to the worker of every slot of [threads], [count] messages
    in all, and then waits for the close alone: whatever happens in between,
    the workers exiting or not, the function returns when that promise is
    fulfilled. *)
Theorem shutdown st :
  reachable st ->
  exited st = None ->
  initialization st = false ->
  let p := nextPromise st in
  let st' := step st EvStop in
  finalization st' = true
  /\ (exists ws,
        threads st = Some <$> ws /\ length ws = count st
        /\ log st' = log st ++ LoggerClose p :: stop_messages ws)
  /\ awaiting st' !! p = Some KStop
  /\ exited st' = None
  /\ forall evs,
       settles p evs = false ->
       let st2 := run st' evs in
       exited st2 = None ->
       forall v,
         let st3 := step st2 (EvSettle p (Fulfilled v)) in
         log st3 = log st2 /\ exited st3 = None /\ awaiting st3 !! p = None.
Proof.
  intros R Hex Hi p st'. subst p st'.
  pose proof (wf_reachable _ R) as W.
  destruct (wf_booted _ W Hi) as (Hl & Hlen & _).
  destruct (Forall_is_Some_fmap _ (wf_full _ W)) as [ws Hws].
  assert (Hs : step st EvStop = stop st).
  { unfold step. rewrite Hex, Hi. reflexivity. }
  rewrite Hs. clear Hs. unfold stop. st_simpl. rewrite Hl, Hws.
  rewrite post_stop_full. st_simpl.
  split; [reflexivity|]. split.
  { exists ws. split; [reflexivity|]. split.
    - rewrite <- Hlen, Hws, length_fmap. reflexivity.
    - rewrite <- app_assoc. reflexivity. }
  split; [apply lookup_insert_eq|]. split; [assumption|].
  intros evs Hevs Hex2 v.
  match goal with
  | |- context [run ?s evs] =>
      assert (Haw : awaiting (run s evs) !! nextPromise st = Some KStop)
        by (apply keeps_run; [st_simpl; lia | apply lookup_insert_eq | assumption]);
      set (st2 := run s evs) in *
  end.
  unfold step. rewrite Hex2, Haw. cbn [resume]. st_simpl.
  split; [reflexivity|]. split; [assumption|]. apply lookup_delete_eq.
Qed.

(** ** Errors of the process *)

(** *** [metautil.replace] on the working directory *)












(** ** Invocations *)

(** C1: a [request] of type [invoke] asks the pool for a worker, with
    [capture()] when [exclusive] and with [next()] otherwise, and is
    suspended on the promise returned.  Whatever happens meanwhile, when the
    promise is fulfilled with a worker the message goes to that worker with
    its port in the transfer list, and when it is rejected the only effect
    is the reply [{ error: 'No thread available' }] on the port of the
    request: nothing is posted to a worker. *)
Theorem invoke_request st worker port exclusive payload :
  exited st = None ->
  is_Some (workers st !! worker) ->
  let msg := MInvoke "request" port exclusive payload in
  let p := nextPromise st in
  let st' := step st (EvMessage worker msg) in
  log st' = log st ++ [if exclusive then PoolCapture p else PoolNext p]
  /\ awaiting st' !! p = Some (KInvoke msg)
  /\ forall evs,
       settles p evs = false ->
       let st2 := run st' evs in
       exited st2 = None ->
       awaiting st2 !! p = Some (KInvoke msg)
       /\ (forall next,
             log (step st2 (EvSettle p (Fulfilled (Some next))))
             = log st2 ++ [PostMessage next msg [port]])
       /\ (forall e,
             log (step st2 (EvSettle p (Rejected e)))
             = log st2 ++ [PortPostError port "No thread available"]).
Proof.
  intros Hex [id Hw] msg p st'.
  assert (Hs : st' = await p (KInvoke msg)
                       (promise (if exclusive then PoolCapture else PoolNext) st).2).
  { subst st'. unfold step. rewrite Hex, Hw. reflexivity. }
  assert (Hlog : log st' = log st ++ [if exclusive then PoolCapture p else PoolNext p]).
  { rewrite Hs. st_simpl. destruct exclusive; reflexivity. }
  assert (Haw : awaiting st' !! p = Some (KInvoke msg)).
  { rewrite Hs. st_simpl. apply lookup_insert_eq. }
  assert (Hnext : p < nextPromise st').
  { rewrite Hs. st_simpl. subst p. lia. }
  split; [exact Hlog|]. split; [exact Haw|].
  intros evs Hevs st2 Hex2.
  pose proof (keeps_run p _ evs st' Hnext Haw Hevs) as Haw2. fold st2 in Haw2.
  split; [exact Haw2|].
  split; intros; unfold step; rewrite Hex2, Haw2; cbn [resume];
    unfold Pool.settled; destruct exclusive; reflexivity.
Qed.

(** C2, amended: a [done] of type [invoke] with [exclusive] calls
    [pool.release] with the worker the message came from.  When that
    worker is an item of the pool and is captured, it is free again, and
    that is all.  When it is not an item of the pool, or is not captured,
    the pool throws: no worker is released, and the rejection of the
    listener is printed, a line that begins with the type and the message
    of the error, with no other effect.  Without [exclusive] nothing
    happens. *)
Theorem invoke_done st worker port exclusive payload :
  reachable st ->
  exited st = None ->
  is_Some (workers st !! worker) ->
  let st' := step st (EvMessage worker (MInvoke "done" port exclusive payload)) in
  (exclusive = false -> st' = st)
  /\ (exclusive = true -> worker ∈ poolItems st -> worker ∈ captured st ->
      st' = set_captured (filter (fun w => w <> worker) (captured st))
              (emit (PoolRelease worker) st)
      /\ worker ∉ captured st')
  /\ (exclusive = true -> worker ∉ poolItems st ->
      exists line,
        String.prefix
          "unhandledRejection error: Error: Pool: release unexpected item" line
        = true
        /\ st' = emit (ConsoleError line) (emit (PoolRelease worker) st))
  /\ (exclusive = true -> worker ∈ poolItems st -> worker ∉ captured st ->
      exists line,
        String.prefix
          "unhandledRejection error: Error: Pool: release not captured" line
        = true
        /\ st' = emit (ConsoleError line) (emit (PoolRelease worker) st)).
Proof.
  intros R Hex [id Hw] st'. subst st'.
  pose proof (wf_running _ _ _ (wf_reachable _ R) Hw) as Hi.
  unfold step. rewrite Hex, Hw. cbn [on_message]. unfold ITC.invoke.
  cbn [String.eqb Ascii.eqb Bool.eqb andb]. unfold Pool.release. st_simpl.
  split; [intros ->; reflexivity|].
  split; [|split].
  - intros -> Hp Hc.
    rewrite (bool_decide_eq_true_2 _ Hp), (bool_decide_eq_true_2 _ Hc).
    cbn [negb]. split; [reflexivity|]. st_simpl.
    intros Hin. apply list_elem_of_filter in Hin as [Hne _]. apply Hne. reflexivity.
  - intros -> Hp. rewrite (bool_decide_eq_false_2 _ Hp). cbn [negb].
    unfold logError. st_simpl. rewrite Hi.
    eexists. split; [|destruct (finalization st); reflexivity]. reflexivity.
  - intros -> Hp Hc.
    rewrite (bool_decide_eq_true_2 _ Hp), (bool_decide_eq_false_2 _ Hc).
    cbn [negb]. unfold logError. st_simpl. rewrite Hi.
    eexists. split; [|destruct (finalization st); reflexivity]. reflexivity.
Qed.

(** ** The pool only grows *)

Lemma on_online_fields id st :
  let st' := on_online id st in
  initialization st' = initialization st /\ poolItems st' = poolItems st
  /\ threads st' = threads st /\ workers st' = workers st
  /\ spawned (log st') = spawned (log st) /\ active st' = active st
  /\ count st' = count st /\ exited st' = exited st
  /\ starting st' = (starting st + 1)%Z.
Proof.
  unfold on_online. split_tests; st_simpl; rewrite ?spawned_snoc, ?app_nil_r;
    repeat split; reflexivity.
Qed.

Lemma event_fields name st :
  let st' := ITC.event name st in
  initialization st' = initialization st /\ poolItems st' = poolItems st
  /\ threads st' = threads st /\ workers st' = workers st
  /\ spawned (log st') = spawned (log st)
  /\ count st' = count st /\ exited st' = exited st
  /\ starting st' = starting st
  /\ active st' = (if (name =? "started")%string then active st + 1 else active st)%Z.
Proof.
  unfold ITC.event. split_tests; st_simpl; rewrite ?spawned_snoc, ?app_nil_r;
    repeat split; reflexivity.
Qed.

Lemma on_timeout_fields id t st :
  let st' := on_timeout id (set_timers (delete t (timers st)) st) in
  initialization st' = initialization st /\ poolItems st' = poolItems st
  /\ threads st' = threads st /\ workers st' = workers st
  /\ spawned (log st') = spawned (log st) /\ active st' = active st
  /\ count st' = count st /\ exited st' = exited st
  /\ starting st' = starting st.
Proof.
  unfold on_timeout. split_tests; st_simpl; rewrite ?spawned_snoc, ?app_nil_r;
    repeat split; reflexivity.
Qed.

Lemma on_exit_zero id st :
  frame (set_active (active st - 1) st) (on_exit id 0 st).
Proof.
  unfold on_exit. cbn [Z.eqb negb]. st_simpl.
  split_tests;
    first [apply frame_process_exit | apply frame_exit | apply frame_refl].
Qed.

Lemma on_exit_nonzero id code st :
  code <> 0%Z -> on_exit id code st = start id (set_active (active st - 1) st).
Proof.
  intros Hc. unfold on_exit. apply Z.eqb_neq in Hc. rewrite Hc. reflexivity.
Qed.

Lemma pool_step st ev :
  initialization st = false ->
  initialization (step st ev) = false
  /\ poolItems st `prefix_of` poolItems (step st ev).
Proof.
  intros Hi.
  assert (F : forall st', frame st st' ->
              initialization st' = false /\ poolItems st `prefix_of` poolItems st').
  { intros st' F. rewrite (frame_initialization _ _ F), (frame_poolItems _ _ F).
    split; [first [assumption | reflexivity] | reflexivity]. }
  unfold step. destruct (exited st); [split; [first [assumption | reflexivity] | reflexivity]|].
  destruct ev as [|cfg|type e| |w code|w|w msg|t|p o]; rewrite ?Hi; cbn [andb];
    try (split; [first [assumption | reflexivity] | reflexivity]).
  - apply F, frame_logError.
  - apply F, frame_stop, Hi.
  - destruct (workers st !! w) as [id|]; [|split; [first [assumption | reflexivity] | reflexivity]].
    destruct (Z.eq_dec code 0%Z) as [->|Hc].
    + pose proof (on_exit_zero id st) as F0.
      rewrite (frame_initialization _ _ F0), (frame_poolItems _ _ F0).
      split; [assumption | reflexivity].
    + rewrite on_exit_nonzero by assumption.
      destruct (start_fields id (set_active (active st - 1) st))
        as (_ & _ & Hpi & _ & _ & Hini & _).
      rewrite Hini, Hpi. split; [assumption|]. apply prefix_app_r. reflexivity.
  - destruct (workers st !! w) as [id|]; [|split; [first [assumption | reflexivity] | reflexivity]].
    destruct (on_online_fields id st) as (-> & -> & _).
    split; [first [assumption | reflexivity] | reflexivity].
  - destruct (workers st !! w) as [id|]; [|split; [first [assumption | reflexivity] | reflexivity]].
    destruct msg; cbn [on_message];
      try (apply F; first [apply frame_task | apply frame_invoke | apply frame_refl]).
    destruct (event_fields name st) as (-> & -> & _).
    split; [first [assumption | reflexivity] | reflexivity].
  - destruct (timers st !! t) as [id|]; [|split; [first [assumption | reflexivity] | reflexivity]].
    destruct (on_timeout_fields id t st) as (-> & -> & _).
    split; [first [assumption | reflexivity] | reflexivity].
  - destruct (awaiting st !! p) as [k|]; [|split; [first [assumption | reflexivity] | reflexivity]].
    apply F. eapply frame_trans; [apply frame_set_awaiting | apply frame_resume].
Qed.

Lemma pool_run st evs :
  initialization st = false -> poolItems st `prefix_of` poolItems (run st evs).
Proof.
  revert st. induction evs as [|ev evs IH]; intros st Hi; [reflexivity|].
  destruct (pool_step st ev Hi) as [Hi' Hp].
  etransitivity; [exact Hp | apply (IH (step st ev) Hi')].
Qed.

(** C9: when a worker of a slot above [schedulerId] exits with a non-zero
    code, the worker created in its place is added to the pool, which still
    holds the worker that exited: the pool is one longer, holds two workers
    of the slot, and loses neither ever after. *)
Theorem pool_grows st worker id code :
  reachable st ->
  exited st = None ->
  workers st !! worker = Some id ->
  schedulerId st < id ->
  code <> 0%Z ->
  let st' := step st (EvExit worker code) in
  let worker' := length (workers st) in
  workers st' !! worker = Some id
  /\ workers st' !! worker' = Some id
  /\ worker <> worker'
  /\ poolItems st' = poolItems st ++ [worker']
  /\ worker ∈ poolItems st' /\ worker' ∈ poolItems st'
  /\ forall evs, poolItems st' `prefix_of` poolItems (run st' evs).
Proof.
  intros R Hex Hw Hid Hc st' worker'.
  pose proof (wf_reachable _ R) as W.
  pose proof (wf_running _ _ _ W Hw) as Hi.
  assert (Hs : st' = start id (set_active (active st - 1) st)).
  { subst st'. unfold step. rewrite Hex, Hw. unfold on_exit.
    apply Z.eqb_neq in Hc. rewrite Hc. reflexivity. }
  destruct (start_fields id (set_active (active st - 1) st))
    as (Hws & _ & Hpi & _ & _ & Hini & _).
  rewrite <- Hs in Hws, Hpi, Hini. st_simpl in Hws. st_simpl in Hpi. st_simpl in Hini.
  rewrite (proj2 (Nat.ltb_lt _ _) Hid) in Hpi. fold worker' in Hpi.
  pose proof (lookup_lt_Some _ _ _ Hw) as Hlt.
  rewrite Hws, Hpi.
  split; [apply lookup_app_l_Some; assumption|].
  split; [subst worker'; rewrite lookup_app_r, Nat.sub_diag by lia; reflexivity|].
  split; [subst worker'; lia|]. split; [reflexivity|].
  split; [apply elem_of_app; left; eapply wf_pool; eassumption|].
  split; [apply elem_of_app; right; apply list_elem_of_singleton; reflexivity|].
  intros evs. rewrite <- Hpi. apply pool_run. rewrite Hini. assumption.
Qed.

(** ** A slot is refilled only by the exit of its worker *)

Lemma created_spawned id es es' :
  spawned es' = spawned es -> created id es' = created id es.
Proof. unfold created. intros ->. reflexivity. Qed.

Lemma spawned_start_effects sid w id : spawned (start_effects sid w id) = [id].
Proof. unfold start_effects. destruct (sid <? id)%nat; reflexivity. Qed.

Lemma slot_step id st ev :
  wf st -> initialization st = false -> exit_at id st ev = false ->
  initialization (step st ev) = false
  /\ threads (step st ev) !! id = threads st !! id
  /\ created id (log (step st ev)) = created id (log st).
Proof.
  intros W Hi Hev.
  assert (F : forall st', frame st st' ->
              initialization st' = false
              /\ threads st' !! id = threads st !! id
              /\ created id (log st') = created id (log st)).
  { intros st' F. rewrite (frame_initialization _ _ F), (frame_threads _ _ F).
    split; [assumption|]. split; [reflexivity|].
    apply created_spawned, F. }
  assert (E : forall st', initialization st' = initialization st ->
              threads st' = threads st -> spawned (log st') = spawned (log st) ->
              initialization st' = false
              /\ threads st' !! id = threads st !! id
              /\ created id (log st') = created id (log st)).
  { intros st' -> -> Hsp. split; [assumption|]. split; [reflexivity|].
    apply created_spawned, Hsp. }
  unfold step. destruct (exited st); [apply F, frame_refl|].
  destruct ev as [|cfg|type e| |w code|w|w msg|t|p o]; rewrite ?Hi; cbn [andb];
    try (split; [first [assumption | reflexivity] | split; reflexivity]).
  - apply F, frame_logError.
  - apply F, frame_stop, Hi.
  - cbn [exit_at] in Hev. apply bool_decide_eq_false in Hev.
    destruct (workers st !! w) as [id'|] eqn:Hw; [|apply F, frame_refl].
    assert (Hne : id' <> id) by congruence.
    destruct (Z.eq_dec code 0%Z) as [->|Hc].
    + pose proof (on_exit_zero id' st) as F0.
      apply E; [apply F0 | apply F0 | apply F0].
    + rewrite on_exit_nonzero by assumption.
      destruct (start_fields id' (set_active (active st - 1) st))
        as (_ & Hth & _ & Hlog & _ & Hini & _).
      rewrite Hini, Hth, Hlog. st_simpl.
      destruct (wf_booted _ W Hi) as (_ & Hlen & _).
      pose proof (wf_slots _ W _ _ Hw) as Hlt.
      split; [assumption|]. split.
      * apply array_set_lookup_ne; [lia | assumption].
      * unfold created. rewrite spawned_app, spawned_start_effects, count_occ_app.
        cbn [count_occ]. destruct (Nat.eq_dec id' id); [contradiction | lia].
  - destruct (workers st !! w) as [id'|]; [|apply F, frame_refl].
    destruct (on_online_fields id' st) as (H1 & _ & H2 & _ & H3 & _).
    apply E; assumption.
  - destruct (workers st !! w) as [id'|]; [|apply F, frame_refl].
    destruct msg; cbn [on_message];
      try (apply F; first [apply frame_task | apply frame_invoke | apply frame_refl]).
    destruct (event_fields name st) as (H1 & _ & H2 & _ & H3 & _).
    apply E; assumption.
  - destruct (timers st !! t) as [id'|]; [|apply F, frame_refl].
    destruct (on_timeout_fields id' t st) as (H1 & _ & H2 & _ & H3 & _).
    apply E; assumption.
  - destruct (awaiting st !! p) as [k|]; [|apply F, frame_refl].
    apply F. eapply frame_trans; [apply frame_set_awaiting | apply frame_resume].
Qed.

Lemma slot_run id evs st :
  wf st -> initialization st = false -> no_exit_at id st evs = true ->
  threads (run st evs) !! id = threads st !! id
  /\ created id (log (run st evs)) = created id (log st).
Proof.
  revert st. induction evs as [|ev evs IH]; intros st W Hi Hq; [auto|].
  cbn [no_exit_at] in Hq. apply andb_true_iff in Hq as [Hev Hq].
  apply negb_true_iff in Hev.
  destruct (slot_step id st ev W Hi Hev) as (Hi' & Hth & Hcr).
  destruct (IH (step st ev) (wf_step _ _ W) Hi' Hq) as [Hth' Hcr'].
  cbn [run foldl]. fold (run (step st ev) evs). split; congruence.
Qed.

(** *** A worker exits once *)

Lemma exits_app evs1 evs2 : exits (evs1 ++ evs2) = exits evs1 ++ exits evs2.
Proof. apply omap_app. Qed.

Lemma latest_same st st' xs xs' :
  workers st' = workers st -> threads st' = threads st ->
  latest st xs -> latest st' (xs ++ xs').
Proof.
  intros Hw Ht L w id Hl Hn. rewrite Hw in Hl. rewrite Ht.
  apply (L w id Hl). intros H. apply Hn, elem_of_app. left. exact H.
Qed.

Lemma latest_boot cfg st xs :
  wf st -> initialization st = true -> latest (boot cfg st) xs.
Proof.
  intros W Hi. destruct (wf_pre _ W Hi) as (Hws & _).
  rewrite boot_booting. unfold booting, latest. st_simpl. rewrite Hws.
  cbn [length app Nat.add]. intros w id Hw _.
  apply lookup_seq in Hw as [-> Hlt]. cbn [Nat.add].
  rewrite lookup_app_l by (rewrite length_fmap, length_seq; lia).
  rewrite list_lookup_fmap, lookup_seq_lt by lia. reflexivity.
Qed.

Lemma latest_on_exit st xs w id code :
  wf st -> latest st xs -> workers st !! w = Some id -> w ∉ xs ->
  latest (on_exit id code st) (xs ++ [w]).
Proof.
  intros W L Hw Hn.
  destruct (Z.eq_dec code 0%Z) as [->|Hc].
  - pose proof (on_exit_zero id st) as F0.
    apply (latest_same st); [| |exact L].
    + rewrite (frame_workers _ _ F0). reflexivity.
    + rewrite (frame_threads _ _ F0). reflexivity.
  - rewrite on_exit_nonzero by assumption.
    destruct (start_fields id (set_active (active st - 1) st)) as (Hws & Hth & _).
    st_simpl in Hws. st_simpl in Hth.
    pose proof (wf_running _ _ _ W Hw) as Hi.
    destruct (wf_booted _ W Hi) as (_ & Hlen & _).
    pose proof (wf_slots _ W _ _ Hw) as Hid.
    intros w' id' Hw' Hn'. rewrite Hws in Hw'. rewrite Hth.
    apply not_elem_of_app in Hn' as [Hn' Hne].
    apply lookup_app_Some in Hw' as [Hw'|[Hge Hw']].
    + pose proof (L _ _ Hw' Hn') as Hslot.
      destruct (decide (id' = id)) as [->|Hneq].
      * pose proof (L _ _ Hw Hn) as Hslot'.
        exfalso. apply Hne, list_elem_of_singleton. congruence.
      * rewrite array_set_lookup_ne by (auto; lia). assumption.
    + apply list_lookup_singleton_Some in Hw' as [H0 <-].
      replace w' with (length (workers st)) by lia. apply array_set_lookup.
Qed.

Lemma latest_step st xs ev :
  wf st -> latest st xs -> (forall w c, ev = EvExit w c -> w ∉ xs) ->
  latest (step st ev) (xs ++ exits [ev]).
Proof.
  intros W L Hev.
  assert (F : forall st', frame st st' -> latest st' (xs ++ exits [ev])).
  { intros st' F. apply (latest_same st); [apply F | apply F | exact L]. }
  unfold step. destruct (exited st); [apply F, frame_refl|].
  destruct ev as [|cfg|type e| |w code|w|w msg|t|p o].
  - destruct (initialization st); [|apply F, frame_refl].
    apply (latest_same st); [reflexivity | reflexivity | exact L].
  - destruct (initialization st) eqn:Hi; [|apply F, frame_refl].
    destruct (logger st); [|apply F, frame_refl].
    apply latest_boot; assumption.
  - apply F, frame_logError.
  - destruct (initialization st) eqn:Hi; [apply F, frame_refl|].
    apply F, frame_stop, Hi.
  - destruct (workers st !! w) as [id|] eqn:Hw; [|apply F, frame_refl].
    apply latest_on_exit; [assumption | assumption | assumption |].
    apply (Hev w code). reflexivity.
  - destruct (workers st !! w) as [id|]; [|apply F, frame_refl].
    destruct (on_online_fields id st) as (_ & _ & Hth & Hws & _).
    apply (latest_same st); assumption.
  - destruct (workers st !! w) as [id|]; [|apply F, frame_refl].
    destruct msg; cbn [on_message];
      [|apply F, frame_task | apply F, frame_invoke | apply F, frame_refl].
    destruct (event_fields name st) as (_ & _ & Hth & Hws & _).
    apply (latest_same st); assumption.
  - destruct (timers st !! t) as [id|]; [|apply F, frame_refl].
    destruct (on_timeout_fields id t st) as (_ & _ & Hth & Hws & _).
    apply (latest_same st); assumption.
  - destruct (awaiting st !! p) as [k|]; [|apply F, frame_refl].
    apply F. eapply frame_trans; [apply frame_set_awaiting | apply frame_resume].
Qed.

(** In a run in which no worker exits twice, every worker that has not
    exited is the one its slot holds. *)
Lemma latest_run cwd evs :
  NoDup (exits evs) -> latest (run (init cwd) evs) (exits evs).
Proof.
  induction evs as [|ev evs IH] using rev_ind; intros Hnd.
  - intros w id Hw. discriminate Hw.
  - rewrite exits_app in Hnd. apply NoDup_app in Hnd as (Hnd & Hdis & _).
    rewrite run_snoc, exits_app.
    apply latest_step; [apply wf_run, wf_init | apply IH, Hnd|].
    intros w c -> Hin. apply (Hdis w Hin). cbn. apply list_elem_of_here.
Qed.

Lemma slot_workers_step id st ev :
  wf st -> initialization st = false -> exit_at id st ev = false ->
  forall w, workers (step st ev) !! w = Some id -> workers st !! w = Some id.
Proof.
  intros W Hi Hev w.
  assert (F : forall st', frame st st' ->
              workers st' !! w = Some id -> workers st !! w = Some id).
  { intros st' F. rewrite (frame_workers _ _ F). auto. }
  unfold step. destruct (exited st); [auto|].
  destruct ev as [|cfg|type e| |w' code|w'|w' msg|t|p o]; rewrite ?Hi; cbn [andb];
    auto.
  - apply F, frame_logError.
  - apply F, frame_stop, Hi.
  - cbn [exit_at] in Hev. apply bool_decide_eq_false in Hev.
    destruct (workers st !! w') as [id'|] eqn:Hw'; [|auto].
    assert (Hne : id' <> id) by congruence.
    destruct (Z.eq_dec code 0%Z) as [->|Hc].
    + pose proof (on_exit_zero id' st) as F0.
      rewrite (frame_workers _ _ F0). auto.
    + rewrite on_exit_nonzero by assumption.
      destruct (start_fields id' (set_active (active st - 1) st)) as (Hws & _).
      rewrite Hws. st_simpl. intros Hl.
      apply lookup_app_Some in Hl as [Hl|[_ Hl]]; [exact Hl|].
      apply list_lookup_singleton_Some in Hl as [_ Hl]. contradiction.
  - destruct (workers st !! w') as [id'|]; [|auto].
    destruct (on_online_fields id' st) as (_ & _ & _ & Hws & _).
    rewrite Hws. auto.
  - destruct (workers st !! w') as [id'|]; [|auto].
    destruct msg; cbn [on_message];
      [|apply F, frame_task | apply F, frame_invoke | auto].
    destruct (event_fields name st) as (_ & _ & _ & Hws & _).
    rewrite Hws. auto.
  - destruct (timers st !! t) as [id'|]; [|auto].
    destruct (on_timeout_fields id' t st) as (_ & _ & _ & Hws & _).
    rewrite Hws. auto.
  - destruct (awaiting st !! p) as [k|]; [|auto].
    apply F. eapply frame_trans; [apply frame_set_awaiting | apply frame_resume].
Qed.

(** When all the workers of a slot have exited, no worker of the slot
    exits in a run in which no worker exits twice. *)
Lemma once_no_exit_at id evs st xs :
  wf st -> initialization st = false ->
  (forall w, workers st !! w = Some id -> w ∈ xs) ->
  NoDup (xs ++ exits evs) ->
  no_exit_at id st evs = true.
Proof.
  revert st xs. induction evs as [|ev evs IH]; intros st xs W Hi Hsp Hnd;
    [reflexivity|].
  assert (Hev : exit_at id st ev = false).
  { destruct ev as [| | | |w c| | | |]; try reflexivity.
    cbn [exit_at]. apply bool_decide_eq_false. intros Hw.
    apply NoDup_app in Hnd as (_ & Hdis & _).
    apply (Hdis w (Hsp w Hw)). cbn. apply list_elem_of_here. }
  cbn [no_exit_at]. rewrite Hev. cbn [negb andb].
  destruct (slot_step id st ev W Hi Hev) as (Hi' & _).
  apply (IH (step st ev) (xs ++ exits [ev])); [apply wf_step, W | exact Hi' | |].
  - intros w Hw. apply elem_of_app. left.
    apply Hsp, (slot_workers_step id st ev W Hi Hev w Hw).
  - rewrite <- app_assoc, <- exits_app. exact Hnd.
Qed.

(** C10, amended: when a worker of slot [id] exits with code 0 and, after
    the decrement, [active] is not 0 and it is not the case that
    [active < 0] and [id = 0], the listener does nothing more: no worker is
    created and the process goes on.  The slot then stays without a live
    worker for good: as long as no worker of the slot exits, and so in
    every run in which no worker exits twice, [threads[id]] stays the
    worker that has exited and no worker is created for the slot. *)
Theorem exit_unanswered cwd evs worker id :
  let st := run (init cwd) evs in
  exited st = None ->
  workers st !! worker = Some id ->
  (active st - 1)%Z <> 0%Z ->
  ~ ((active st - 1 < 0)%Z /\ id = 0) ->
  let st' := step st (EvExit worker 0) in
  st' = set_active (active st - 1) st
  /\ exited st' = None
  /\ (forall evs',
        no_exit_at id st' evs' = true ->
        threads (run st' evs') !! id = threads st !! id
        /\ created id (log (run st' evs')) = created id (log st))
  /\ (forall evs',
        NoDup (exits (evs ++ EvExit worker 0 :: evs')) ->
        threads (run st' evs') !! id = Some (Some worker)
        /\ created id (log (run st' evs')) = created id (log st)).
Proof.
  intros st Hex Hw Ha Hn st'.
  assert (W : wf st) by apply wf_run, wf_init.
  pose proof (wf_running _ _ _ W Hw) as Hi.
  assert (Hs : st' = set_active (active st - 1) st).
  { subst st'. unfold step. rewrite Hex, Hw. unfold on_exit. cbn [Z.eqb negb].
    st_simpl. apply Z.eqb_neq in Ha. rewrite Ha.
    destruct (Z.ltb_spec (active st - 1) 0); [|reflexivity].
    destruct (Nat.eqb_spec id 0); [|reflexivity].
    exfalso. apply Hn. split; assumption. }
  split; [exact Hs|]. rewrite Hs. split; [exact Hex|].
  assert (Hrun : forall evs',
            no_exit_at id (set_active (active st - 1) st) evs' = true ->
            threads (run (set_active (active st - 1) st) evs') !! id
            = threads st !! id
            /\ created id (log (run (set_active (active st - 1) st) evs'))
               = created id (log st)).
  { intros evs' Hq.
    apply (slot_run id evs' (set_active (active st - 1) st));
      [apply wf_set_active, W | exact Hi | exact Hq]. }
  split; [exact Hrun|].
  intros evs' Hnd. rewrite exits_app in Hnd. cbn [exits omap] in Hnd.
  fold (exits evs') in Hnd.
  pose proof Hnd as Hnd'.
  apply NoDup_app in Hnd' as (Hnd1 & Hdis & _).
  pose proof (latest_run cwd evs Hnd1) as L. fold st in L.
  assert (Hnew : worker ∉ exits evs).
  { intros Hin. apply (Hdis worker Hin). apply list_elem_of_here. }
  pose proof (L _ _ Hw Hnew) as Hth.
  destruct (Hrun evs') as [Hth' Hcr'].
  - apply (once_no_exit_at id evs' _ (exits evs ++ [worker]));
      [apply wf_set_active, W | exact Hi | |].
    + st_simpl. intros w Hw'. apply elem_of_app.
      destruct (decide (w ∈ exits evs)) as [Hin|Hout]; [left; exact Hin|].
      right. apply list_elem_of_singleton.
      pose proof (L _ _ Hw' Hout) as Hth2. congruence.
    + rewrite <- app_assoc. exact Hnd.
  - rewrite Hth', Hth. split; [reflexivity | exact Hcr'].
Qed.

(** ** The startup deadline *)

(** Once all workers have been online, no deadline is armed any more. *)
Lemma late_step st ev :
  initialization st = false ->
  (Z.of_nat (count st) <= starting st)%Z ->
  let st' := step st ev in
  initialization st' = false
  /\ (Z.of_nat (count st') <= starting st')%Z
  /\ timers st' ⊆ timers st
  /\ (timers st = ∅ -> warnings (log st') = warnings (log st)).
Proof.
  intros Hi Hc st'. subst st'.
  assert (F : forall st', frame st st' ->
              initialization st' = false
              /\ (Z.of_nat (count st') <= starting st')%Z
              /\ timers st' ⊆ timers st
              /\ (timers st = ∅ -> warnings (log st') = warnings (log st))).
  { intros st' F.
    rewrite (frame_initialization _ _ F), (frame_count _ _ F),
      (frame_starting _ _ F), (frame_timers _ _ F), (frame_warnings _ _ F).
    auto. }
  unfold step. destruct (exited st); [apply F, frame_refl|].
  destruct ev as [|cfg|type e| |w code|w|w msg|t|p o]; rewrite ?Hi; cbn [andb];
    try (split; [first [assumption | reflexivity] | auto]).
  - apply F, frame_logError.
  - apply F, frame_stop, Hi.
  - destruct (workers st !! w) as [id|]; [|apply F, frame_refl].
    destruct (Z.eq_dec code 0%Z) as [->|Hcode].
    + pose proof (on_exit_zero id st) as F0.
      rewrite (frame_initialization _ _ F0), (frame_count _ _ F0),
        (frame_starting _ _ F0), (frame_timers _ _ F0), (frame_warnings _ _ F0).
      auto.
    + rewrite on_exit_nonzero by assumption.
      destruct (start_fields id (set_active (active st - 1) st))
        as (_ & _ & _ & Hlog & _ & Hini & _ & _ & Hcnt & _ & Hsg & _ & Htm & _).
      rewrite Hini, Hcnt, Hsg, Htm, Hlog, warnings_app, warnings_start_effects,
        app_nil_r.
      auto.
  - destruct (workers st !! w) as [id|]; [|apply F, frame_refl].
    unfold on_online. st_simpl.
    destruct (Z.eqb_spec (starting st + 1) (Z.of_nat (count st))); [lia|].
    st_simpl. repeat split; auto. lia.
  - destruct (workers st !! w) as [id|]; [|apply F, frame_refl].
    destruct msg; cbn [on_message];
      try (apply F; first [apply frame_task | apply frame_invoke | apply frame_refl]).
    unfold ITC.event. split_tests; st_simpl; rewrite ?warnings_snoc, ?app_nil_r;
      repeat split; auto; apply delete_subseteq.
  - destruct (timers st !! t) as [id|] eqn:Ht; [|apply F, frame_refl].
    unfold on_timeout. split_tests; st_simpl;
      (split; [assumption|]; split; [assumption|]; split; [apply delete_subseteq|]);
      intros He; rewrite He, lookup_empty in Ht; discriminate.
  - destruct (awaiting st !! p) as [k|]; [|apply F, frame_refl].
    apply F. eapply frame_trans; [apply frame_set_awaiting | apply frame_resume].
Qed.

Lemma late_run evs st :
  initialization st = false ->
  (Z.of_nat (count st) <= starting st)%Z ->
  timers (run st evs) ⊆ timers st
  /\ (timers st = ∅ -> warnings (log (run st evs)) = warnings (log st)).
Proof.
  revert st. induction evs as [|ev evs IH]; intros st Hi Hc; [auto|].
  destruct (late_step st ev Hi Hc) as (Hi' & Hc' & Hsub & Hw).
  destruct (IH (step st ev) Hi' Hc') as [Hsub' Hw'].
  cbn [run foldl]. fold (run (step st ev) evs). split.
  - etransitivity; eassumption.
  - intros He. rewrite Hw' , Hw; auto.
    apply map_eq. intros i. rewrite lookup_empty.
    destruct (timers (step st ev) !! i) eqn:Hl; [|reflexivity].
    eapply lookup_weaken in Hl; [|exact Hsub]. rewrite He, lookup_empty in Hl.
    discriminate.
Qed.

Lemma late_run_inv evs st :
  initialization st = false ->
  (Z.of_nat (count st) <= starting st)%Z ->
  initialization (run st evs) = false
  /\ (Z.of_nat (count (run st evs)) <= starting (run st evs))%Z.
Proof.
  revert st. induction evs as [|ev evs IH]; intros st Hi Hc; [auto|].
  destruct (late_step st ev Hi Hc) as (Hi' & Hc' & _).
  apply (IH (step st ev) Hi' Hc').
Qed.

(** C7, amended: the [online] event that brings [starting] to [count] arms
    the deadline, with the slot [id] of the worker that came online in its
    callback.  While the deadline is pending no warning has been printed.
    If then a [started] brings [active] to [count], the timer is cleared
    and no warning is ever printed.  If instead the deadline fires while
    [active] is not [count], one warning is printed, which names slot [id]
    (the slot that armed the deadline, whichever slots are still to
    start); the process goes on, and no other warning is ever printed. *)
Theorem startup_deadline st w id :
  reachable st ->
  exited st = None ->
  workers st !! w = Some id ->
  (starting st + 1)%Z = Z.of_nat (count st) ->
  let t := nextTimer st in
  let st1 := step st (EvOnline w) in
  log st1 = log st ++ [SetTimeout t id (timeoutStart st)]
  /\ timers st1 = {[t := id]}
  /\ forall evs,
       let st2 := run st1 evs in
       exited st2 = None ->
       is_Some (timers st2 !! t) ->
       warnings (log st2) = []
       /\ (forall w',
             is_Some (workers st2 !! w') ->
             (active st2 + 1)%Z = Z.of_nat (count st2) ->
             let st3 := step st2 (EvMessage w' (MEvent "started")) in
             log st3 = log st2 ++ [ClearTimeout t]
             /\ forall evs', warnings (log (run st3 evs')) = [])
       /\ (active st2 <> Z.of_nat (count st2) ->
           let st3 := step st2 (EvTimeout t) in
           log st3 = log st2 ++ [ConsoleWarn (timeout_warning id)]
           /\ exited st3 = None
           /\ forall evs',
                warnings (log (run st3 evs')) = [timeout_warning id]).
Proof.
  intros R Hex Hw Hst t st1.
  pose proof (wf_reachable _ R) as W.
  pose proof (wf_running _ _ _ W Hw) as Hi.
  destruct (wf_idle _ W) as (Htm & _ & _); [lia|].
  assert (Hs1 : st1 = set_startTimer (Some t)
                        (set_timers (<[t := id]> (timers st))
                           (set_nextTimer (S t)
                              (emit (SetTimeout t id (timeoutStart st))
                                 (set_starting (starting st + 1) st))))).
  { subst st1. unfold step. rewrite Hex, Hw. unfold on_online. st_simpl.
    rewrite (proj2 (Z.eqb_eq _ _) Hst). reflexivity. }
  assert (Ht1 : timers st1 = {[t := id]}).
  { rewrite Hs1. st_simpl. rewrite Htm. reflexivity. }
  assert (Hi1 : initialization st1 = false) by (rewrite Hs1; exact Hi).
  assert (Hc1 : (Z.of_nat (count st1) <= starting st1)%Z).
  { rewrite Hs1. st_simpl. lia. }
  split; [rewrite Hs1; reflexivity|]. split; [exact Ht1|].
  intros evs st2 Hex2 [id' Hpend].
  assert (R2 : reachable st2).
  { apply reachable_run. destruct R as (cwd & evs0 & ->).
    exists cwd, (evs0 ++ [EvOnline w]). rewrite run_snoc. reflexivity. }
  pose proof (wf_reachable _ R2) as W2.
  destruct (late_run evs st1 Hi1 Hc1) as [Hsub _].
  destruct (late_run_inv evs st1 Hi1 Hc1) as [Hi2 Hc2]. fold st2 in Hsub, Hi2, Hc2.
  assert (id' = id) as ->.
  { eapply lookup_weaken in Hpend as Hl; [|exact Hsub].
    rewrite Ht1, lookup_singleton_eq in Hl. congruence. }
  destruct (wf_armed _ W2 _ _ Hpend) as (Htm2 & HsT2 & Hwarn2).
  split; [exact Hwarn2|]. split.
  - intros w' [id2 Hw'] Hact st3.
    assert (Hs3 : st3 = set_startTimer None
                          (set_timers (delete t (timers st2))
                             (emit (ClearTimeout t)
                                (set_active (active st2 + 1) st2)))).
    { subst st3. unfold step. rewrite Hex2, Hw'. cbn [on_message].
      unfold ITC.event. cbn [String.eqb Ascii.eqb Bool.eqb negb]. st_simpl.
      rewrite HsT2, (proj2 (Z.eqb_eq _ _) Hact). reflexivity. }
    split; [rewrite Hs3; reflexivity|].
    intros evs'.
    destruct (late_run evs' st3) as [_ Hq].
    + rewrite Hs3. exact Hi2.
    + rewrite Hs3. exact Hc2.
    + rewrite Hq.
      * rewrite Hs3. st_simpl. rewrite warnings_snoc, Hwarn2. reflexivity.
      * rewrite Hs3. st_simpl. rewrite Htm2. apply delete_singleton_eq.
  - intros Hact st3.
    assert (Hs3 : st3 = emit (ConsoleWarn (timeout_warning id))
                          (set_timers (delete t (timers st2)) st2)).
    { subst st3. unfold step. rewrite Hex2, Hpend. unfold on_timeout. st_simpl.
      rewrite (proj2 (Z.eqb_neq _ _) Hact). reflexivity. }
    split; [rewrite Hs3; reflexivity|]. split; [rewrite Hs3; exact Hex2|].
    intros evs'.
    destruct (late_run evs' st3) as [_ Hq].
    + rewrite Hs3. exact Hi2.
    + rewrite Hs3. exact Hc2.
    + rewrite Hq.
      * rewrite Hs3. st_simpl. rewrite warnings_snoc, Hwarn2. reflexivity.
      * rewrite Hs3. st_simpl. rewrite Htm2. apply delete_singleton_eq.
Qed.

(** ** The counters, when the workers keep to their life *)

Lemma NoDup_bounded_length (l : list nat) n :
  NoDup l -> (forall x, x ∈ l -> x < n) -> length l <= n.
Proof.
  intros Hnd Hlt. transitivity (length (seq 0 n)); [|rewrite length_seq; lia].
  apply submseteq_length, NoDup_submseteq; [assumption|].
  intros x Hx. apply elem_of_seq. specialize (Hlt x Hx). lia.
Qed.

Lemma running_cons_started w lv :
  w ∉ gone lv ->
  running (mkLives (onlined lv) (w :: started lv) (gone lv)) = w :: running lv.
Proof.
  intros Hw. unfold running. cbn [started gone]. rewrite filter_cons_True by assumption.
  reflexivity.
Qed.

Lemma filter_gone_notin w (ex l : list nat) :
  w ∉ l ->
  filter (fun x => x ∉ w :: ex) l = filter (fun x => x ∉ ex) l.
Proof.
  induction l as [|x l IH]; intros Hw; [reflexivity|].
  apply not_elem_of_cons in Hw as [Hne Hw].
  destruct (decide (x ∈ ex)) as [Hxe|Hxe].
  - rewrite !filter_cons_False; [apply IH, Hw | | ]; intros H; apply H;
      [assumption | right; assumption].
  - rewrite !filter_cons_True; [f_equal; apply IH, Hw | assumption | ].
    intros H. apply elem_of_cons in H as [->|H]; contradiction.
Qed.

Lemma filter_gone_length w (ex l : list nat) :
  NoDup l -> w ∈ l -> w ∉ ex ->
  S (length (filter (fun x => x ∉ w :: ex) l)) = length (filter (fun x => x ∉ ex) l).
Proof.
  induction 1 as [|x l Hx Hnd IH]; intros Hin Hex.
  - inversion Hin.
  - destruct (decide (x = w)) as [->|Hne].
    + rewrite filter_cons_False by (intros H; apply H; left).
      rewrite filter_cons_True by assumption. cbn [length]. f_equal.
      f_equal. apply filter_gone_notin, Hx.
    + apply elem_of_cons in Hin as [->|Hin]; [contradiction|].
      destruct (decide (x ∈ ex)) as [Hxe|Hxe].
      * rewrite !filter_cons_False; [apply IH; assumption | | ]; intros H; apply H;
          [assumption | right; assumption].
      * rewrite !filter_cons_True; [cbn [length]; f_equal; apply IH; assumption | | ];
          [assumption|].
        intros H. apply elem_of_cons in H as [->|H]; contradiction.
Qed.

Lemma running_cons_gone w lv :
  NoDup (started lv) -> w ∈ started lv -> w ∉ gone lv ->
  S (length (running (mkLives (onlined lv) (started lv) (w :: gone lv))))
  = length (running lv).
Proof. intros. unfold running. cbn [started gone]. apply filter_gone_length; assumption. Qed.

Lemma tracked_init cwd : tracked (init cwd) born.
Proof.
  split; cbn; try constructor; intros; try reflexivity.
  all: try match goal with H : _ ∈ [] |- _ => inversion H end.
  rewrite lookup_nil in H. discriminate.
Qed.

(** A step that leaves the counters, the workers and the slots alone. *)
Lemma tracked_same st st' lv :
  active st' = active st -> starting st' = starting st ->
  workers st' = workers st -> threads st' = threads st ->
  tracked st lv -> tracked st' lv.
Proof.
  intros Ha Hs Hw Ht T. split; rewrite ?Ha, ?Hs, ?Hw, ?Ht; apply T.
Qed.

Lemma tracked_frame st st' lv : frame st st' -> tracked st lv -> tracked st' lv.
Proof. intros F. apply tracked_same; apply F. Qed.

Lemma tracked_boot cfg st lv :
  wf st -> initialization st = true -> tracked st lv -> tracked (boot cfg st) lv.
Proof.
  intros W Hi T. destruct (wf_pre _ W Hi) as (Hws & _).
  assert (Hst : started lv = []).
  { destruct (started lv) as [|w l] eqn:E; [reflexivity|].
    pose proof (tracked_exist _ _ T w) as H. rewrite E, Hws in H.
    specialize (H (list_elem_of_here _ _)). cbn in H. lia. }
  assert (Hon : onlined lv = []).
  { destruct (onlined lv) as [|w l] eqn:E; [reflexivity|].
    pose proof (tracked_online_exist _ _ T w) as H. rewrite E, Hws in H.
    specialize (H (list_elem_of_here _ _)). cbn in H. lia. }
  rewrite boot_booting. unfold booting. rewrite Hws. cbn [length app Nat.add].
  split; st_simpl; unfold running; rewrite ?Hst, ?Hon; try constructor;
    try reflexivity;
    try (intros ? H; apply elem_of_nil in H; destruct H).
  intros w id Hw _. clear Hst Hon T. apply lookup_seq in Hw as [-> Hlt]. cbn [Nat.add].
  rewrite lookup_app_l by (rewrite length_fmap, length_seq; lia).
  rewrite list_lookup_fmap, lookup_seq_lt by lia. reflexivity.
Qed.

Lemma tracked_exit st lv w id code :
  wf st -> tracked st lv -> workers st !! w = Some id ->
  w ∈ started lv -> w ∉ gone lv ->
  tracked (on_exit id code st) (mkLives (onlined lv) (started lv) (w :: gone lv)).
Proof.
  intros W T Hw Hs Hg.
  pose proof (running_cons_gone w lv (tracked_started _ _ T) Hs Hg) as Hrun.
  pose proof (tracked_active _ _ T) as Hact.
  destruct (Z.eq_dec code 0%Z) as [->|Hc].
  - pose proof (on_exit_zero id st) as F0.
    split; cbn [onlined started gone];
      rewrite ?(frame_active _ _ F0), ?(frame_starting _ _ F0),
        ?(frame_workers _ _ F0), ?(frame_threads _ _ F0); st_simpl;
      try apply T.
    + lia.
    + intros w' id' Hw' Hg'. apply (tracked_slot _ _ T); [assumption|].
      intros H. apply Hg'. right. assumption.
  - rewrite on_exit_nonzero by assumption.
    destruct (start_fields id (set_active (active st - 1) st))
      as (Hws & Hth & _ & _ & _ & _ & _ & _ & _ & _ & Hsg & Ha & _).
    pose proof (wf_running _ _ _ W Hw) as Hi.
    destruct (wf_booted _ W Hi) as (_ & Hlen & _).
    pose proof (wf_slots _ W _ _ Hw) as Hid.
    split; cbn [onlined started gone]; rewrite ?Hws, ?Hth, ?Hsg, ?Ha; st_simpl;
      try apply T.
    + lia.
    + intros w' Hw'. rewrite length_app. pose proof (tracked_exist _ _ T w' Hw'). lia.
    + intros w' id' Hw' Hg'.
      apply not_elem_of_cons in Hg' as [Hne Hg'].
      apply lookup_app_Some in Hw' as [Hw'|[Hge Hw']].
      * pose proof (tracked_slot _ _ T _ _ Hw' Hg') as Hslot.
        destruct (decide (id' = id)) as [->|Hneq].
        -- pose proof (tracked_slot _ _ T _ _ Hw Hg) as Hslot'. congruence.
        -- rewrite array_set_lookup_ne by (auto; lia). assumption.
      * apply list_lookup_singleton_Some in Hw' as [H0 <-].
        replace w' with (length (workers st)) by lia. apply array_set_lookup.
    + intros w' Hw'. rewrite length_app.
      pose proof (tracked_online_exist _ _ T w' Hw'). lia.
Qed.

Lemma tracked_online st lv w id :
  tracked st lv -> workers st !! w = Some id -> w ∉ onlined lv ->
  tracked (on_online id st) (mkLives (w :: onlined lv) (started lv) (gone lv)).
Proof.
  intros T Hw Hn.
  destruct (on_online_fields id st) as (_ & _ & Hth & Hws & _ & Ha & _ & _ & Hsg).
  split; cbn [onlined started gone]; rewrite ?Hth, ?Hws, ?Ha, ?Hsg; try apply T.
  - rewrite (tracked_starting _ _ T). cbn [length]. lia.
  - constructor; [assumption | apply T].
  - intros w' Hw'. apply elem_of_cons in Hw' as [->|Hw'].
    + eapply lookup_lt_Some; eassumption.
    + apply (tracked_online_exist _ _ T); assumption.
Qed.

Lemma tracked_event st lv w id name :
  tracked st lv -> workers st !! w = Some id ->
  negb (name =? "started")%string
  || bool_decide ((w ∉ started lv) /\ (w ∉ gone lv)) = true ->
  tracked (ITC.event name st)
    (if (name =? "started")%string
     then mkLives (onlined lv) (w :: started lv) (gone lv) else lv).
Proof.
  intros T Hw Hal.
  destruct (event_fields name st) as (_ & _ & Hth & Hws & _ & _ & _ & Hsg & Ha).
  destruct (name =? "started")%string.
  - cbn [negb orb] in Hal. apply bool_decide_eq_true in Hal as [Hs Hg].
    split; cbn [onlined started gone]; rewrite ?Hth, ?Hws, ?Ha, ?Hsg; try apply T.
    + rewrite running_cons_started by assumption. cbn [length].
      rewrite (tracked_active _ _ T). lia.
    + constructor; [assumption | apply T].
    + intros w' Hw'. apply elem_of_cons in Hw' as [->|Hw'].
      * eapply lookup_lt_Some; eassumption.
      * apply (tracked_exist _ _ T); assumption.
  - eapply tracked_same; eassumption.
Qed.

Lemma tracked_step st lv ev :
  wf st -> tracked st lv -> allowed st lv ev = true ->
  tracked (step st ev) (record st lv ev).
Proof.
  intros W T Hal. unfold step, record. unfold allowed in Hal.
  destruct (exited st); [assumption|].
  destruct ev as [|cfg|type e| |w code|w|w msg|t|p o].
  - destruct (initialization st); [|assumption].
    eapply tracked_same; [..|exact T]; reflexivity.
  - destruct (initialization st) eqn:Hi; [|assumption].
    destruct (logger st); [|assumption]. apply tracked_boot; assumption.
  - eapply tracked_frame; [apply frame_logError | assumption].
  - destruct (initialization st) eqn:Hi; [assumption|].
    eapply tracked_frame; [apply frame_stop, Hi | assumption].
  - apply bool_decide_eq_true in Hal as [Hs Hg].
    destruct (workers st !! w) as [id|] eqn:Hw; [|assumption].
    apply tracked_exit; assumption.
  - apply bool_decide_eq_true in Hal.
    destruct (workers st !! w) as [id|] eqn:Hw; [|assumption].
    eapply tracked_online; eassumption.
  - destruct (workers st !! w) as [id|] eqn:Hw; [|destruct msg; assumption].
    destruct msg; cbn [on_message].
    + eapply tracked_event; eassumption.
    + eapply tracked_frame; [apply frame_task | assumption].
    + eapply tracked_frame; [apply frame_invoke | assumption].
    + assumption.
  - destruct (timers st !! t) as [id|]; [|assumption].
    destruct (on_timeout_fields id t st) as (_ & _ & Hth & Hws & _ & Ha & _ & _ & Hsg).
    eapply tracked_same; eassumption.
  - destruct (awaiting st !! p) as [k|]; [|assumption].
    eapply tracked_frame; [|exact T].
    eapply frame_trans; [apply frame_set_awaiting | apply frame_resume].
Qed.

Lemma tracked_run evs st lv :
  wf st -> tracked st lv -> conforms st lv evs = true ->
  exists lv', tracked (run st evs) lv'.
Proof.
  revert st lv. induction evs as [|ev evs IH]; intros st lv W T Hc.
  - exists lv. assumption.
  - cbn [conforms] in Hc. apply andb_true_iff in Hc as [Hal Hc].
    apply (IH (step st ev) (record st lv ev));
      [apply wf_step, W | apply tracked_step; assumption | assumption].
Qed.

Lemma tracked_bounds st lv :
  wf st -> tracked st lv ->
  (0 <= active st <= Z.of_nat (count st))%Z
  /\ (0 <= starting st <= Z.of_nat (length (workers st)))%Z.
Proof.
  intros W T. rewrite (tracked_active _ _ T), (tracked_starting _ _ T).
  assert (Hrun : length (running lv) <= count st).
  { set (slot := fun w => default 0 (workers st !! w)).
    rewrite <- (length_fmap slot).
    assert (Hin : forall w, w ∈ running lv ->
                  exists id, workers st !! w = Some id /\ w ∉ gone lv).
    { intros w Hw. apply list_elem_of_filter in Hw as [Hg Hs].
      pose proof (tracked_exist _ _ T w Hs) as Hlt.
      apply lookup_lt_is_Some in Hlt as [id Hid]. eauto. }
    apply NoDup_bounded_length.
    - apply NoDup_fmap_2_strong; [|apply NoDup_filter, T].
      intros x y Hx Hy Hxy.
      destruct (Hin x Hx) as (ix & Hix & Hgx). destruct (Hin y Hy) as (iy & Hiy & Hgy).
      unfold slot in Hxy. rewrite Hix, Hiy in Hxy. cbn in Hxy. subst iy.
      pose proof (tracked_slot _ _ T _ _ Hix Hgx).
      pose proof (tracked_slot _ _ T _ _ Hiy Hgy). congruence.
    - intros id Hid. apply list_elem_of_fmap in Hid as (w & -> & Hw).
      destruct (Hin w Hw) as (id & Hid & _). unfold slot. rewrite Hid. cbn.
      eapply wf_slots; eassumption. }
  assert (Hon : length (onlined lv) <= length (workers st)).
  { apply NoDup_bounded_length; apply T. }
  lia.
Qed.

(** C4, amended: as long as every worker reports [started] at most once
    and not after its exit, exits at most once and only after it has
    reported [started], and comes online at most once, [active] stays
    between 0 and [count], and [starting] stays between 0 and the number of
    workers created so far, which is [count] until a worker is created
    again. *)
Theorem counters_bounded cwd evs :
  conforms (init cwd) born evs = true ->
  let st := run (init cwd) evs in
  (0 <= active st <= Z.of_nat (count st))%Z
  /\ (0 <= starting st <= Z.of_nat (length (workers st)))%Z.
Proof.
  intros Hc st.
  destruct (tracked_run evs (init cwd) born (wf_init cwd) (tracked_init cwd) Hc)
    as [lv T].
  apply (tracked_bounds st lv); [apply wf_run, wf_init | exact T].
Qed.

(** ** Counterexamples *)

(** C2, counterexample: worker 0 asks for an exclusive worker and is given
    worker 2, to which the request is forwarded.  A [done] that then comes
    from worker 0 calls [pool.release] with worker 0, the sender, and not
    with worker 2: the pool throws, the rejection is printed, and worker 2
    stays captured.  A [done] from worker 2 releases worker 2, again the
    sender. *)
Lemma invoke_done_counterexample :
  let st := granted7 in
  log st = [NewWorker 0 0; NewWorker 1 1; NewWorker 2 2; PoolAdd 2;
            PoolCapture 0; PostMessage 2 request7 [7]]
  /\ captured st = [2]
  /\ (exists line,
        String.prefix
          "unhandledRejection error: Error: Pool: release unexpected item" line
        = true
        /\ log (step st (EvMessage 0 done7))
           = log st ++ [PoolRelease 0; ConsoleError line])
  /\ (PoolRelease 2 ∉ log (step st (EvMessage 0 done7)))
  /\ captured (step st (EvMessage 0 done7)) = [2]
  /\ log (step st (EvMessage 2 done7)) = log st ++ [PoolRelease 2]
  /\ captured (step st (EvMessage 2 done7)) = [].
Proof.
  cbv zeta. split; [vm_compute; reflexivity|]. split; [vm_compute; reflexivity|].
  split; [eexists; split; [|vm_compute; reflexivity]; vm_compute; reflexivity|].
  split; [|repeat split; vm_compute; reflexivity].
  vm_compute. intros H.
  repeat (apply elem_of_cons in H as [H|H]; [discriminate|]).
  inversion H.
Qed.


(** C4, counterexample: the only worker comes online, exits with code 1
    before it has reported [started], and the worker created in its place
    comes online.  [active] is -1 and [starting] is 2, with [count] 1. *)
Lemma counters_counterexample :
  let st := run (up scheduler_only) [EvOnline 0; EvExit 0 1; EvOnline 1] in
  count st = 1 /\ active st = (-1)%Z /\ starting st = 2%Z
  /\ ~ ((0 <= active st <= Z.of_nat (count st))%Z
        /\ (0 <= starting st <= Z.of_nat (count st))%Z).
Proof.
  cbv zeta. split; [vm_compute; reflexivity|]. split; [vm_compute; reflexivity|].
  split; [vm_compute; reflexivity|].
  vm_compute. intros [[H _] _]. apply H. reflexivity.
Qed.

(** C7, counterexample: of two workers, that of slot 1 comes online last
    and reports [started]; that of slot 0 never does.  The deadline fires
    with [active] 1 of 2, and the warning names worker 1. *)
Lemma startup_deadline_counterexample :
  let st := run (up one_port)
              [EvOnline 0; EvOnline 1; EvMessage 1 (MEvent "started");
               EvTimeout 0] in
  workers st = [0; 1] /\ count st = 2 /\ active st = 1%Z
  /\ warnings (log st) = ["Worker 1 initialization timeout"%string].
Proof. cbv zeta. repeat split; vm_compute; reflexivity. Qed.

(** C10, counterexample: a worker exits with code 0 before it has reported
    [started].  When it is the worker of slot 0 and no worker has started,
    [exit('Application server stopped')] runs and the process ends with
    code 1 once the logger has closed; when it leaves [active] at 0, the
    process ends with code 0 at once. *)
Lemma exit_unanswered_counterexample :
  let st := up scheduler_only in
  workers st !! 0 = Some 0
  /\ log (step st (EvExit 0 0))
     = log st ++ [ConsoleError "Application server stopped"; LoggerClose 0]
  /\ exited (run st [EvExit 0 0; EvSettle 0 (Fulfilled None)]) = Some 1%Z
  /\ exited (run (up one_port) [EvMessage 1 (MEvent "started"); EvExit 0 0])
     = Some 0%Z.
Proof. cbv zeta. repeat split; vm_compute; reflexivity. Qed.

(** ** The theorems at sample runs *)

Lemma invoke_request_witness :
  exited (up one_port_one_pool) = None
  /\ is_Some (workers (up one_port_one_pool) !! 0)
  /\ log (step (up one_port_one_pool) (EvMessage 0 request7))
     = log (up one_port_one_pool)
       ++ [PoolCapture (nextPromise (up one_port_one_pool))].
Proof.
  assert (H1 : exited (up one_port_one_pool) = None) by (vm_compute; reflexivity).
  assert (H2 : is_Some (workers (up one_port_one_pool) !! 0))
    by (exists 0; vm_compute; reflexivity).
  split; [exact H1|]. split; [exact H2|].
  exact (proj1 (invoke_request (up one_port_one_pool) 0 7 true 0 H1 H2)).
Defined.

Lemma invoke_done_witness :
  reachable granted7
  /\ exited granted7 = None
  /\ is_Some (workers granted7 !! 2)
  /\ step granted7 (EvMessage 2 done7)
     = set_captured (filter (fun w => w <> 2) (captured granted7))
         (emit (PoolRelease 2) granted7).
Proof.
  assert (R : reachable granted7)
    by (exists "/srv/app"%string,
          [EvLoggerCreated; EvBoot one_port_one_pool;
           EvMessage 0 request7; EvSettle 0 (Fulfilled (Some 2))];
        vm_compute; reflexivity).
  assert (H1 : exited granted7 = None) by (vm_compute; reflexivity).
  assert (H2 : is_Some (workers granted7 !! 2))
    by (exists 2; vm_compute; reflexivity).
  assert (H3 : 2 ∈ poolItems granted7).
  { replace (poolItems granted7) with [2] by (vm_compute; reflexivity).
    apply list_elem_of_here. }
  assert (H4 : 2 ∈ captured granted7).
  { replace (captured granted7) with [2] by (vm_compute; reflexivity).
    apply list_elem_of_here. }
  split; [exact R|]. split; [exact H1|]. split; [exact H2|].
  destruct (invoke_done granted7 2 7 true 0 R H1 H2) as (_ & Hrel & _).
  exact (proj1 (Hrel eq_refl H3 H4)).
Defined.

Lemma worker_exit_witness :
  exited (up one_port_one_pool) = None
  /\ workers (up one_port_one_pool) !! 2 = Some 2
  /\ active (step (up one_port_one_pool) (EvExit 2 7))
     = (active (up one_port_one_pool) - 1)%Z
  /\ spawned (log (step (up one_port_one_pool) (EvExit 2 7)))
     = spawned (log (up one_port_one_pool)) ++ [2].
Proof.
  assert (H1 : exited (up one_port_one_pool) = None) by (vm_compute; reflexivity).
  assert (H2 : workers (up one_port_one_pool) !! 2 = Some 2)
    by (vm_compute; reflexivity).
  split; [exact H1|]. split; [exact H2|].
  destruct (worker_exit (up one_port_one_pool) 2 2 7 H1 H2) as (Ha & Hnz & _).
  split; [exact Ha|]. apply Hnz. discriminate.
Defined.

Lemma counters_bounded_witness :
  conforms (init "/srv/app") born orderly_run = true
  /\ (0 <= active (run (init "/srv/app") orderly_run)
      <= Z.of_nat (count (run (init "/srv/app") orderly_run)))%Z
  /\ (0 <= starting (run (init "/srv/app") orderly_run)
      <= Z.of_nat (length (workers (run (init "/srv/app") orderly_run))))%Z.
Proof.
  assert (H : conforms (init "/srv/app") born orderly_run = true)
    by (vm_compute; reflexivity).
  split; [exact H|].
  exact (counters_bounded "/srv/app" orderly_run H).
Defined.

Lemma shutdown_witness :
  reachable (up one_port_one_pool)
  /\ exited (up one_port_one_pool) = None
  /\ initialization (up one_port_one_pool) = false
  /\ finalization (step (up one_port_one_pool) EvStop) = true
  /\ awaiting (step (up one_port_one_pool) EvStop)
       !! nextPromise (up one_port_one_pool) = Some KStop.
Proof.
  assert (H1 : exited (up one_port_one_pool) = None) by (vm_compute; reflexivity).
  assert (H2 : initialization (up one_port_one_pool) = false)
    by (vm_compute; reflexivity).
  assert (R : reachable (up one_port_one_pool))
    by (exists "/srv/app"%string, [EvLoggerCreated; EvBoot one_port_one_pool];
        reflexivity).
  split; [exact R|]. split; [exact H1|]. split; [exact H2|].
  destruct (shutdown (up one_port_one_pool) R H1 H2) as (Hf & _ & Ha & _).
  split; [exact Hf | exact Ha].
Defined.

Lemma startup_deadline_witness :
  reachable one_online
  /\ exited one_online = None
  /\ workers one_online !! 1 = Some 1
  /\ (starting one_online + 1)%Z = Z.of_nat (count one_online)
  /\ log (step one_online (EvOnline 1))
     = log one_online
       ++ [SetTimeout (nextTimer one_online) 1 (timeoutStart one_online)]
  /\ timers (step one_online (EvOnline 1)) = {[nextTimer one_online := 1]}.
Proof.
  assert (R : reachable one_online).
  { exists "/srv/app"%string, [EvLoggerCreated; EvBoot one_port; EvOnline 0].
    vm_compute. reflexivity. }
  assert (H1 : exited one_online = None) by (vm_compute; reflexivity).
  assert (H2 : workers one_online !! 1 = Some 1) by (vm_compute; reflexivity).
  assert (H3 : (starting one_online + 1)%Z = Z.of_nat (count one_online))
    by (vm_compute; reflexivity).
  split; [exact R|]. split; [exact H1|]. split; [exact H2|]. split; [exact H3|].
  destruct (startup_deadline one_online 1 1 R H1 H2 H3) as (Hl & Ht & _).
  split; [exact Hl | exact Ht].
Defined.


Lemma pool_grows_witness :
  reachable (up one_port_one_pool)
  /\ exited (up one_port_one_pool) = None
  /\ workers (up one_port_one_pool) !! 2 = Some 2
  /\ schedulerId (up one_port_one_pool) < 2
  /\ poolItems (step (up one_port_one_pool) (EvExit 2 1))
     = poolItems (up one_port_one_pool)
       ++ [length (workers (up one_port_one_pool))].
Proof.
  assert (H1 : exited (up one_port_one_pool) = None) by (vm_compute; reflexivity).
  assert (H2 : workers (up one_port_one_pool) !! 2 = Some 2)
    by (vm_compute; reflexivity).
  assert (H3 : schedulerId (up one_port_one_pool) < 2) by (vm_compute; lia).
  assert (R : reachable (up one_port_one_pool))
    by (exists "/srv/app"%string, [EvLoggerCreated; EvBoot one_port_one_pool];
        reflexivity).
  split; [exact R|]. split; [exact H1|]. split; [exact H2|].
  split; [exact H3|].
  destruct (pool_grows (up one_port_one_pool) 2 2 1 R H1 H2 H3)
    as (_ & _ & _ & Hp & _); [discriminate|].
  exact Hp.
Defined.

Lemma exit_unanswered_witness :
  let st := run (init "/srv/app")
              [EvLoggerCreated; EvBoot one_port_one_pool;
               EvMessage 0 (MEvent "started"); EvMessage 1 (MEvent "started");
               EvMessage 2 (MEvent "started")] in
  exited st = None
  /\ workers st !! 2 = Some 2
  /\ (active st - 1)%Z <> 0%Z
  /\ ~ ((active st - 1 < 0)%Z /\ 2 = 0)
  /\ step st (EvExit 2 0) = set_active (active st - 1) st
  /\ NoDup (exits ([EvLoggerCreated; EvBoot one_port_one_pool;
                    EvMessage 0 (MEvent "started");
                    EvMessage 1 (MEvent "started");
                    EvMessage 2 (MEvent "started")]
                   ++ EvExit 2 0 :: [EvExit 1 3; EvOnline 3]))
  /\ threads (run (step st (EvExit 2 0)) [EvExit 1 3; EvOnline 3]) !! 2
     = Some (Some 2).
Proof.
  cbv zeta.
  set (evs := [EvLoggerCreated; EvBoot one_port_one_pool;
               EvMessage 0 (MEvent "started"); EvMessage 1 (MEvent "started");
               EvMessage 2 (MEvent "started")]).
  assert (H1 : exited (run (init "/srv/app") evs) = None)
    by (vm_compute; reflexivity).
  assert (H2 : workers (run (init "/srv/app") evs) !! 2 = Some 2)
    by (vm_compute; reflexivity).
  assert (H3 : (active (run (init "/srv/app") evs) - 1)%Z <> 0%Z)
    by (vm_compute; discriminate).
  assert (H4 : ~ ((active (run (init "/srv/app") evs) - 1 < 0)%Z /\ 2 = 0))
    by (intros [_ H]; discriminate H).
  assert (H5 : NoDup (exits (evs ++ EvExit 2 0 :: [EvExit 1 3; EvOnline 3]))).
  { vm_compute. apply NoDup_cons. split; [|apply NoDup_singleton].
    intros H. apply list_elem_of_singleton in H. discriminate H. }
  split; [exact H1|]. split; [exact H2|]. split; [exact H3|]. split; [exact H4|].
  destruct (exit_unanswered "/srv/app" evs 2 2 H1 H2 H3 H4)
    as (Hs & _ & _ & Hlast).
  split; [exact Hs|]. split; [exact H5|].
  exact (proj1 (Hlast [EvExit 1 3; EvOnline 3] H5)).
Defined.

(** * Beyond the claims *)

(** ** Steps that add routine effects *)

Lemma mild_refl st : mild st st.
Proof.
  split; auto. exists []. rewrite app_nil_r. split; [reflexivity | constructor].
Qed.

Lemma mild_trans st1 st2 st3 : mild st1 st2 -> mild st2 st3 -> mild st1 st3.
Proof.
  intros [(n1 & L1 & Q1) F1 E1] [(n2 & L2 & Q2) F2 E2]. split.
  - exists (n1 ++ n2). rewrite L2, L1, app_assoc. split; [reflexivity|].
    apply Forall_app. split; assumption.
  - auto.
  - destruct E2 as [E2|E2]; [rewrite E2; exact E1 | right; exact E2].
Qed.

(** A step that only adds routine effects to the log. *)
Lemma mild_logged st st' new :
  log st' = log st ++ new -> Forall routine new ->
  finalization st' = finalization st -> exited st' = exited st ->
  mild st st'.
Proof.
  intros L Q F E. split; [exists new; auto | congruence | left; exact E].
Qed.

Lemma mild_emit e st : routine e -> mild st (emit e st).
Proof.
  intros He. apply (mild_logged _ _ [e]); try reflexivity.
  constructor; [assumption | constructor].
Qed.

Lemma mild_process_exit st : mild st (process_exit 1 st).
Proof.
  split; st_simpl; auto.
  exists [ProcessExit 1]. split; [reflexivity | repeat constructor].
Qed.

Lemma mild_promise_await mk k st :
  (forall p, routine (mk p)) ->
  mild st (await (promise mk st).1 k (promise mk st).2).
Proof.
  intros Hmk. apply (mild_logged _ _ [mk (nextPromise st)]); try reflexivity.
  constructor; [apply Hmk | constructor].
Qed.

Lemma mild_exit msg st : mild st (exit msg st).
Proof.
  unfold exit. eapply mild_trans; [eapply (mild_emit (ConsoleError _)); exact I|].
  match goal with |- context [if ?b then _ else _] => destruct b end.
  - apply (mild_promise_await LoggerClose KExit). intros; exact I.
  - apply mild_process_exit.
Qed.

Lemma mild_logError type e st : mild st (logError type e st).
Proof.
  unfold logError. eapply mild_trans; [eapply (mild_emit (ConsoleError _)); exact I|].
  st_simpl. destruct (finalization st); [apply mild_refl|].
  destruct (initialization st); [apply mild_exit | apply mild_refl].
Qed.

Lemma mild_post_stop ws st : mild st (post_stop ws st).2.
Proof.
  revert st. induction ws as [|[w|] ws IH]; intros st; cbn [post_stop snd].
  - apply mild_refl.
  - eapply mild_trans; [eapply (mild_emit (PostMessage _ _ _)); exact I | apply IH].
  - apply mild_refl.
Qed.

(** A step that leaves the log alone. *)
Lemma mild_silent st st' :
  log st' = log st ->
  (finalization st = true -> finalization st' = true) ->
  exited st' = exited st -> mild st st'.
Proof.
  intros L F E. split; [|exact F | left; exact E].
  exists []. rewrite app_nil_r. split; [exact L | constructor].
Qed.

Lemma mild_stop st : mild st (stop st).
Proof.
  assert (M0 : mild st (set_finalization true st))
    by (apply mild_silent; auto).
  unfold stop. st_simpl.
  destruct (logger st);
    [|eapply mild_trans; [exact M0 | apply mild_logError]].
  match goal with
  | |- context [post_stop ?ws ?s] =>
      assert (M1 : mild st s);
      [|pose proof (mild_post_stop ws s) as M2;
        destruct (post_stop ws s) as [ok st2]]
  end.
  { eapply mild_trans; [exact M0|].
    apply (mild_logged _ _ [LoggerClose (nextPromise st)]); try reflexivity.
    repeat constructor. }
  cbn [snd] in M2.
  eapply mild_trans; [exact M1|]. eapply mild_trans; [exact M2|].
  destruct ok; [|apply mild_logError].
  apply mild_silent; auto.
Qed.

Lemma mild_settled exclusive o st : mild st (Pool.settled exclusive o st).
Proof.
  unfold Pool.settled. destruct o as [[item|]|e]; try apply mild_refl.
  destruct exclusive; [apply mild_silent; auto | apply mild_refl].
Qed.

Lemma mild_release item st : mild st (Pool.release item st).2.
Proof.
  unfold Pool.release. st_simpl.
  split_tests; cbn [snd];
    apply (mild_logged _ _ [PoolRelease item]); try reflexivity;
    repeat constructor.
Qed.

Lemma mild_resume k o st : mild st (resume k o st).
Proof.
  destruct k as [| |msg]; cbn [resume].
  - destruct o; [apply mild_process_exit | apply mild_logError].
  - destruct o; [apply mild_refl | apply mild_logError].
  - destruct msg as [| |name port exclusive payload|]; try apply mild_refl.
    apply (mild_trans _ (Pool.settled exclusive o st)); [apply mild_settled|].
    unfold ITC.invoke_resume.
    destruct o as [[next|]|e];
      first [eapply (mild_emit (PostMessage _ _ _)); exact I
            | apply mild_refl
            | eapply (mild_emit (PortPostError _ _)); exact I].
Qed.

Lemma mild_task msg port st : mild st (ITC.task msg port st).
Proof.
  unfold ITC.task. destruct (scheduler st).
  - eapply (mild_emit (PostMessage _ _ _)). exact I.
  - apply mild_logError.
Qed.

Lemma mild_invoke worker msg name exclusive st :
  mild st (ITC.invoke worker msg name exclusive st).
Proof.
  unfold ITC.invoke. destruct (name =? "done")%string.
  { destruct exclusive; [|apply mild_refl].
    pose proof (mild_release worker st) as M.
    destruct (Pool.release worker st) as [[e|] st1]; cbn [snd] in M;
      [eapply mild_trans; [exact M | apply mild_logError] | exact M]. }
  destruct (negb (name =? "request")%string); [apply mild_refl|].
  apply (mild_promise_await (if exclusive then PoolCapture else PoolNext)).
  intros; destruct exclusive; exact I.
Qed.

Lemma armed_app es1 es2 : armed (es1 ++ es2) = armed es1 + armed es2.
Proof. unfold armed. rewrite omap_app, length_app. reflexivity. Qed.

Lemma armed_routine es : Forall routine es -> armed es = 0.
Proof.
  induction 1 as [|e es He _ IH]; [reflexivity|].
  change (e :: es) with ([e] ++ es). rewrite armed_app, IH.
  destruct e; try destruct He; reflexivity.
Qed.

Lemma armed_mild st st' : mild st st' -> armed (log st') = armed (log st).
Proof.
  intros [(new & -> & Q) _ _]. rewrite armed_app, (armed_routine new) by assumption. lia.
Qed.

(** ** Further invariants *)

Lemma more_init cwd : wf_more (init cwd).
Proof.
  split; cbn; try discriminate; try reflexivity; try constructor.
  intros w H. inversion H.
Qed.

Lemma more_frame st st' :
  wf_more st -> frame st st' -> mild st st' -> exited st = None -> wf_more st'.
Proof.
  intros M F Mi Hex.
  split;
    rewrite ?(frame_initialization _ _ F), ?(frame_scheduler _ _ F),
      ?(frame_threads _ _ F), ?(frame_schedulerId _ _ F),
      ?(frame_spawned _ _ F), ?(frame_workers _ _ F), ?(frame_poolItems _ _ F),
      ?(frame_starting _ _ F), ?(frame_count _ _ F), ?(armed_mild _ _ Mi);
    try apply M.
  intros code Hc. destruct (mild_exited _ _ Mi) as [E|E]; rewrite E in Hc.
  - congruence.
  - right. congruence.
Qed.

Lemma more_set_active v st :
  wf_more st -> exited st = None -> wf_more (set_active v st).
Proof.
  intros M Hex. split; st_simpl; try apply M. intros code Hc. congruence.
Qed.

Lemma armed_start_effects sid w id : armed (start_effects sid w id) = 0.
Proof. unfold start_effects. destruct (sid <? id)%nat; reflexivity. Qed.

Lemma armed_boot_effects sid base ids : armed (boot_effects sid base ids) = 0.
Proof.
  unfold boot_effects. induction ids as [|id ids IH]; [reflexivity|].
  cbn [flat_map]. rewrite armed_app, armed_start_effects, IH. reflexivity.
Qed.

Lemma more_start id st :
  wf st -> wf_more st -> initialization st = false -> id < count st ->
  exited st = None -> wf_more (start id st).
Proof.
  intros W M Hi Hid Hex.
  destruct (start_fields id st)
    as (Hws & Hth & Hpi & Hlog & Hsch & Hini & _ & _ & Hc & Hs & Hsg & Ha & _ & _ & Hexd & _).
  destruct (wf_booted _ W Hi) as (_ & Hlen & Hsid).
  split; rewrite ?Hini, ?Hws, ?Hth, ?Hpi, ?Hsch, ?Hc, ?Hs, ?Hsg, ?Ha, ?Hexd.
  - intros _. destruct (more_scheduler _ M Hi) as (s & Hs1 & Hs2).
    destruct (Nat.eqb_spec id (schedulerId st)) as [->|Hne].
    + eexists. split; [reflexivity | apply array_set_lookup].
    + exists s. split; [assumption|].
      rewrite array_set_lookup_ne by (auto; lia). assumption.
  - rewrite Hlog, spawned_app, spawned_start_effects, (more_logged _ M). reflexivity.
  - intros id' w Hl. destruct (decide (id' = id)) as [->|Hne].
    + rewrite array_set_lookup in Hl. inversion Hl; subst w. split.
      * rewrite lookup_app_r, Nat.sub_diag by lia. reflexivity.
      * intros w' Hw'. apply lookup_lt_Some in Hw'. rewrite length_app in Hw'.
        cbn in Hw'. lia.
    + rewrite array_set_lookup_ne in Hl by (auto; lia).
      destruct (more_latest _ M _ _ Hl) as [H1 H2]. split.
      * apply lookup_app_l_Some. assumption.
      * intros w' Hw'. apply lookup_app_Some in Hw' as [Hw'|[_ Hw']]; [auto|].
        apply list_lookup_singleton_Some in Hw' as [_ Hw']. congruence.
  - intros w Hw. apply elem_of_app in Hw as [Hw|Hw].
    + destruct (more_pool _ M _ Hw) as (id' & H1 & H2).
      exists id'. split; [apply lookup_app_l_Some; assumption | assumption].
    + destruct (Nat.ltb_spec (schedulerId st) id) as [Hlt|Hge];
        [|inversion Hw].
      apply list_elem_of_singleton in Hw as ->. exists id. split; [|assumption].
      rewrite lookup_app_r, Nat.sub_diag by lia. reflexivity.
  - apply NoDup_app. split; [apply M|]. split.
    + intros w Hw Hw'. destruct (more_pool _ M _ Hw) as (id' & H1 & _).
      apply lookup_lt_Some in H1.
      destruct (schedulerId st <? id)%nat; [|inversion Hw'].
      apply list_elem_of_singleton in Hw'. lia.
    + destruct (schedulerId st <? id)%nat; [apply NoDup_singleton | constructor].
  - rewrite Hlog, armed_app, armed_start_effects, (more_armed _ M), Hi. lia.
  - intros code Hc'. congruence.
Qed.

Lemma more_boot cfg st :
  wf st -> wf_more st -> initialization st = true -> exited st = None ->
  wf_more (boot cfg st).
Proof.
  intros W M Hi Hex. destruct (wf_pre _ W Hi) as (Hws & _).
  pose proof (schedulerId_lt_count cfg) as Hsid.
  pose proof (more_armed _ M) as Harm. rewrite Hi in Harm.
  pose proof (more_logged _ M) as Hlogd. rewrite Hws in Hlogd.
  rewrite boot_booting. unfold booting. rewrite Hws. cbn [length app Nat.add].
  split; st_simpl; rewrite ?Nat.sub_diag; cbn [replicate]; rewrite ?app_nil_r.
  - intros _. rewrite (proj2 (Nat.ltb_lt _ _) Hsid). eexists. split; [reflexivity|].
    rewrite list_lookup_fmap, lookup_seq_lt by lia. reflexivity.
  - rewrite spawned_app, spawned_boot_effects, Hlogd. reflexivity.
  - intros id w Hl. rewrite list_lookup_fmap in Hl.
    destruct (seq 0 (Population.count cfg) !! id) as [x|] eqn:E; [|discriminate].
    apply lookup_seq in E as [-> Hlt]. cbn in Hl. inversion Hl; subst w.
    split; [apply lookup_seq_lt; assumption|].
    intros w' Hw'. apply lookup_seq in Hw' as [Hw' _]. cbn in Hw'. lia.
  - intros w Hw. apply elem_of_seq in Hw. exists w. split; [|lia].
    apply lookup_seq_lt. lia.
  - apply NoDup_seq.
  - rewrite armed_app, armed_boot_effects, Harm.
    destruct (Z.ltb_spec 0 (Z.of_nat (Population.count cfg))); [reflexivity | lia].
  - intros code Hc. congruence.
Qed.

Lemma armed_snoc es e :
  armed (es ++ [e]) = armed es + match e with SetTimeout _ _ _ => 1 | _ => 0 end.
Proof. rewrite armed_app. destruct e; reflexivity. Qed.

Lemma more_on_exit id code st :
  wf st -> wf_more st -> initialization st = false -> id < count st ->
  exited st = None -> wf_more (on_exit id code st).
Proof.
  intros W M Hi Hid Hex.
  pose proof (more_set_active (active st - 1) st M Hex) as M'.
  pose proof (wf_set_active (active st - 1) st W) as W'.
  destruct (Z.eq_dec code 0%Z) as [->|Hc].
  - unfold on_exit. cbn [Z.eqb negb]. st_simpl.
    destruct (Z.eqb_spec (active st - 1) 0) as [H0|H0].
    + split; st_simpl; rewrite ?spawned_snoc, ?armed_snoc, ?app_nil_r, ?Nat.add_0_r;
        try apply M.
      intros code Hc. left. repeat split; congruence.
    + destruct ((active st - 1 <? 0)%Z && (id =? 0)%nat); [|exact M'].
      eapply more_frame; [exact M' | apply frame_exit | apply mild_exit | exact Hex].
  - rewrite on_exit_nonzero by assumption. apply more_start; assumption.
Qed.

Lemma more_on_online id st :
  wf_more st -> initialization st = false -> exited st = None ->
  wf_more (on_online id st).
Proof.
  intros M Hi Hex. pose proof (more_armed _ M) as Harm. rewrite Hi in Harm.
  unfold on_online. st_simpl.
  destruct (Z.eqb_spec (starting st + 1) (Z.of_nat (count st))) as [Heq|Hne];
    split; st_simpl; rewrite ?spawned_snoc, ?armed_snoc, ?app_nil_r;
    try apply M; try (intros code Hc; congruence).
  - rewrite Hi, Harm.
    destruct (Z.ltb_spec (starting st) (Z.of_nat (count st))); [|lia].
    destruct (Z.ltb_spec (starting st + 1) (Z.of_nat (count st))); [lia | reflexivity].
  - rewrite Hi, Harm.
    destruct (Z.ltb_spec (starting st) (Z.of_nat (count st)));
      destruct (Z.ltb_spec (starting st + 1) (Z.of_nat (count st)));
      try reflexivity; lia.
Qed.

Lemma more_event name st :
  wf_more st -> exited st = None -> wf_more (ITC.event name st).
Proof.
  intros M Hex. unfold ITC.event.
  split_tests; split; st_simpl; rewrite ?spawned_snoc, ?armed_snoc, ?app_nil_r,
    ?Nat.add_0_r; try apply M; intros code Hc; congruence.
Qed.

Lemma more_timeout t id st :
  wf_more st -> exited st = None ->
  wf_more (on_timeout id (set_timers (delete t (timers st)) st)).
Proof.
  intros M Hex. unfold on_timeout.
  split_tests; split; st_simpl; rewrite ?spawned_snoc, ?armed_snoc, ?app_nil_r,
    ?Nat.add_0_r; try apply M; intros code Hc; congruence.
Qed.

Lemma more_step st ev : wf st -> wf_more st -> wf_more (step st ev).
Proof.
  intros W M. unfold step. destruct (exited st) eqn:Hex; [assumption|].
  destruct ev as [|cfg|type e| |w code|w|w msg|t|p o].
  - destruct (initialization st) eqn:Hi; [|assumption].
    split; st_simpl; rewrite ?Hi; try apply M.
    + discriminate.
    + pose proof (more_armed _ M) as H. rewrite Hi in H. exact H.
    + intros code Hc. congruence.
  - destruct (initialization st) eqn:Hi; [|assumption].
    destruct (logger st); [|assumption]. apply more_boot; assumption.
  - eapply more_frame; [exact M | apply frame_logError | apply mild_logError | exact Hex].
  - destruct (initialization st) eqn:Hi; [assumption|].
    eapply more_frame; [exact M | apply frame_stop, Hi | apply mild_stop | exact Hex].
  - destruct (workers st !! w) as [id|] eqn:Hw; [|assumption].
    apply more_on_exit; try assumption.
    + eapply wf_running; eassumption.
    + eapply wf_slots; eassumption.
  - destruct (workers st !! w) as [id|] eqn:Hw; [|assumption].
    apply more_on_online; try assumption. eapply wf_running; eassumption.
  - destruct (workers st !! w) as [id|] eqn:Hw; [|assumption].
    destruct msg; cbn [on_message].
    + apply more_event; assumption.
    + eapply more_frame; [exact M | apply frame_task | apply mild_task | exact Hex].
    + eapply more_frame; [exact M | apply frame_invoke | apply mild_invoke | exact Hex].
    + assumption.
  - destruct (timers st !! t) as [id|] eqn:Ht; [|assumption].
    apply more_timeout; assumption.
  - destruct (awaiting st !! p) as [k|] eqn:Hp; [|assumption].
    assert (M' : wf_more (set_awaiting (delete p (awaiting st)) st)).
    { split; st_simpl; try apply M. }
    eapply more_frame; [exact M' | apply frame_resume | apply mild_resume | exact Hex].
Qed.

Lemma more_run st evs : wf st -> wf_more st -> wf_more (run st evs).
Proof.
  revert st. induction evs as [|ev evs IH]; intros st W M; [assumption|].
  apply IH; [apply wf_step, W | apply more_step; assumption].
Qed.

Lemma more_reachable st : reachable st -> wf_more st.
Proof. intros (cwd & evs & ->). apply more_run; [apply wf_init | apply more_init]. Qed.

(** ** What the invariants say *)

(** X1: a [task] message from any worker is posted as it is, with its port
    if it has one, to the worker held by [scheduler], which is always the
    worker in [threads[schedulerId]], the last one created for that slot:
    the reference follows the restarts of the scheduler and is never
    [null] when a message arrives. *)
Theorem task_forwarded st worker payload port :
  reachable st ->
  exited st = None ->
  is_Some (workers st !! worker) ->
  exists s,
    scheduler st = Some s
    /\ threads st !! schedulerId st = Some (Some s)
    /\ workers st !! s = Some (schedulerId st)
    /\ (forall w, workers st !! w = Some (schedulerId st) -> w <= s)
    /\ step st (EvMessage worker (MTask payload port))
       = emit (PostMessage s (MTask payload port) (option_list port)) st.
Proof.
  intros R Hex [id Hw].
  pose proof (wf_reachable _ R) as W. pose proof (more_reachable _ R) as M.
  pose proof (wf_running _ _ _ W Hw) as Hi.
  destruct (more_scheduler _ M Hi) as (s & Hs & Hth).
  destruct (more_latest _ M _ _ Hth) as [Hslot Hlast].
  exists s. repeat (split; [assumption|]).
  unfold step. rewrite Hex, Hw. cbn [on_message]. unfold ITC.task. rewrite Hs.
  reflexivity.
Qed.

(** X2: every call of [new Worker] is recorded, and once the main function
    has run, [threads] has [count] entries and each slot holds the worker
    created last for it. *)
Theorem slots_hold_latest st :
  reachable st ->
  initialization st = false ->
  workers st = spawned (log st)
  /\ length (threads st) = count st
  /\ forall id, id < count st ->
       exists w,
         threads st !! id = Some (Some w)
         /\ workers st !! w = Some id
         /\ forall w', workers st !! w' = Some id -> w' <= w.
Proof.
  intros R Hi.
  pose proof (wf_reachable _ R) as W. pose proof (more_reachable _ R) as M.
  destruct (wf_booted _ W Hi) as (_ & Hlen & _).
  split; [symmetry; apply M|]. split; [exact Hlen|].
  intros id Hid.
  destruct (threads st !! id) as [[w|]|] eqn:Hth.
  - exists w. split; [reflexivity|]. apply (more_latest _ M). assumption.
  - pose proof (wf_full _ W) as Hfull.
    rewrite Forall_lookup in Hfull. destruct (Hfull _ _ Hth) as [x Hx]. discriminate.
  - apply lookup_ge_None in Hth. lia.
Qed.

(** X3: the pool is given each worker once, and exactly the workers
    created for the slots above [schedulerId]: never a server, the balancer
    or the scheduler. *)
Theorem pool_members st :
  reachable st ->
  NoDup (poolItems st)
  /\ forall w,
       w ∈ poolItems st <->
       exists id, workers st !! w = Some id /\ schedulerId st < id.
Proof.
  intros R.
  pose proof (wf_reachable _ R) as W. pose proof (more_reachable _ R) as M.
  split; [apply M|]. intros w. split; [apply M|].
  intros (id & Hw & Hlt). eapply wf_pool; eassumption.
Qed.

(** X4: [setTimeout] is called at most once in the life of the process,
    and has been called exactly when the main function has run and
    [starting] has reached [count]; no warning is printed before it. *)
Theorem deadline_armed_once st :
  reachable st ->
  armed (log st) <= 1
  /\ (armed (log st) = 1 <->
      initialization st = false /\ (Z.of_nat (count st) <= starting st)%Z)
  /\ length (warnings (log st)) <= armed (log st).
Proof.
  intros R.
  pose proof (wf_reachable _ R) as W. pose proof (more_reachable _ R) as M.
  pose proof (more_armed _ M) as Harm.
  destruct (initialization st) eqn:Hi.
  - destruct (wf_pre _ W Hi) as (_ & _ & _ & _ & Hwarn).
    rewrite Harm, Hwarn. split; [lia|]. split; [|cbn; lia].
    split; [discriminate | intros [H _]; discriminate H].
  - destruct (Z.ltb_spec (starting st) (Z.of_nat (count st))) as [Hlt|Hge].
    + destruct (wf_idle _ W Hlt) as (_ & _ & Hwarn).
      rewrite Harm, Hwarn. split; [lia|]. split; [|cbn; lia].
      split; [discriminate | intros [_ H]; lia].
    + rewrite Harm. split; [lia|]. split; [|apply W].
      split; [auto | reflexivity].
Qed.

Lemma step_exited st ev code : exited st = Some code -> step st ev = st.
Proof. intros H. unfold step. rewrite H. reflexivity. Qed.

(** The one step that ends the process with code 0. *)
Lemma ended_by st ev code :
  exited st = None -> exited (step st ev) = Some code ->
  code = 1%Z
  \/ (code = 0%Z
      /\ exists w id,
           ev = EvExit w 0 /\ workers st !! w = Some id /\ active st = 1%Z
           /\ step st ev = process_exit 0 (set_active 0 st)).
Proof.
  intros Hex. unfold step. rewrite Hex.
  assert (M : forall st', mild st st' -> exited st' = Some code -> code = 1%Z).
  { intros st' M H. destruct (mild_exited _ _ M) as [E|E]; congruence. }
  assert (S : forall st', exited st' = exited st -> exited st' = Some code ->
               code = 1%Z) by (intros st' E H; congruence).
  destruct ev as [|cfg|type e| |w c|w|w msg|t|p o]; intros Hc.
  - left. destruct (initialization st); apply (S _ eq_refl Hc).
  - left. destruct (initialization st && logger st); [|apply (S _ eq_refl Hc)].
    rewrite boot_booting in Hc. apply (S _ eq_refl Hc).
  - left. apply (M _ (mild_logError type e st) Hc).
  - left. destruct (initialization st); [apply (S _ eq_refl Hc)|].
    apply (M _ (mild_stop st) Hc).
  - destruct (workers st !! w) as [id|] eqn:Hw; [|left; apply (S _ eq_refl Hc)].
    destruct (Z.eq_dec c 0%Z) as [->|Hne].
    + unfold on_exit in *. cbn [Z.eqb negb] in *. st_simpl. st_simpl in Hc.
      destruct (Z.eqb_spec (active st - 1) 0) as [Ha|Ha].
      * right. st_simpl in Hc. split; [congruence|].
        exists w, id. split; [reflexivity|]. split; [exact Hw|].
        split; [lia|]. rewrite Ha. reflexivity.
      * left. destruct ((active st - 1 <? 0)%Z && (id =? 0)%nat).
        -- apply (M (exit "Application server stopped"
                       (set_active (active st - 1) st))); [|exact Hc].
           eapply mild_trans; [|apply mild_exit]. apply mild_silent; auto.
        -- apply (S _ eq_refl Hc).
    + left. rewrite on_exit_nonzero in Hc by assumption.
      destruct (start_fields id (set_active (active st - 1) st))
        as (_ & _ & _ & _ & _ & _ & _ & _ & _ & _ & _ & _ & _ & _ & Hexd & _).
      apply (S _ Hexd Hc).
  - left. destruct (workers st !! w) as [id|]; [|apply (S _ eq_refl Hc)].
    destruct (on_online_fields id st) as (_ & _ & _ & _ & _ & _ & _ & E & _).
    apply (S _ E Hc).
  - left. destruct (workers st !! w) as [id|]; [|apply (S _ eq_refl Hc)].
    destruct msg; cbn [on_message] in Hc.
    + destruct (event_fields name st) as (_ & _ & _ & _ & _ & _ & E & _).
      apply (S _ E Hc).
    + apply (M _ (mild_task _ _ st) Hc).
    + apply (M _ (mild_invoke _ _ _ _ st) Hc).
    + apply (S _ eq_refl Hc).
  - left. destruct (timers st !! t) as [id|]; [|apply (S _ eq_refl Hc)].
    destruct (on_timeout_fields id t st) as (_ & _ & _ & _ & _ & _ & _ & E & _).
    apply (S _ E Hc).
  - left. destruct (awaiting st !! p) as [k|]; [|apply (S _ eq_refl Hc)].
    apply (M (resume k o (set_awaiting (delete p (awaiting st)) st))); [|exact Hc].
    eapply mild_trans; [|apply mild_resume]. apply mild_silent; auto.
Qed.

(** X5: the process ends with code 0 or with code 1, and with code 0 only
    from the [exit] listener of a worker: by the exit, with code 0, of a
    worker when [active] was 1, after the main function has run.  That
    event leaves [active] at 0 and calls [process.exit(0)]; what comes
    after it changes nothing. *)
Theorem exit_codes cwd evs code :
  exited (run (init cwd) evs) = Some code ->
  code = 1%Z
  \/ (code = 0%Z
      /\ active (run (init cwd) evs) = 0%Z
      /\ initialization (run (init cwd) evs) = false
      /\ exists evs1 w id evs2,
           evs = evs1 ++ EvExit w 0 :: evs2
           /\ exited (run (init cwd) evs1) = None
           /\ workers (run (init cwd) evs1) !! w = Some id
           /\ active (run (init cwd) evs1) = 1%Z
           /\ run (init cwd) evs
              = process_exit 0 (set_active 0 (run (init cwd) evs1))).
Proof.
  induction evs as [|ev evs IH] using rev_ind; intros Hc; [discriminate Hc|].
  rewrite run_snoc in *.
  destruct (exited (run (init cwd) evs)) as [c|] eqn:Hex.
  - rewrite (step_exited _ ev c Hex) in *.
    assert (Hc' : Some c = Some code) by (rewrite <- Hex; exact Hc).
    destruct (IH Hc') as [H1|(H0 & Ha & Hi & evs1 & w & id & evs2 & -> & H)];
      [left; exact H1|].
    right. split; [exact H0|]. split; [exact Ha|]. split; [exact Hi|].
    exists evs1, w, id, (evs2 ++ [ev]).
    split; [rewrite <- app_assoc; reflexivity | exact H].
  - destruct (ended_by _ ev code Hex Hc)
      as [H1|(H0 & w & id & -> & Hw & Ha & Hs)]; [left; exact H1|].
    right. split; [exact H0|]. rewrite Hs. st_simpl.
    split; [reflexivity|].
    split; [apply (wf_running _ w id); [apply wf_run, wf_init | exact Hw]|].
    exists evs, w, id, []. repeat split; assumption.
Qed.

(** ** Shutdown, once begun *)

Lemma on_exit_flags id code st :
  finalization (on_exit id code st) = finalization st
  /\ initialization (on_exit id code st) = initialization st
  /\ active (on_exit id code st) = (active st - 1)%Z
  /\ starting (on_exit id code st) = starting st.
Proof. unfold on_exit, start, exit. split_tests; repeat split; reflexivity. Qed.

Lemma finalization_step st ev :
  finalization st = true -> finalization (step st ev) = true.
Proof.
  intros Hf. unfold step. destruct (exited st); [assumption|].
  destruct ev as [|cfg|type e| |w code|w|w msg|t|p o].
  - destruct (initialization st); assumption.
  - destruct (initialization st && logger st); [|assumption].
    rewrite boot_booting. exact Hf.
  - apply (mild_finalization _ _ (mild_logError type e st) Hf).
  - destruct (initialization st); [assumption|].
    apply (mild_finalization _ _ (mild_stop st) Hf).
  - destruct (workers st !! w) as [id|]; [|assumption].
    destruct (on_exit_flags id code st) as (-> & _). assumption.
  - destruct (workers st !! w) as [id|]; [|assumption].
    unfold on_online. split_tests; assumption.
  - destruct (workers st !! w) as [id|]; [|assumption].
    destruct msg; cbn [on_message].
    + unfold ITC.event. split_tests; assumption.
    + apply (mild_finalization _ _ (mild_task _ _ st) Hf).
    + apply (mild_finalization _ _ (mild_invoke _ _ _ _ st) Hf).
    + assumption.
  - destruct (timers st !! t) as [id|]; [|assumption].
    unfold on_timeout. split_tests; assumption.
  - destruct (awaiting st !! p) as [k|]; [|assumption].
    apply (mild_finalization _ _ (mild_resume k o _)). assumption.
Qed.

Lemma finalization_run evs st :
  finalization st = true -> finalization (run st evs) = true.
Proof.
  revert st. induction evs as [|ev evs IH]; intros st Hf; [assumption|].
  apply (IH (step st ev)), finalization_step, Hf.
Qed.

Lemma stop_finalization st : finalization (stop st) = true.
Proof.
  unfold stop. st_simpl.
  destruct (logger st).
  - match goal with
    | |- context [post_stop ?ws ?s] =>
        pose proof (mild_finalization _ _ (mild_post_stop ws s) eq_refl) as Hp;
        destruct (post_stop ws s) as [ok st2]
    end.
    cbn [snd] in Hp. destruct ok; [exact Hp|].
    apply (mild_finalization _ _ (mild_logError _ _ st2) Hp).
  - apply (mild_finalization _ _ (mild_logError _ _ _)). reflexivity.
Qed.

(** X6: [finalization] is never cleared.  From the first call of [stop]
    on, whatever happens, an uncaught exception, a warning or an unhandled
    rejection is printed and has no other effect: it never ends the
    process. *)
Theorem errors_after_stop st evs type e :
  initialization st = false ->
  exited st = None ->
  let st' := run (step st EvStop) evs in
  finalization st' = true
  /\ (exited st' = None ->
      step st' (EvError type e) = emit (error_line type e) st').
Proof.
  intros Hi Hex st'.
  assert (Hf : finalization st' = true).
  { apply finalization_run. unfold step. rewrite Hex, Hi. apply stop_finalization. }
  split; [exact Hf|]. intros Hex'.
  unfold step. rewrite Hex'. unfold logError, error_line. st_simpl. rewrite Hf.
  reflexivity.
Qed.

(** ** The counters, whatever the workers do *)

Lemma account_step st lv ev :
  wf st ->
  active st = (Z.of_nat (length (started lv)) - Z.of_nat (length (gone lv)))%Z ->
  starting st = Z.of_nat (length (onlined lv)) ->
  (initialization st = true -> lv = born) ->
  let st' := step st ev in
  let lv' := record st lv ev in
  active st' = (Z.of_nat (length (started lv')) - Z.of_nat (length (gone lv')))%Z
  /\ starting st' = Z.of_nat (length (onlined lv'))
  /\ (initialization st' = true -> lv' = born).
Proof.
  intros W Ha Hs Hb st' lv'. subst st' lv'. unfold step, record.
  destruct (exited st) eqn:Hex; [auto|].
  assert (F : forall st', frame st st' ->
              active st' = (Z.of_nat (length (started lv))
                            - Z.of_nat (length (gone lv)))%Z
              /\ starting st' = Z.of_nat (length (onlined lv))
              /\ (initialization st' = true -> lv = born)).
  { intros st' F. rewrite (frame_active _ _ F), (frame_starting _ _ F),
      (frame_initialization _ _ F). auto. }
  destruct ev as [|cfg|type e| |w code|w|w msg|t|p o].
  - destruct (initialization st) eqn:Hi; [|apply F, frame_refl].
    st_simpl. rewrite Hi. auto.
  - destruct (initialization st) eqn:Hi; [|apply F, frame_refl].
    destruct (logger st); [|apply F, frame_refl]. cbn [andb].
    rewrite boot_booting, (Hb eq_refl). cbn. split; [reflexivity|].
    split; [reflexivity | discriminate].
  - apply F, frame_logError.
  - destruct (initialization st) eqn:Hi; [apply F, frame_refl|].
    apply F, frame_stop, Hi.
  - destruct (workers st !! w) as [id|] eqn:Hw; [|apply F, frame_refl].
    destruct (on_exit_flags id code st) as (_ & Hi' & Ha' & Hs').
    rewrite Hi', Ha', Hs'. cbn [started gone onlined length].
    split; [lia|]. split; [assumption|].
    intros Hi. rewrite (wf_running _ _ _ W Hw) in Hi. discriminate.
  - destruct (workers st !! w) as [id|] eqn:Hw; [|apply F, frame_refl].
    destruct (on_online_fields id st) as (Hi' & _ & _ & _ & _ & Ha' & _ & _ & Hs').
    rewrite Hi', Ha', Hs'. cbn [started gone onlined length].
    split; [assumption|]. split; [lia|].
    intros Hi. rewrite (wf_running _ _ _ W Hw) in Hi. discriminate.
  - destruct (workers st !! w) as [id|] eqn:Hw; [|destruct msg; apply F, frame_refl].
    destruct msg; cbn [on_message];
      [|apply F, frame_task | apply F, frame_invoke | apply F, frame_refl].
    destruct (event_fields name st) as (Hi' & _ & _ & _ & _ & _ & _ & Hs' & Ha').
    rewrite Hi', Ha', Hs'. destruct (name =? "started")%string; [|apply F, frame_refl].
    cbn [started gone onlined length]. split; [lia|]. split; [assumption|].
    intros Hi. rewrite (wf_running _ _ _ W Hw) in Hi. discriminate.
  - destruct (timers st !! t) as [id|]; [|apply F, frame_refl].
    destruct (on_timeout_fields id t st) as (Hi' & _ & _ & _ & _ & Ha' & _ & _ & Hs').
    rewrite Hi', Ha', Hs'. auto.
  - destruct (awaiting st !! p) as [k|]; [|apply F, frame_refl].
    apply F. eapply frame_trans; [apply frame_set_awaiting | apply frame_resume].
Qed.

Lemma account_run evs st lv :
  wf st ->
  active st = (Z.of_nat (length (started lv)) - Z.of_nat (length (gone lv)))%Z ->
  starting st = Z.of_nat (length (onlined lv)) ->
  (initialization st = true -> lv = born) ->
  active (run st evs)
  = (Z.of_nat (length (started (lives st lv evs)))
     - Z.of_nat (length (gone (lives st lv evs))))%Z
  /\ starting (run st evs) = Z.of_nat (length (onlined (lives st lv evs))).
Proof.
  revert st lv. induction evs as [|ev evs IH]; intros st lv W Ha Hs Hb; [auto|].
  destruct (account_step st lv ev W Ha Hs Hb) as (Ha' & Hs' & Hb').
  apply (IH (step st ev) (record st lv ev) (wf_step _ _ W) Ha' Hs' Hb').
Qed.

(** X7: after any events at all, [active] is the number of [started]
    messages handled less the number of [exit] events handled, and
    [starting] is the number of [online] events handled; nothing else
    changes either counter, and nothing keeps them within bounds. *)
Theorem counters_account cwd evs :
  let st := run (init cwd) evs in
  let lv := lives (init cwd) born evs in
  active st = (Z.of_nat (length (started lv)) - Z.of_nat (length (gone lv)))%Z
  /\ starting st = Z.of_nat (length (onlined lv)).
Proof.
  apply account_run; [apply wf_init | reflexivity | reflexivity | reflexivity].
Qed.

(** ** Workers that leave, workers that crash *)

Lemma leave_unanswered st w :
  exited st = None -> is_Some (workers st !! w) -> (1 < active st)%Z ->
  step st (EvExit w 0) = set_active (active st - 1) st.
Proof.
  intros Hex [id Hw] Ha. unfold step. rewrite Hex, Hw. unfold on_exit.
  cbn [Z.eqb negb]. st_simpl.
  destruct (Z.eqb_spec (active st - 1) 0); [lia|].
  destruct (Z.ltb_spec (active st - 1) 0); [lia|]. reflexivity.
Qed.

Lemma leave_run ws st :
  exited st = None ->
  Forall (fun w => is_Some (workers st !! w)) ws ->
  (Z.of_nat (length ws) < active st)%Z ->
  run st (leave ws) = set_active (active st - Z.of_nat (length ws)) st.
Proof.
  revert st. induction ws as [|w ws IH]; intros st Hex Hws Ha.
  - cbn [leave fmap list_fmap run foldl length Z.of_nat]. rewrite Z.sub_0_r.
    destruct st; reflexivity.
  - apply Forall_cons in Hws as [Hw Hws]. cbn [length] in Ha.
    cbn [leave fmap list_fmap run foldl].
    rewrite leave_unanswered by (auto; lia).
    change (foldl step ?s (list_fmap _ _ _ ws)) with (run s (leave ws)).
    rewrite IH; [|exact Hex | exact Hws | st_simpl; lia].
    st_simpl. cbn [length]. unfold set_active; st_simpl. f_equal. lia.
Qed.

(** X8: when as many workers as [active] counts exit with code 0, one
    after another, nothing happens but the decrement of [active] until the
    last of them exits; then the process ends with code 0.  No worker is
    created and nothing is printed. *)
Theorem clean_shutdown st ws w :
  exited st = None ->
  Forall (fun w => is_Some (workers st !! w)) (ws ++ [w]) ->
  active st = Z.of_nat (length (ws ++ [w])) ->
  run st (leave ws) = set_active 1 st
  /\ run st (leave (ws ++ [w])) = process_exit 0 (set_active 0 st).
Proof.
  intros Hex Hall Ha. rewrite length_app in Ha. cbn [length] in Ha.
  apply Forall_app in Hall as [Hws Hw]. apply Forall_cons in Hw as [[id Hw] _].
  assert (H1 : run st (leave ws) = set_active 1 st).
  { rewrite leave_run by (auto; lia). f_equal. lia. }
  split; [exact H1|].
  unfold leave. rewrite fmap_app. fold (leave ws). rewrite run_app, H1.
  cbn [fmap list_fmap run foldl]. unfold step. st_simpl. rewrite Hex, Hw.
  unfold on_exit. reflexivity.
Qed.

(** X9: a worker that exits with a non-zero code is replaced at once, and
    so is its replacement, and so on without end: after [n] such exits in
    a row the process is still running, [n] workers have been created for
    the slot, and [active] is [n] less. *)
Theorem crash_loop codes st w id :
  exited st = None ->
  workers st !! w = Some id ->
  Forall (fun code => code <> 0%Z) codes ->
  let st' := run st (crashes w (length (workers st)) codes) in
  exited st' = None
  /\ workers st' = workers st ++ replicate (length codes) id
  /\ spawned (log st') = spawned (log st) ++ replicate (length codes) id
  /\ active st' = (active st - Z.of_nat (length codes))%Z.
Proof.
  revert st w. induction codes as [|code codes IH]; intros st w Hex Hw Hcodes st'.
  - subst st'. cbn. rewrite !app_nil_r. repeat split; [assumption | lia].
  - apply Forall_cons in Hcodes as [Hc Hcodes].
    subst st'. cbn [crashes run foldl].
    set (st1 := step st (EvExit w code)).
    assert (Hs1 : st1 = start id (set_active (active st - 1) st)).
    { subst st1. unfold step. rewrite Hex, Hw. apply on_exit_nonzero, Hc. }
    destruct (start_fields id (set_active (active st - 1) st))
      as (Hws & _ & _ & Hlog & _ & _ & _ & _ & _ & _ & _ & Ha & _ & _ & Hexd & _).
    rewrite <- Hs1 in Hws, Hlog, Ha, Hexd.
    st_simpl in Hws. st_simpl in Hlog. st_simpl in Ha. st_simpl in Hexd.
    assert (Hnext : workers st1 !! length (workers st) = Some id).
    { rewrite Hws, lookup_app_r, Nat.sub_diag by lia. reflexivity. }
    assert (Hlen : S (length (workers st)) = length (workers st1)).
    { rewrite Hws, length_app. cbn. lia. }
    rewrite Hlen.
    destruct (IH st1 (length (workers st))) as (E1 & E2 & E3 & E4);
      [congruence | exact Hnext | exact Hcodes|].
    change (foldl step st1 ?evs) with (run st1 evs).
    rewrite E1, E2, E3, E4, Hws, Hlog, Ha, spawned_app, spawned_start_effects.
    cbn [length replicate]. rewrite <- !app_assoc. cbn [app].
    repeat split; lia.
Qed.

(** ** The validation of the configuration *)

Lemma emit_all_log es st : emit_all es st = set_log (log st ++ es) st.
Proof.
  revert st. induction es as [|e es IH]; intros st.
  - cbn. rewrite app_nil_r. destruct st; reflexivity.
  - cbn [emit_all foldl]. fold (emit_all es (emit e st)). rewrite IH. st_simpl.
    rewrite <- app_assoc. reflexivity.
Qed.

Lemma validate_loop_loads check sections ok st :
  forallb (loads check) sections = true ->
  validate_loop check sections ok st
  = (inr (ok && forallb (passes check) sections),
     emit_all (flat_map (report check) sections) st).
Proof.
  revert ok st. induction sections as [|s sections IH]; intros ok st Hl.
  - cbn. rewrite andb_true_r. reflexivity.
  - cbn [forallb] in Hl. apply andb_true_iff in Hl as [Hs Hl].
    cbn [validate_loop forallb flat_map]. unfold loads in Hs.
    unfold passes at 1, report at 1.
    destruct (check s) as [e|r]; [discriminate|].
    destruct (valid r).
    + rewrite IH by assumption. reflexivity.
    + rewrite IH by assumption. cbn [andb]. rewrite andb_false_r.
      unfold emit_all. rewrite foldl_app. reflexivity.
Qed.

Lemma report_passes check sections :
  forallb (passes check) sections = true ->
  flat_map (report check) sections = [].
Proof.
  induction sections as [|s sections IH]; [reflexivity|].
  cbn [forallb flat_map]. intros H. apply andb_true_iff in H as [Hs H].
  rewrite IH by assumption. unfold passes in Hs. unfold report.
  destruct (check s) as [e|r]; [discriminate|]. rewrite Hs. reflexivity.
Qed.

(** X10: when all schemas load, [validateConfig] checks every section,
    also after one has failed, and prints the errors of the sections that
    are not valid, section by section in the order of [CONFIG_SECTIONS],
    each with the file of the section; it does nothing more when all are
    valid and calls [exit()] once, at the end, when one is not. *)
Theorem validateConfig_report check st :
  forallb (loads check) CONFIG_SECTIONS = true ->
  validateConfig check st
  = (None,
     if forallb (passes check) CONFIG_SECTIONS then st
     else exit default_message
            (emit_all (flat_map (report check) CONFIG_SECTIONS) st)).
Proof.
  intros Hl. unfold validateConfig. rewrite validate_loop_loads by assumption.
  cbn [andb].
  destruct (forallb (passes check) CONFIG_SECTIONS) eqn:Hp; [|reflexivity].
  rewrite report_passes by assumption. reflexivity.
Qed.


(** ** An invocation the pool answers with [null] *)

(** X12: when the promise of the pool is fulfilled with [null], the
    request is dropped: nothing is posted to any worker and nothing is
    replied on the port of the request. *)
Theorem invoke_unanswered st worker port exclusive payload :
  exited st = None ->
  is_Some (workers st !! worker) ->
  let msg := MInvoke "request" port exclusive payload in
  let p := nextPromise st in
  let st' := step st (EvMessage worker msg) in
  forall evs,
    settles p evs = false ->
    let st2 := run st' evs in
    exited st2 = None ->
    step st2 (EvSettle p (Fulfilled None))
    = set_awaiting (delete p (awaiting st2)) st2.
Proof.
  intros Hex [id Hw] msg p st' evs Hevs st2 Hex2.
  assert (Hs : st' = await p (KInvoke msg)
                       (promise (if exclusive then PoolCapture else PoolNext) st).2).
  { subst st'. unfold step. rewrite Hex, Hw. reflexivity. }
  assert (Haw : awaiting st2 !! p = Some (KInvoke msg)).
  { apply keeps_run; [|rewrite Hs; st_simpl; apply lookup_insert_eq | assumption].
    rewrite Hs. st_simpl. subst p. lia. }
  unfold step. rewrite Hex2, Haw. reflexivity.
Qed.

Lemma validate_loop_fails check sections ok st :
  forallb (loads check) sections = false ->
  exists e,
    load_error check sections = Some e
    /\ validate_loop check sections ok st
       = (inl e, emit_all (flat_map (report check) (loaded check sections)) st).
Proof.
  revert ok st. induction sections as [|s sections IH]; intros ok st Hl;
    [discriminate|].
  cbn [forallb] in Hl. cbn [validate_loop load_error loaded].
  unfold loads in Hl at 1. unfold loads at 1.
  destruct (check s) as [e|r] eqn:Hs.
  - exists e. split; reflexivity.
  - cbn [andb] in Hl. cbn [flat_map]. unfold report at 1. rewrite Hs.
    destruct (valid r).
    + apply IH, Hl.
    + destruct (IH false (emit_all (section_lines s (errors r)) st) Hl)
        as (e & He & H).
      exists e. split; [exact He|].
      unfold emit_all in *. rewrite foldl_app. exact H.
Qed.

(** X13: when a schema does not load, [validateConfig] stops there, with
    the error of the load: the errors of the sections before it have been
    printed, the sections after it are not checked, and [exit()] is not
    called by it even when a section was not valid.  The rejection reaches
    [logError('initialization')], and the rest of the main function does
    not run: no worker is created and [initialization] is not cleared. *)
Theorem schema_not_loaded check cfg st :
  forallb (loads check) CONFIG_SECTIONS = false ->
  exists e,
    let st1 := emit_all (flat_map (report check) (loaded check CONFIG_SECTIONS)) st in
    load_error check CONFIG_SECTIONS = Some e
    /\ validateConfig check st = (Some e, st1)
    /\ main_tail check cfg st = logError "initialization" e st1
    /\ workers (main_tail check cfg st) = workers st
    /\ initialization (main_tail check cfg st) = initialization st.
Proof.
  intros Hl.
  destruct (validate_loop_fails check CONFIG_SECTIONS true st Hl) as (e & He & H).
  exists e. cbn zeta. unfold main_tail, validateConfig. rewrite H.
  split; [exact He|]. split; [reflexivity|]. split; [reflexivity|].
  match goal with
  | |- context [logError ?t e ?s] => pose proof (frame_logError t e s) as F
  end.
  rewrite (frame_workers _ _ F), (frame_initialization _ _ F), emit_all_log.
  split; reflexivity.
Qed.

(** ** Shutdown waits for the workers *)

Lemma calm_same st st' :
  calm st ->
  finalization st' = finalization st ->
  initialization st' = initialization st ->
  exited st' = exited st ->
  awaiting st' = awaiting st ->
  calm st'.
Proof.
  intros [Hf Hi Hex Hk] Ef Ei Ee Ea.
  split; rewrite ?Ef, ?Ei, ?Ee, ?Ea; assumption.
Qed.

Lemma calm_emit e st : calm st -> calm (emit e st).
Proof. intros C. apply (calm_same st); auto. Qed.

Lemma calm_logError type e st : calm st -> calm (logError type e st).
Proof.
  intros C. unfold logError. st_simpl. rewrite (calm_finalization _ C).
  apply calm_emit, C.
Qed.

Lemma calm_post_stop ws st : calm st -> calm (post_stop ws st).2.
Proof.
  revert st. induction ws as [|[w|] ws IH]; intros st C; cbn [post_stop snd];
    [assumption | | assumption].
  apply IH, calm_emit, C.
Qed.

Lemma calm_release item st : calm st -> calm (Pool.release item st).2.
Proof.
  intros C. unfold Pool.release. st_simpl.
  split_tests; cbn [snd]; apply (calm_same st); auto.
Qed.

Lemma calm_settled exclusive o st :
  calm st -> calm (Pool.settled exclusive o st).
Proof.
  intros C. unfold Pool.settled. destruct o as [[item|]|e]; try exact C.
  destruct exclusive; [apply (calm_same st); auto | exact C].
Qed.

Lemma calm_promise_await mk k st :
  k <> KExit -> calm st -> calm (await (promise mk st).1 k (promise mk st).2).
Proof.
  intros Hk [Hf Hi Hex Ha]. split; st_simpl; try assumption.
  intros p. destruct (decide (nextPromise st = p)) as [->|Hp].
  - rewrite lookup_insert_eq. congruence.
  - rewrite lookup_insert_ne by assumption. apply Ha.
Qed.

Lemma calm_stop st :
  initialization st = false -> exited st = None ->
  (forall p, awaiting st !! p <> Some KExit) ->
  calm (stop st).
Proof.
  intros Hi Hex Ha.
  assert (C : calm (set_finalization true st))
    by (split; st_simpl; first [reflexivity | assumption]).
  unfold stop. st_simpl. destruct (logger st); [|apply calm_logError, C].
  match goal with
  | |- context [post_stop ?ws ?s] =>
      assert (C1 : calm s) by (apply (calm_same _ _ C); reflexivity);
      pose proof (calm_post_stop ws s C1) as C2;
      pose proof (post_stop_awaiting ws s) as [Ea En];
      destruct (post_stop ws s) as [ok st2]
  end.
  cbn [snd] in C2, Ea, En. st_simpl in Ea. destruct ok; [|apply calm_logError, C2].
  destruct C2 as [Hf2 Hi2 Hex2 Ha2]. split; st_simpl; try assumption.
  intros p. destruct (decide (nextPromise st = p)) as [->|Hp].
  - rewrite lookup_insert_eq. congruence.
  - rewrite lookup_insert_ne by assumption. apply Ha2.
Qed.

Lemma calm_step st ev : calm st -> leaving ev = false -> calm (step st ev).
Proof.
  intros C Hev. pose proof C as [Hf Hi Hex Ha]. unfold step. rewrite Hex.
  destruct ev as [|cfg|type e| |w code|w|w msg|t|p o]; try discriminate Hev.
  - rewrite Hi. exact C.
  - rewrite Hi. exact C.
  - apply calm_logError, C.
  - rewrite Hi. apply calm_stop; assumption.
  - destruct (workers st !! w) as [id|]; [|exact C].
    apply (calm_same st); [exact C | | | |];
      unfold on_online; split_tests; reflexivity.
  - destruct (workers st !! w) as [id|]; [|exact C].
    destruct msg as [name|payload port|name port exclusive payload|type];
      cbn [on_message].
    + apply (calm_same st); [exact C | | | |];
        unfold ITC.event; split_tests; reflexivity.
    + unfold ITC.task. destruct (scheduler st);
        [apply calm_emit, C | apply calm_logError, C].
    + unfold ITC.invoke. destruct (name =? "done")%string.
      { destruct exclusive; [|exact C].
        pose proof (calm_release w st C) as C1.
        destruct (Pool.release w st) as [[e|] st1]; cbn [snd] in C1;
          [apply calm_logError, C1 | exact C1]. }
      destruct (negb (name =? "request")%string); [exact C|].
      apply (calm_promise_await
               (if exclusive then PoolCapture else PoolNext)); [discriminate | exact C].
    + exact C.
  - destruct (timers st !! t) as [id|]; [|exact C].
    apply (calm_same st); [exact C | | | |];
      unfold on_timeout; split_tests; reflexivity.
  - destruct (awaiting st !! p) as [k|] eqn:Hk; [|exact C].
    assert (C1 : calm (set_awaiting (delete p (awaiting st)) st)).
    { split; st_simpl; try assumption. intros q Hq.
      apply lookup_delete_Some in Hq as [_ Hq]. exact (Ha q Hq). }
    destruct k as [| |msg]; [destruct (Ha p Hk) | |]; cbn [resume].
    + destruct o; [exact C1 | apply calm_logError, C1].
    + destruct msg as [| |name port exclusive payload|]; try exact C1.
      pose proof (calm_settled exclusive o _ C1) as C2.
      unfold ITC.invoke_resume.
      destruct o as [[next|]|e]; repeat apply calm_emit; exact C2.
Qed.

Lemma calm_run evs st :
  calm st -> Forall (fun ev => leaving ev = false) evs -> calm (run st evs).
Proof.
  intros C H. revert st C. induction H as [|ev evs Hev _ IH]; intros st C;
    [exact C|].
  apply (IH (step st ev)), calm_step; assumption.
Qed.

(** X14: [stop] never ends the process, and neither does anything that
    follows it other than the exit of a worker.  When no call of [exit()]
    is waiting for the logger, the process that has been told to stop runs
    until a worker exits, whatever else happens: the close of the logger,
    errors, messages, the deadline, further signals. *)
Theorem stop_waits_for_workers st evs :
  initialization st = false ->
  exited st = None ->
  (forall p, awaiting st !! p <> Some KExit) ->
  Forall (fun ev => leaving ev = false) evs ->
  exited (run (step st EvStop) evs) = None.
Proof.
  intros Hi Hex Ha Hevs. apply calm_exited, calm_run; [|exact Hevs].
  unfold step. rewrite Hex, Hi. apply calm_stop; assumption.
Qed.

(** X15: the process that has been told to stop ends with code 0 as soon
    as the last of the workers counted by [active] has exited with code 0:
    it does not wait for the close of the logger, which [stop] is still
    awaiting, and prints nothing. *)
Theorem graceful_stop st ws w :
  reachable st ->
  exited st = None ->
  initialization st = false ->
  Forall (fun w => is_Some (workers st !! w)) (ws ++ [w]) ->
  active st = Z.of_nat (length (ws ++ [w])) ->
  let p := nextPromise st in
  let st' := run st (EvStop :: leave (ws ++ [w])) in
  exited st' = Some 0%Z
  /\ awaiting st' !! p = Some KStop
  /\ exists ts,
       threads st = Some <$> ts
       /\ log st' = log st ++ LoggerClose p :: stop_messages ts ++ [ProcessExit 0].
Proof.
  intros R Hex Hi Hall Ha p st'. subst p st'.
  pose proof (wf_reachable _ R) as W.
  destruct (wf_booted _ W Hi) as (Hl & _ & _).
  destruct (Forall_is_Some_fmap _ (wf_full _ W)) as [ts Hts].
  cbn [run foldl]. change (foldl step ?s ?evs) with (run s evs).
  assert (Hs : step st EvStop = stop st).
  { unfold step. rewrite Hex, Hi. reflexivity. }
  rewrite Hs. clear Hs.
  pose proof (frame_stop st Hi) as F.
  set (st1 := stop st) in *.
  assert (H1 : exited st1 = None
               /\ awaiting st1 !! nextPromise st = Some KStop
               /\ log st1 = log st ++ LoggerClose (nextPromise st) :: stop_messages ts).
  { subst st1. unfold stop. st_simpl. rewrite Hl, Hts, post_stop_full. st_simpl.
    split; [assumption|]. split; [apply lookup_insert_eq|].
    rewrite <- app_assoc. reflexivity. }
  destruct H1 as (Hex1 & Haw1 & Hlog1).
  rewrite length_app in Ha. cbn [length] in Ha.
  rewrite <- (frame_workers _ _ F) in Hall. rewrite <- (frame_active _ _ F) in Ha.
  apply Forall_app in Hall as [Hws Hw]. apply Forall_cons in Hw as [[id Hw] _].
  unfold leave. rewrite fmap_app. fold (leave ws). rewrite run_app.
  rewrite (leave_run ws st1 Hex1 Hws) by lia.
  cbn [fmap list_fmap run foldl]. unfold step. st_simpl. rewrite Hex1, Hw.
  unfold on_exit. st_simpl.
  replace (active st1 - Z.of_nat (length ws) - 1)%Z with 0%Z by lia.
  cbn [Z.eqb negb]. st_simpl.
  split; [reflexivity|]. split; [exact Haw1|].
  exists ts. split; [exact Hts|]. rewrite Hlog1, <- app_assoc. reflexivity.
Qed.

(** ** The further theorems at sample runs *)

Lemma task_forwarded_witness :
  reachable (up one_port_one_pool)
  /\ exited (up one_port_one_pool) = None
  /\ is_Some (workers (up one_port_one_pool) !! 0)
  /\ exists s,
       scheduler (up one_port_one_pool) = Some s
       /\ step (up one_port_one_pool) (EvMessage 0 (MTask 5 (Some 7)))
          = emit (PostMessage s (MTask 5 (Some 7)) (option_list (Some 7)))
              (up one_port_one_pool).
Proof.
  assert (R : reachable (up one_port_one_pool))
    by (exists "/srv/app"%string, [EvLoggerCreated; EvBoot one_port_one_pool];
        reflexivity).
  assert (H1 : exited (up one_port_one_pool) = None) by (vm_compute; reflexivity).
  assert (H2 : is_Some (workers (up one_port_one_pool) !! 0))
    by (exists 0; vm_compute; reflexivity).
  split; [exact R|]. split; [exact H1|]. split; [exact H2|].
  destruct (task_forwarded (up one_port_one_pool) 0 5 (Some 7) R H1 H2)
    as (s & Hs & _ & _ & _ & Hstep).
  exists s. split; [exact Hs | exact Hstep].
Defined.

Lemma slots_hold_latest_witness :
  reachable (run (up one_port_one_pool) [EvExit 2 1])
  /\ initialization (run (up one_port_one_pool) [EvExit 2 1]) = false
  /\ workers (run (up one_port_one_pool) [EvExit 2 1])
     = spawned (log (run (up one_port_one_pool) [EvExit 2 1]))
  /\ length (threads (run (up one_port_one_pool) [EvExit 2 1]))
     = count (run (up one_port_one_pool) [EvExit 2 1]).
Proof.
  assert (R : reachable (run (up one_port_one_pool) [EvExit 2 1]))
    by (exists "/srv/app"%string,
          [EvLoggerCreated; EvBoot one_port_one_pool; EvExit 2 1];
        vm_compute; reflexivity).
  assert (H1 : initialization (run (up one_port_one_pool) [EvExit 2 1]) = false)
    by (vm_compute; reflexivity).
  split; [exact R|]. split; [exact H1|].
  destruct (slots_hold_latest _ R H1) as (Hw & Hl & _).
  split; [exact Hw | exact Hl].
Defined.

Lemma pool_members_witness :
  reachable (run (up one_port_one_pool) [EvExit 2 1])
  /\ NoDup (poolItems (run (up one_port_one_pool) [EvExit 2 1])).
Proof.
  assert (R : reachable (run (up one_port_one_pool) [EvExit 2 1]))
    by (exists "/srv/app"%string,
          [EvLoggerCreated; EvBoot one_port_one_pool; EvExit 2 1];
        vm_compute; reflexivity).
  split; [exact R|]. exact (proj1 (pool_members _ R)).
Defined.

Lemma deadline_armed_once_witness :
  reachable (run one_online [EvOnline 1; EvExit 1 1; EvOnline 2])
  /\ armed (log (run one_online [EvOnline 1; EvExit 1 1; EvOnline 2])) <= 1.
Proof.
  assert (R : reachable (run one_online [EvOnline 1; EvExit 1 1; EvOnline 2]))
    by (exists "/srv/app"%string,
          [EvLoggerCreated; EvBoot one_port; EvOnline 0; EvOnline 1;
           EvExit 1 1; EvOnline 2];
        vm_compute; reflexivity).
  split; [exact R|]. exact (proj1 (deadline_armed_once _ R)).
Defined.

Lemma exit_codes_witness :
  exited (run (init "/srv/app")
            [EvLoggerCreated; EvBoot scheduler_only;
             EvMessage 0 (MEvent "started"); EvExit 0 0; EvStop])
  = Some 0%Z
  /\ active (run (init "/srv/app")
               [EvLoggerCreated; EvBoot scheduler_only;
                EvMessage 0 (MEvent "started"); EvExit 0 0; EvStop])
     = 0%Z.
Proof.
  assert (H1 : exited (run (init "/srv/app")
                         [EvLoggerCreated; EvBoot scheduler_only;
                          EvMessage 0 (MEvent "started"); EvExit 0 0; EvStop])
               = Some 0%Z) by (vm_compute; reflexivity).
  split; [exact H1|].
  destruct (exit_codes "/srv/app" _ 0 H1) as [H|(_ & Ha & _)];
    [discriminate H | exact Ha].
Defined.

Lemma errors_after_stop_witness :
  initialization all_started = false
  /\ exited all_started = None
  /\ finalization (run (step all_started EvStop) [EvExit 2 0; EvOnline 1]) = true.
Proof.
  assert (H1 : initialization all_started = false) by (vm_compute; reflexivity).
  assert (H2 : exited all_started = None) by (vm_compute; reflexivity).
  split; [exact H1|]. split; [exact H2|].
  exact (proj1 (errors_after_stop all_started [EvExit 2 0; EvOnline 1]
                  "warning" boom H1 H2)).
Defined.

Lemma clean_shutdown_witness :
  exited all_started = None
  /\ Forall (fun w => is_Some (workers all_started !! w)) ([0; 1] ++ [2])
  /\ active all_started = Z.of_nat (length ([0; 1] ++ [2]))
  /\ run all_started (leave ([0; 1] ++ [2]))
     = process_exit 0 (set_active 0 all_started).
Proof.
  assert (H1 : exited all_started = None) by (vm_compute; reflexivity).
  assert (H2 : Forall (fun w => is_Some (workers all_started !! w)) ([0; 1] ++ [2])).
  { repeat constructor; eexists; vm_compute; reflexivity. }
  assert (H3 : active all_started = Z.of_nat (length ([0; 1] ++ [2])))
    by (vm_compute; reflexivity).
  split; [exact H1|]. split; [exact H2|]. split; [exact H3|].
  exact (proj2 (clean_shutdown all_started [0; 1] 2 H1 H2 H3)).
Defined.

Lemma crash_loop_witness :
  exited (up one_port_one_pool) = None
  /\ workers (up one_port_one_pool) !! 2 = Some 2
  /\ Forall (fun code => code <> 0%Z) [1; 2; 3]%Z
  /\ workers (run (up one_port_one_pool)
                (crashes 2 (length (workers (up one_port_one_pool))) [1; 2; 3]%Z))
     = workers (up one_port_one_pool) ++ replicate (length [1; 2; 3]%Z) 2.
Proof.
  assert (H1 : exited (up one_port_one_pool) = None) by (vm_compute; reflexivity).
  assert (H2 : workers (up one_port_one_pool) !! 2 = Some 2)
    by (vm_compute; reflexivity).
  assert (H3 : Forall (fun code => code <> 0%Z) [1; 2; 3]%Z)
    by (repeat constructor; discriminate).
  split; [exact H1|]. split; [exact H2|]. split; [exact H3|].
  destruct (crash_loop [1; 2; 3]%Z (up one_port_one_pool) 2 2 H1 H2 H3)
    as (_ & Hw & _).
  exact Hw.
Defined.

Lemma validateConfig_report_witness :
  forallb (loads two_fail) CONFIG_SECTIONS = true
  /\ validateConfig two_fail starting_up
     = (None,
        if forallb (passes two_fail) CONFIG_SECTIONS then starting_up
        else exit default_message
               (emit_all (flat_map (report two_fail) CONFIG_SECTIONS) starting_up))
  /\ log (validateConfig two_fail starting_up).2
     = [ConsoleError
          "Field 'instance' is required in application/config/scale.js";
        ConsoleError
          "Field 'ports' is not an array in application/config/server.js";
        ConsoleError
          "Field 'timeouts' is required in application/config/server.js";
        ConsoleError "Can not start Application server";
        LoggerClose 0].
Proof.
  assert (H : forallb (loads two_fail) CONFIG_SECTIONS = true)
    by (vm_compute; reflexivity).
  split; [exact H|].
  split; [exact (validateConfig_report two_fail starting_up H)|].
  rewrite (validateConfig_report two_fail starting_up H).
  vm_compute. reflexivity.
Defined.


Lemma invoke_unanswered_witness :
  exited (up one_port_one_pool) = None
  /\ is_Some (workers (up one_port_one_pool) !! 0)
  /\ settles (nextPromise (up one_port_one_pool)) [EvOnline 1] = false
  /\ exited (run (step (up one_port_one_pool) (EvMessage 0 request7)) [EvOnline 1])
     = None
  /\ step (run (step (up one_port_one_pool) (EvMessage 0 request7)) [EvOnline 1])
       (EvSettle (nextPromise (up one_port_one_pool)) (Fulfilled None))
     = set_awaiting
         (delete (nextPromise (up one_port_one_pool))
            (awaiting
               (run (step (up one_port_one_pool) (EvMessage 0 request7))
                  [EvOnline 1])))
         (run (step (up one_port_one_pool) (EvMessage 0 request7)) [EvOnline 1]).
Proof.
  assert (H1 : exited (up one_port_one_pool) = None) by (vm_compute; reflexivity).
  assert (H2 : is_Some (workers (up one_port_one_pool) !! 0))
    by (exists 0; vm_compute; reflexivity).
  assert (H3 : settles (nextPromise (up one_port_one_pool)) [EvOnline 1] = false)
    by reflexivity.
  assert (H4 : exited (run (step (up one_port_one_pool) (EvMessage 0 request7))
                         [EvOnline 1]) = None)
    by (vm_compute; reflexivity).
  split; [exact H1|]. split; [exact H2|]. split; [exact H3|]. split; [exact H4|].
  exact (invoke_unanswered (up one_port_one_pool) 0 7 true 0 H1 H2
           [EvOnline 1] H3 H4).
Defined.

Lemma schema_not_loaded_witness :
  forallb (loads no_schema) CONFIG_SECTIONS = false
  /\ workers (main_tail no_schema one_port starting_up) = workers starting_up
  /\ log (main_tail no_schema one_port starting_up)
     = [ConsoleError
          "Field 'instance' is required in application/config/scale.js";
        ConsoleError "initialization error: Error: ENOENT";
        ConsoleError "Can not start Application server";
        LoggerClose 0].
Proof.
  assert (H : forallb (loads no_schema) CONFIG_SECTIONS = false)
    by (vm_compute; reflexivity).
  split; [exact H|].
  destruct (schema_not_loaded no_schema one_port starting_up H)
    as (e & _ & _ & _ & Hw & _).
  split; [exact Hw|]. vm_compute. reflexivity.
Defined.

Lemma stop_waits_for_workers_witness :
  initialization all_started = false
  /\ exited all_started = None
  /\ (forall p, awaiting all_started !! p <> Some KExit)
  /\ Forall (fun ev => leaving ev = false)
       [EvSettle 0 (Fulfilled None); EvError "warning" boom; EvOnline 2; EvStop]
  /\ exited (run (step all_started EvStop)
               [EvSettle 0 (Fulfilled None); EvError "warning" boom; EvOnline 2;
                EvStop])
     = None.
Proof.
  assert (H1 : initialization all_started = false) by (vm_compute; reflexivity).
  assert (H2 : exited all_started = None) by (vm_compute; reflexivity).
  assert (H3 : forall p, awaiting all_started !! p <> Some KExit).
  { assert (E : awaiting all_started = ∅) by (vm_compute; reflexivity).
    intros p. rewrite E, lookup_empty. discriminate. }
  assert (H4 : Forall (fun ev => leaving ev = false)
                 [EvSettle 0 (Fulfilled None); EvError "warning" boom; EvOnline 2;
                  EvStop])
    by (repeat constructor).
  split; [exact H1|]. split; [exact H2|]. split; [exact H3|]. split; [exact H4|].
  exact (stop_waits_for_workers all_started _ H1 H2 H3 H4).
Defined.

Lemma graceful_stop_witness :
  reachable all_started
  /\ exited all_started = None
  /\ initialization all_started = false
  /\ Forall (fun w => is_Some (workers all_started !! w)) ([2; 0] ++ [1])
  /\ active all_started = Z.of_nat (length ([2; 0] ++ [1]))
  /\ exited (run all_started (EvStop :: leave ([2; 0] ++ [1]))) = Some 0%Z.
Proof.
  assert (R : reachable all_started)
    by (exists "/srv/app"%string,
          [EvLoggerCreated; EvBoot one_port_one_pool;
           EvMessage 0 (MEvent "started"); EvMessage 1 (MEvent "started");
           EvMessage 2 (MEvent "started")];
        vm_compute; reflexivity).
  assert (H1 : exited all_started = None) by (vm_compute; reflexivity).
  assert (H2 : initialization all_started = false) by (vm_compute; reflexivity).
  assert (H3 : Forall (fun w => is_Some (workers all_started !! w)) ([2; 0] ++ [1])).
  { repeat constructor; eexists; vm_compute; reflexivity. }
  assert (H4 : active all_started = Z.of_nat (length ([2; 0] ++ [1])))
    by (vm_compute; reflexivity).
  split; [exact R|]. split; [exact H1|]. split; [exact H2|]. split; [exact H3|].
  split; [exact H4|].
  exact (proj1 (graceful_stop all_started [2; 0] 1 R H1 H2 H3 H4)).
Defined.
